(** * DevPilot orchestration core: a shallow embedding and its properties

    The development embeds the orchestration core of DevPilot
    (src/dev_pilot/agents and src/dev_pilot/orchestration) in Rocq:
    the message and task model, the priority task queue with its dependency
    tracker, the agent registry, the agent execution lifecycle, the in-memory
    message bus and the workflow engine.

    Conventions.
    - Python objects that are shared and mutated (tasks, agents, messages,
      executions) live in explicit object stores indexed by references;
      containers hold references, so aliasing is visible.
    - A Python [dict] with string keys is a [gmap string _]; a [list] is a
      [list]; a [set] is a [gset].
    - Python [int] is [Z]; a Python [float] is a binary64 number, the
      primitive [float] of Rocq, with the IEEE 754 operations.
    - A raised exception is a value of [exn]; a function that may raise
      returns the state reached at the raise together with the exception. *)

From Stdlib Require Import ZArith Lia ZifyNat DecimalString DecimalZ.
From Stdlib Require Import Floats.
From stdpp Require Import base option functions gmap list strings pretty sorting.

#[local] Set Warnings "-register-all,-inexact-float".
#[local] Open Scope Z_scope.

(** ** Python values *)

(** [Any]: the JSON-like values that travel in payloads, contexts, results. *)
Inductive pyval :=
  | PNone
  | PBool (b : bool)
  | PInt (z : Z)
  | PFloat (f : float)
  | PStr (s : string)
  | PList (l : list pyval)
  | PDict (d : gmap string pyval).

Abbreviation pydict := (gmap string pyval).

(** Python truthiness of a value ([if x:]). *)
Definition truthy (v : pyval) : bool :=
  match v with
  | PNone => false
  | PBool b => b
  | PInt z => negb (z =? 0)
  | PFloat f => negb (f =? 0)%float
  | PStr s => negb (String.eqb s "")
  | PList l => match l with [] => false | _ => true end
  | PDict d => negb (bool_decide (d = ∅))
  end.

(** Truthiness of an [Optional[str]]. *)
Definition truthy_ostr (o : option string) : bool :=
  match o with
  | None => false
  | Some s => negb (String.eqb s "")
  end.

(** Exceptions: the class and [str(e)]. *)
Inductive exn_kind :=
  | ValueError | RuntimeError | KeyError | IndexError | TypeError
  | OverflowError | ZeroDivisionError | ExternalError.

Record exn := Exn { exn_kind_of : exn_kind; exn_msg : string }.

Inductive res (A : Type) :=
  | Ok (a : A)
  | Raise (e : exn).
Arguments Ok {A} a.
Arguments Raise {A} e.

#[global] Instance res_ret : MRet res := fun A a => Ok a.
#[global] Instance res_bind : MBind res := fun A B k r =>
  match r with
  | Ok a => k a
  | Raise e => Raise e
  end.

(** [data[k]] and [data.get(k, default)]. The [KeyError] carries the key,
    and its [str] is [repr(key)]; the builtin [repr] is a parameter. *)
Definition dict_item (repr : pyval → string) (data : pydict) (k : string)
  : res pyval :=
  match data !! k with
  | Some v => Ok v
  | None => Raise (Exn KeyError (repr (PStr k)))
  end.

Definition dict_get (data : pydict) (k : string) (dflt : pyval) : pyval :=
  default dflt (data !! k).

(** Reading a value at its declared type. The dataclasses declare the
    types of their fields and Python does not check them: of a value of
    another type it builds an object all the same. The records of this
    development hold the declared types, so such an object is outside them;
    [from_dict] reads the fields last and stops there with a [TypeError],
    after everything the code evaluates. *)
Definition as_str (v : pyval) : res string :=
  match v with
  | PStr s => Ok s
  | _ => Raise (Exn TypeError "str expected")
  end.

Definition as_int (v : pyval) : res Z :=
  match v with
  | PInt z => Ok z
  | _ => Raise (Exn TypeError "int expected")
  end.

Definition as_dict (v : pyval) : res pydict :=
  match v with
  | PDict d => Ok d
  | _ => Raise (Exn TypeError "dict expected")
  end.

Definition as_opt_str (v : pyval) : res (option string) :=
  match v with
  | PNone => Ok None
  | PStr s => Ok (Some s)
  | _ => Raise (Exn TypeError "Optional[str] expected")
  end.

Definition as_opt_dict (v : pyval) : res (option pydict) :=
  match v with
  | PNone => Ok None
  | PDict d => Ok (Some d)
  | _ => Raise (Exn TypeError "Optional[dict] expected")
  end.

Fixpoint as_str_list_aux (l : list pyval) : res (list string) :=
  match l with
  | [] => Ok []
  | v :: l' =>
      match as_str v, as_str_list_aux l' with
      | Ok s, Ok r => Ok (s :: r)
      | Raise e, _ => Raise e
      | _, Raise e => Raise e
      end
  end.

Definition as_str_list (v : pyval) : res (list string) :=
  match v with
  | PList l => as_str_list_aux l
  | _ => Raise (Exn TypeError "list expected")
  end.

Definition of_opt_str (o : option string) : pyval :=
  match o with
  | None => PNone
  | Some s => PStr s
  end.

Definition of_opt_dict (o : option pydict) : pyval :=
  match o with
  | None => PNone
  | Some d => PDict d
  end.

(** [datetime]: naive UTC instants as produced by [datetime.utcnow()],
    counted in microseconds. The order on instants is the order on [Z]. *)
Abbreviation datetime := Z (only parsing).

(** ** Python floats *)

(** An integer as a mantissa with exponent 0, for the division below. *)
Definition int_mantissa (n : Z) : spec_float :=
  match n with
  | 0 => S754_zero false
  | Z.pos p => S754_finite false p 0
  | Z.neg p => S754_finite true p 0
  end.

(** [float(n)] for an [int]: the nearest binary64 number (ties to even),
    [OverflowError] when that is beyond the largest one. Also the
    conversion of an [int] operand of a [float] operation. *)
Definition float_of_int (n : Z) : res float :=
  let f := SF2Prim (binary_normalize prec emax n 0 false) in
  if is_infinity f
  then Raise (Exn OverflowError "int too large to convert to float")
  else Ok f.

(** [a / b] on two [int]: the binary64 number nearest to the exact
    quotient (ties to even); [ZeroDivisionError] for a zero divisor and
    [OverflowError] when the quotient is beyond the largest number. *)
Definition int_truediv (a b : Z) : res float :=
  if b =? 0 then Raise (Exn ZeroDivisionError "division by zero")
  else
    let f := SF2Prim (SFdiv prec emax (int_mantissa a) (int_mantissa b)) in
    if is_infinity f
    then Raise (Exn OverflowError
                  "integer division result too large for a float")
    else Ok f.

(** [v == k] for a value [v] and an [int] [k] that binary64 holds exactly
    (below [2**53]): a [bool] is the integer 0 or 1, and a [float] equals
    [k] when it is the number [k]. *)
Definition py_eq_int (v : pyval) (k : Z) : bool :=
  match v with
  | PInt z => z =? k
  | PBool b => Z.b2z b =? k
  | PFloat f => (f =? SF2Prim (binary_normalize prec emax k 0 false))%float
  | _ => false
  end.

(** [timedelta.total_seconds()] of a difference of two instants, which is
    the true division of its microseconds by [10**6]; no difference of two
    instants comes near the range of binary64, where that division would
    raise. *)
Definition total_seconds (microseconds : Z) : float :=
  SF2Prim (SFdiv prec emax (int_mantissa microseconds) (int_mantissa 1000000)).

(** Python list indexing [l[i]], negative indices counting from the end. *)
Definition py_index {A} (l : list A) (i : Z) : res A :=
  let n := Z.of_nat (length l) in
  let j := if i <? 0 then i + n else i in
  if (0 <=? j) && (j <? n) then
    match l !! Z.to_nat j with
    | Some x => Ok x
    | None => Raise (Exn IndexError "list index out of range")
    end
  else Raise (Exn IndexError "list index out of range").

(** The slice [l[start:]], for any integer [start]: a negative [start]
    counts from the end, and both ends are clamped to the list. *)
Definition py_slice_from {A} (l : list A) (start : Z) : list A :=
  let n := Z.of_nat (length l) in
  let s := if start <? 0 then Z.max 0 (start + n) else Z.min start n in
  drop (Z.to_nat s) l.

(** The builtin [sorted] (and [list.sort]) with a key: a stable sort.
    [le a b] is [not (key(b) < key(a))]; an element goes in front of the
    first element of the sorted rest that is not below it, so elements with
    equal keys keep their order. *)
Fixpoint sort_insert {A} (le : A → A → bool) (x : A) (l : list A) : list A :=
  match l with
  | [] => [x]
  | y :: l' => if le x y then x :: l else y :: sort_insert le x l'
  end.

Definition py_sorted {A} (le : A → A → bool) (l : list A) : list A :=
  foldr (sort_insert le) [] l.

(** ** agents/agent_message.py *)

Module MessageType.
Inductive t :=
  | REQUEST | RESPONSE | NOTIFY | DELEGATE | ERROR | STATUS | HANDOFF
  | BROADCAST.

Definition value (m : t) : string :=
  match m with
  | REQUEST => "request"
  | RESPONSE => "response"
  | NOTIFY => "notify"
  | DELEGATE => "delegate"
  | ERROR => "error"
  | STATUS => "status"
  | HANDOFF => "handoff"
  | BROADCAST => "broadcast"
  end.

#[global] Instance eq_dec : EqDecision t.
Proof. solve_decision. Defined.

Definition members : list t :=
  [REQUEST; RESPONSE; NOTIFY; DELEGATE; ERROR; STATUS; HANDOFF; BROADCAST].

(** [MessageType(v)]: the member whose value equals [v], which only a
    string does; [ValueError] with [repr(v)] when there is none. *)
Definition of_value (repr : pyval → string) (v : pyval) : res t :=
  match
    match v with
    | PStr s => List.find (fun m => String.eqb (value m) s) members
    | _ => None
    end
  with
  | Some m => Ok m
  | None => Raise (Exn ValueError (repr v +:+ " is not a valid MessageType"))
  end.
End MessageType.

Module MessagePriority.
Inductive t := CRITICAL | HIGH | NORMAL | LOW | BACKGROUND.

Definition value (p : t) : Z :=
  match p with
  | CRITICAL => 1
  | HIGH => 2
  | NORMAL => 3
  | LOW => 4
  | BACKGROUND => 5
  end.

#[global] Instance eq_dec : EqDecision t.
Proof. solve_decision. Defined.

Definition members : list t := [CRITICAL; HIGH; NORMAL; LOW; BACKGROUND].

(** [MessagePriority(v)]: the member whose value equals [v], so that
    [True] and [2.0] give [CRITICAL] and [HIGH]; [ValueError] with
    [repr(v)] when there is none. *)
Definition of_value (repr : pyval → string) (v : pyval) : res t :=
  match List.find (fun p => py_eq_int v (value p)) members with
  | Some p => Ok p
  | None =>
      Raise (Exn ValueError (repr v +:+ " is not a valid MessagePriority"))
  end.
End MessagePriority.

(** The standard library's [datetime.isoformat] and
    [datetime.fromisoformat], and the builtin [repr], are taken as
    parameters of the serialization functions. *)
Section Iso.
Variable isoformat : datetime → string.
Variable fromisoformat : string → res datetime.

Definition parse_datetime (v : pyval) : res datetime :=
  match v with
  | PStr s => fromisoformat s
  | _ => Raise (Exn TypeError "fromisoformat: argument must be str")
  end.

Definition opt_isoformat (o : option datetime) : pyval :=
  match o with
  | Some d => PStr (isoformat d)
  | None => PNone
  end.

(** [datetime.fromisoformat(data[k]) if data.get(k) else None] *)
Definition parse_opt_datetime (data : pydict) (k : string)
  : res (option datetime) :=
  let v := dict_get data k PNone in
  if truthy v then
    match parse_datetime v with
    | Ok d => Ok (Some d)
    | Raise e => Raise e
    end
  else Ok None.
End Iso.

Module AgentMessage.
Record t := mk {
  sender : string;
  recipient : string;
  message_type : MessageType.t;
  payload : pydict;
  priority : MessagePriority.t;
  context : pydict;
  correlation_id : string;
  parent_id : option string;
  timestamp : datetime;
  metadata : pydict;
}.

Section Serialization.
Variable isoformat : datetime → string.
Variable fromisoformat : string → res datetime.
Variable repr : pyval → string.

Definition to_dict (self : t) : pydict :=
  list_to_map [
    ("sender", PStr (sender self));
    ("recipient", PStr (recipient self));
    ("message_type", PStr (MessageType.value (message_type self)));
    ("payload", PDict (payload self));
    ("priority", PInt (MessagePriority.value (priority self)));
    ("context", PDict (context self));
    ("correlation_id", PStr (correlation_id self));
    ("parent_id", of_opt_str (parent_id self));
    ("timestamp", PStr (isoformat (timestamp self)));
    ("metadata", PDict (metadata self))
  ].

(** [from_dict]; [uuid4] is the value [str(uuid.uuid4())] would return
    and [now] the value of [datetime.utcnow()] at the call. First what the
    code evaluates and may raise, in its order; then the values are read at
    the declared types of the fields. *)
Definition from_dict (uuid4 : string) (now : datetime) (data : pydict)
  : res t :=
  (v_sender ← dict_item repr data "sender";
   v_recipient ← dict_item repr data "recipient";
   v_type ← dict_item repr data "message_type";
   message_type ← MessageType.of_value repr v_type;
   v_payload ← dict_item repr data "payload";
   priority ←
     MessagePriority.of_value repr (dict_get data "priority" (PInt 3));
   timestamp ←
     match data !! "timestamp" with
     | Some v => parse_datetime fromisoformat v
     | None => Ok now
     end;
   sender ← as_str v_sender;
   recipient ← as_str v_recipient;
   payload ← as_dict v_payload;
   context ← as_dict (dict_get data "context" (PDict ∅));
   correlation_id ← as_str (dict_get data "correlation_id" (PStr uuid4));
   parent_id ← as_opt_str (dict_get data "parent_id" PNone);
   metadata ← as_dict (dict_get data "metadata" (PDict ∅));
   Ok (mk sender recipient message_type payload priority context
         correlation_id parent_id timestamp metadata)).
End Serialization.

(** [create_response]: a new instance; [uuid4]/[now] are not used for the
    correlation id, [now] is the default timestamp. *)
Definition create_response (self : t) (sender' : string) (payload' : pydict)
    (message_type' : MessageType.t) (now : datetime) : t :=
  mk sender' (sender self) message_type' payload' (priority self)
     (context self) (correlation_id self) (Some (correlation_id self)) now
     {["in_response_to" := PStr (correlation_id self)]}.

Definition create_error_response (self : t) (sender' : string)
    (error_message : string) (error_code : option string) (now : datetime)
  : t :=
  mk sender' (sender self) MessageType.ERROR
     (list_to_map [("error", PStr error_message);
                   ("error_code", of_opt_str error_code);
                   ("original_payload", PDict (payload self))])
     MessagePriority.HIGH (context self) (correlation_id self)
     (Some (correlation_id self)) now ∅.

Definition create_broadcast (sender' : string) (event : string)
    (data : pydict) (context' : option pydict) (uuid4 : string)
    (now : datetime) : t :=
  mk sender' "BROADCAST" MessageType.BROADCAST
     (list_to_map [("event", PStr event); ("data", PDict data)])
     MessagePriority.NORMAL
     (match context' with
      | Some c => if bool_decide (c = ∅) then ∅ else c
      | None => ∅
      end)
     uuid4 None now ∅.
End AgentMessage.

Module AgentTask.
(** [task_type] and [input_data] hold whatever the caller passes:
    [_handle_request] passes the payload's ["action"] and ["data"] as they
    are, and the engine the step's task type, which may be [None]. *)
Record t := mk {
  task_id : string;
  task_type : pyval;
  input_data : pyval;
  assigned_agent : option string;
  status : string;
  result : option pydict;
  created_at : datetime;
  started_at : option datetime;
  completed_at : option datetime;
  parent_task_id : option string;
  dependencies : list string;
  priority : MessagePriority.t;
  metadata : pydict;
}.

(** Field updates (attribute assignment on the task object). *)
Definition set_status (s : string) (x : t) : t :=
  mk (task_id x) (task_type x) (input_data x) (assigned_agent x) s
     (result x) (created_at x) (started_at x) (completed_at x)
     (parent_task_id x) (dependencies x) (priority x) (metadata x).
Definition set_result (r : option pydict) (x : t) : t :=
  mk (task_id x) (task_type x) (input_data x) (assigned_agent x) (status x)
     r (created_at x) (started_at x) (completed_at x)
     (parent_task_id x) (dependencies x) (priority x) (metadata x).
Definition set_started_at (d : option datetime) (x : t) : t :=
  mk (task_id x) (task_type x) (input_data x) (assigned_agent x) (status x)
     (result x) (created_at x) d (completed_at x)
     (parent_task_id x) (dependencies x) (priority x) (metadata x).
Definition set_completed_at (d : option datetime) (x : t) : t :=
  mk (task_id x) (task_type x) (input_data x) (assigned_agent x) (status x)
     (result x) (created_at x) (started_at x) d
     (parent_task_id x) (dependencies x) (priority x) (metadata x).
Definition set_metadata (m : pydict) (x : t) : t :=
  mk (task_id x) (task_type x) (input_data x) (assigned_agent x) (status x)
     (result x) (created_at x) (started_at x) (completed_at x)
     (parent_task_id x) (dependencies x) (priority x) m.

(** [AgentTask.create]: [uuid4] and [now] as in [AgentMessage.from_dict]. *)
Definition create (task_type' : pyval) (input_data' : pyval)
    (assigned_agent' : option string) (parent_task_id' : option string)
    (dependencies' : option (list string)) (priority' : MessagePriority.t)
    (uuid4 : string) (now : datetime) : t :=
  mk uuid4 task_type' input_data' assigned_agent' "pending" None now None
     None parent_task_id' (default [] dependencies') priority' ∅.

Section Serialization.
Variable isoformat : datetime → string.
Variable fromisoformat : string → res datetime.
Variable repr : pyval → string.

Definition to_dict (self : t) : pydict :=
  list_to_map [
    ("task_id", PStr (task_id self));
    ("task_type", task_type self);
    ("input_data", input_data self);
    ("assigned_agent", of_opt_str (assigned_agent self));
    ("status", PStr (status self));
    ("result", of_opt_dict (result self));
    ("created_at", PStr (isoformat (created_at self)));
    ("started_at", opt_isoformat isoformat (started_at self));
    ("completed_at", opt_isoformat isoformat (completed_at self));
    ("parent_task_id", of_opt_str (parent_task_id self));
    ("dependencies", PList (PStr <$> dependencies self));
    ("priority", PInt (MessagePriority.value (priority self)));
    ("metadata", PDict (metadata self))
  ].

(** [from_dict], in the same two stages as for messages. *)
Definition from_dict (now : datetime) (data : pydict) : res t :=
  (v_id ← dict_item repr data "task_id";
   task_type ← dict_item repr data "task_type";
   input_data ← dict_item repr data "input_data";
   created_at ←
     match data !! "created_at" with
     | Some v => parse_datetime fromisoformat v
     | None => Ok now
     end;
   started_at ← parse_opt_datetime fromisoformat data "started_at";
   completed_at ← parse_opt_datetime fromisoformat data "completed_at";
   priority ←
     MessagePriority.of_value repr (dict_get data "priority" (PInt 3));
   task_id ← as_str v_id;
   assigned_agent ← as_opt_str (dict_get data "assigned_agent" PNone);
   status ← as_str (dict_get data "status" (PStr "pending"));
   result ← as_opt_dict (dict_get data "result" PNone);
   parent_task_id ← as_opt_str (dict_get data "parent_task_id" PNone);
   dependencies ← as_str_list (dict_get data "dependencies" (PList []));
   metadata ← as_dict (dict_get data "metadata" (PDict ∅));
   Ok (mk task_id task_type input_data assigned_agent status result
         created_at started_at completed_at parent_task_id dependencies
         priority metadata)).
End Serialization.

(** [mark_started], [mark_completed], [mark_failed], [mark_blocked]. *)
Definition mark_started (now : datetime) (self : t) : t :=
  set_started_at (Some now) (set_status "running" self).

Definition mark_completed (r : pydict) (now : datetime) (self : t) : t :=
  set_completed_at (Some now) (set_result (Some r) (set_status "completed" self)).

Definition mark_failed (error : string) (now : datetime) (self : t) : t :=
  set_completed_at (Some now)
    (set_result (Some {["error" := PStr error]}) (set_status "failed" self)).

Definition mark_blocked (reason : string) (self : t) : t :=
  set_metadata (<["blocked_reason" := PStr reason]> (metadata self))
    (set_status "blocked" self).
End AgentTask.

(** ** Object stores *)

(** A reference designates a live object: a store is a total map from
    references to objects. Assignment to an attribute of the object behind
    [r] is [<[r := _]> store]; every holder of [r] sees it. *)
Abbreviation ref := nat (only parsing).
Abbreviation store A := (nat → A) (only parsing).

(** ** The standard library's [heapq] (Lib/heapq.py), on Python lists *)

Module heapq.
Section Heapq.
Context {A : Type}.
(** [lt x y] is [x < y], that is [x.__lt__(y)]. *)
Variable lt : A → A → bool.

(** The [while pos > startpos] loop of [_siftdown]; every round at least
  halves [pos], so [pos] rounds are enough. *)
Fixpoint _siftdown_loop (fuel : nat) (heap : list A) (startpos : nat)
  (newitem : A) (pos : nat) : list A :=
match fuel with
| O => <[pos := newitem]> heap
| S fuel' =>
    if decide (startpos < pos)%nat then
      let parentpos := ((pos - 1) / 2)%nat in
      match heap !! parentpos with
      | Some parent =>
          if lt newitem parent then
            _siftdown_loop fuel' (<[pos := parent]> heap) startpos
              newitem parentpos
          else <[pos := newitem]> heap
      | None => heap
      end
    else <[pos := newitem]> heap
end.

Definition _siftdown (heap : list A) (startpos pos : nat) : list A :=
match heap !! pos with
| Some newitem => _siftdown_loop pos heap startpos newitem pos
| None => heap
end.

(** The choice of the smaller child in [_siftup]:
  [if rightpos < endpos and not heap[childpos] < heap[rightpos]]. *)
Definition smaller_child (heap : list A) (endpos childpos : nat) : nat :=
let rightpos := (childpos + 1)%nat in
if decide (rightpos < endpos)%nat then
  match heap !! childpos, heap !! rightpos with
  | Some c, Some r => if negb (lt c r) then rightpos else childpos
  | _, _ => childpos
  end
else childpos.

(** The [while childpos < endpos] loop of [_siftup]: the smaller child is
  moved up until a leaf is reached; returns the list and the leaf. *)
Fixpoint _siftup_loop (fuel : nat) (heap : list A) (endpos pos : nat)
: list A * nat :=
match fuel with
| O => (heap, pos)
| S fuel' =>
    let childpos := (2 * pos + 1)%nat in
    if decide (childpos < endpos)%nat then
      let childpos := smaller_child heap endpos childpos in
      match heap !! childpos with
      | Some child =>
          _siftup_loop fuel' (<[pos := child]> heap) endpos childpos
      | None => (heap, pos)
      end
    else (heap, pos)
end.

Definition _siftup (heap : list A) (pos : nat) : list A :=
let endpos := length heap in
let startpos := pos in
match heap !! pos with
| Some newitem =>
    let '(heap, pos) := _siftup_loop endpos heap endpos pos in
    _siftdown (<[pos := newitem]> heap) startpos pos
| None => heap
end.

Definition heappush (heap : list A) (item : A) : list A :=
let heap := heap ++ [item] in
_siftdown heap 0 (length heap - 1).

(** [list.pop()]: the list without its last element, and that element. *)
Definition list_pop (l : list A) : option (list A * A) :=
match last l with
| Some x => Some (removelast l, x)
| None => None
end.

(** [heappop]: [None] stands for the [IndexError] on an empty heap. *)
Definition heappop (heap : list A) : option (A * list A) :=
match list_pop heap with
| None => None
| Some (heap, lastelt) =>
    match heap with
    | [] => Some (lastelt, [])
    | returnitem :: _ => Some (returnitem, _siftup (<[0%nat := lastelt]> heap) 0)
    end
end.
End Heapq.
End heapq.

(** ** orchestration/task_queue.py *)

Module PriorityQueueItem.
Record t := mk {
  priority : Z;
  timestamp : datetime;
  task : ref;
}.

(** [__lt__] *)
Definition lt (self other : t) : bool :=
  if negb (priority self =? priority other) then
    priority self <? priority other
  else timestamp self <? timestamp other.
End PriorityQueueItem.

(** ["-" in s] and [s.split("-")[0]]. *)
Definition dash : Ascii.ascii := Ascii.ascii_of_nat 45.

Fixpoint has_dash (s : string) : bool :=
  match s with
  | EmptyString => false
  | String c r => if Ascii.eqb c dash then true else has_dash r
  end.

Fixpoint split_dash_head (s : string) : string :=
  match s with
  | EmptyString => EmptyString
  | String c r => if Ascii.eqb c dash then EmptyString else String c (split_dash_head r)
  end.

Module InMemoryTaskQueue.
Record metrics := mk_metrics {
  total_enqueued : Z;
  total_completed : Z;
  total_failed : Z;
}.

(** The queue object. The dictionaries hold references to task objects.
    [_triggered] records the calls of [_trigger_callbacks] (event, task),
    latest first: the registered callbacks are observers whose exceptions
    are swallowed. *)
Record t := mk {
  _queue : list PriorityQueueItem.t;
  _type_queues : gmap string (list PriorityQueueItem.t);
  _tasks : gmap string ref;
  _pending_tasks : gmap string ref;
  _running_tasks : gmap string ref;
  _completed_tasks : gmap string ref;
  _failed_tasks : gmap string ref;
  _metrics : metrics;
  _triggered : list (string * ref);
}.

(** [__init__] *)
Definition init : t :=
  mk [] ∅ ∅ ∅ ∅ ∅ ∅ (mk_metrics 0 0 0) [].

Definition _trigger_callbacks (event : string) (task : ref) (self : t) : t :=
  mk (_queue self) (_type_queues self) (_tasks self) (_pending_tasks self)
     (_running_tasks self) (_completed_tasks self) (_failed_tasks self)
     (_metrics self) ((event, task) :: _triggered self).

Definition enqueue (σ : store AgentTask.t) (self : t) (task : ref)
  : t * string :=
  let tk := σ task in
  let tid := AgentTask.task_id tk in
  let tasks := <[tid := task]> (_tasks self) in
  let pending := <[tid := task]> (_pending_tasks self) in
  let item := PriorityQueueItem.mk
                (MessagePriority.value (AgentTask.priority tk))
                (AgentTask.created_at tk) task in
  let queue := heapq.heappush PriorityQueueItem.lt (_queue self) item in
  let type_queues :=
    if truthy_ostr (AgentTask.assigned_agent tk) then
      let assigned := default "" (AgentTask.assigned_agent tk) in
      let agent_type :=
        if has_dash assigned then split_dash_head assigned else assigned in
      <[agent_type :=
          heapq.heappush PriorityQueueItem.lt
            (default [] (_type_queues self !! agent_type)) item]>
        (_type_queues self)
    else _type_queues self in
  let m := _metrics self in
  let self := mk queue type_queues tasks pending (_running_tasks self)
                (_completed_tasks self) (_failed_tasks self)
                (mk_metrics (total_enqueued m + 1) (total_completed m)
                   (total_failed m))
                (_triggered self) in
  (_trigger_callbacks "task_enqueued" task self, tid).

(** The [while queue:] loop of [dequeue] on the chosen heap; every round
    pops one item, so [length queue] rounds are enough. Returns the heap,
    the pending and running dictionaries and the result. *)
Fixpoint dequeue_loop (σ : store AgentTask.t) (fuel : nat)
    (queue : list PriorityQueueItem.t) (pending running : gmap string ref)
  : list PriorityQueueItem.t * gmap string ref * gmap string ref * option ref :=
  match fuel with
  | O => (queue, pending, running, None)
  | S fuel' =>
      match heapq.heappop PriorityQueueItem.lt queue with
      | None => (queue, pending, running, None)
      | Some (item, queue) =>
          let task := PriorityQueueItem.task item in
          let tid := AgentTask.task_id (σ task) in
          if decide (is_Some (pending !! tid)) then
            (queue, delete tid pending, <[tid := task]> running, Some task)
          else dequeue_loop σ fuel' queue pending running
      end
  end.

(** Which heap [dequeue] works on: the key of the type queue, if any. *)
Definition dequeue_key (self : t) (agent_type : option string)
  : option string :=
  match agent_type with
  | Some ty =>
      if truthy_ostr agent_type && bool_decide (is_Some (_type_queues self !! ty))
      then Some ty else None
  | None => None
  end.

Definition chosen_queue (self : t) (key : option string)
  : list PriorityQueueItem.t :=
  match key with
  | Some ty => default [] (_type_queues self !! ty)
  | None => _queue self
  end.

Definition dequeue (σ : store AgentTask.t) (self : t)
    (agent_type : option string) : t * option ref :=
  let key := dequeue_key self agent_type in
  let queue := chosen_queue self key in
  let '(queue, pending, running, r) :=
    dequeue_loop σ (length queue) queue (_pending_tasks self)
      (_running_tasks self) in
  (mk (match key with Some _ => _queue self | None => queue end)
      (match key with
       | Some ty => <[ty := queue]> (_type_queues self)
       | None => _type_queues self
       end)
      (_tasks self) pending running (_completed_tasks self)
      (_failed_tasks self) (_metrics self) (_triggered self),
   r).

Definition get_task (self : t) (task_id : string) : option ref :=
  _tasks self !! task_id.

(** The four status dictionaries, in the order [update_task] scans them,
    with the first one holding [tid] emptied of it (the [break]). *)
Definition remove_first_bucket (tid : string)
    (p r c f : gmap string ref)
  : gmap string ref * gmap string ref * gmap string ref * gmap string ref :=
  if decide (is_Some (p !! tid)) then (delete tid p, r, c, f)
  else if decide (is_Some (r !! tid)) then (p, delete tid r, c, f)
  else if decide (is_Some (c !! tid)) then (p, r, delete tid c, f)
  else if decide (is_Some (f !! tid)) then (p, r, c, delete tid f)
  else (p, r, c, f).

Definition update_task (σ : store AgentTask.t) (self : t) (task : ref)
  : t :=
  let tk := σ task in
  let tid := AgentTask.task_id tk in
  let tasks := <[tid := task]> (_tasks self) in
  let '(p, r, c, f) :=
    remove_first_bucket tid (_pending_tasks self) (_running_tasks self)
      (_completed_tasks self) (_failed_tasks self) in
  let m := _metrics self in
  let st := AgentTask.status tk in
  if String.eqb st "pending" then
    mk (_queue self) (_type_queues self) tasks (<[tid := task]> p) r c f m
       (_triggered self)
  else if String.eqb st "running" then
    mk (_queue self) (_type_queues self) tasks p (<[tid := task]> r) c f m
       (_triggered self)
  else if String.eqb st "completed" then
    _trigger_callbacks "task_completed" task
      (mk (_queue self) (_type_queues self) tasks p r (<[tid := task]> c) f
         (mk_metrics (total_enqueued m) (total_completed m + 1)
            (total_failed m))
         (_triggered self))
  else if String.eqb st "failed" then
    _trigger_callbacks "task_failed" task
      (mk (_queue self) (_type_queues self) tasks p r c (<[tid := task]> f)
         (mk_metrics (total_enqueued m) (total_completed m)
            (total_failed m + 1))
         (_triggered self))
  else
    mk (_queue self) (_type_queues self) tasks p r c f m (_triggered self).

(** [retry_task]: mutates the task object, then re-enqueues it. *)
Definition retry_task (σ : store AgentTask.t) (self : t) (task_id : string)
  : store AgentTask.t * t * bool :=
  match _failed_tasks self !! task_id with
  | None => (σ, self, false)
  | Some task =>
      let tk := σ task in
      let tk := AgentTask.set_completed_at None
                  (AgentTask.set_started_at None
                     (AgentTask.set_result None
                        (AgentTask.set_status "pending" tk))) in
      let σ := <[task := tk]> σ in
      let self := mk (_queue self) (_type_queues self) (_tasks self)
                    (_pending_tasks self) (_running_tasks self)
                    (_completed_tasks self)
                    (delete task_id (_failed_tasks self))
                    (_metrics self) (_triggered self) in
      (σ, fst (enqueue σ self task), true)
  end.

(** [cancel_task]; [now_iso] is [datetime.utcnow().isoformat()]. *)
Definition cancel_task (now_iso : string) (σ : store AgentTask.t)
    (self : t) (task_id : string) : store AgentTask.t * t * bool :=
  match _pending_tasks self !! task_id with
  | None => (σ, self, false)
  | Some task =>
      let tk := AgentTask.set_status "cancelled" (σ task) in
      let tk := AgentTask.set_metadata
                  (<["cancelled_at" := PStr now_iso]> (AgentTask.metadata tk))
                  tk in
      let σ := <[task := tk]> σ in
      let self := mk (_queue self) (_type_queues self) (_tasks self)
                    (delete task_id (_pending_tasks self))
                    (_running_tasks self) (_completed_tasks self)
                    (_failed_tasks self) (_metrics self) (_triggered self) in
      (σ, _trigger_callbacks "task_cancelled" task self, true)
  end.

(** The operations of the queue as a small command language, to speak of
    sequences of calls. *)
Inductive op :=
  | Enqueue (task : ref)
  | Dequeue (agent_type : option string)
  | UpdateTask (task : ref)
  | RetryTask (task_id : string)
  | CancelTask (now_iso : string) (task_id : string).

(** What a call returned, when it is a task. *)
Definition step (st : store AgentTask.t * t) (o : op)
  : store AgentTask.t * t * option ref :=
  let '(σ, q) := st in
  match o with
  | Enqueue task => (σ, fst (enqueue σ q task), None)
  | Dequeue ty => let '(q, r) := dequeue σ q ty in (σ, q, r)
  | UpdateTask task => (σ, update_task σ q task, None)
  | RetryTask tid => let '(σ, q, _) := retry_task σ q tid in (σ, q, None)
  | CancelTask now_iso tid =>
      let '(σ, q, _) := cancel_task now_iso σ q tid in (σ, q, None)
  end.

(** Runs the calls in order; returns the final state and what each call
    returned. *)
Fixpoint run (st : store AgentTask.t * t) (ops : list op)
  : store AgentTask.t * t * list (option ref) :=
  match ops with
  | [] => (st, [])
  | o :: ops =>
      let '(σ, q, r) := step st o in
      let '(st, rs) := run (σ, q) ops in
      (st, r :: rs)
  end.
(** The sort key of [get_pending_tasks], [(t.priority.value, t.created_at)],
    compared as tuples: [key_le σ a b] is [not (key(b) < key(a))]. *)
Definition key_le (σ : store AgentTask.t) (a b : ref) : bool :=
  let pa := MessagePriority.value (AgentTask.priority (σ a)) in
  let pb := MessagePriority.value (AgentTask.priority (σ b)) in
  (pa <? pb)
  || ((pa =? pb) && (AgentTask.created_at (σ a) <=? AgentTask.created_at (σ b))).

(** The filter of [get_pending_tasks]:
    [t.assigned_agent and t.assigned_agent.startswith(agent_type)]. *)
Definition assigned_to (σ : store AgentTask.t) (agent_type : string)
    (t : ref) : bool :=
  truthy_ostr (AgentTask.assigned_agent (σ t))
  && String.prefix agent_type (default "" (AgentTask.assigned_agent (σ t))).

(** [get_pending_tasks]. [values] is [list(self._pending_tasks.values())]:
    the pending task objects in the order of the dictionary, which is the
    order in which the ids were last inserted. *)
Definition get_pending_tasks (σ : store AgentTask.t) (values : list ref)
    (agent_type : option string) : list ref :=
  let tasks := values in
  let tasks :=
    if truthy_ostr agent_type
    then List.filter (assigned_to σ (default "" agent_type)) tasks
    else tasks in
  py_sorted (key_le σ) tasks.

(** [get_metrics] *)
Definition get_metrics (self : t) : pydict :=
  list_to_map [
    ("total_enqueued", PInt (total_enqueued (_metrics self)));
    ("total_completed", PInt (total_completed (_metrics self)));
    ("total_failed", PInt (total_failed (_metrics self)));
    ("pending_count", PInt (Z.of_nat (size (_pending_tasks self))));
    ("running_count", PInt (Z.of_nat (size (_running_tasks self))));
    ("completed_count", PInt (Z.of_nat (size (_completed_tasks self))));
    ("failed_count", PInt (Z.of_nat (size (_failed_tasks self))));
    ("queue_size", PInt (Z.of_nat (length (_queue self))))
  ].

(** [clear]: the heaps and the dictionaries are emptied; the counters and
    the callbacks stay. *)
Definition clear (self : t) : t :=
  mk [] ∅ ∅ ∅ ∅ ∅ ∅ (_metrics self) (_triggered self).
End InMemoryTaskQueue.

Module DependencyTracker.
Record t := mk {
  _dependencies : gmap string (list string);
  _dependents : gmap string (list string);
  _completed : gset string;
}.

Definition init : t := mk ∅ ∅ ∅.

Definition add_dependency (self : t) (task_id depends_on : string) : t :=
  mk (<[task_id := default [] (_dependencies self !! task_id) ++ [depends_on]]>
        (_dependencies self))
     (<[depends_on := default [] (_dependents self !! depends_on) ++ [task_id]]>
        (_dependents self))
     (_completed self).

Definition mark_completed (self : t) (task_id : string) : t :=
  mk (_dependencies self) (_dependents self) ({[task_id]} ∪ _completed self).

Definition can_execute (self : t) (task_id : string) : bool :=
  let deps := default [] (_dependencies self !! task_id) in
  forallb (fun dep => bool_decide (dep ∈ _completed self)) deps.

Definition get_ready_tasks (self : t) (pending_tasks : list string)
  : list string :=
  List.filter (can_execute self) pending_tasks.

Definition get_dependents (self : t) (task_id : string) : list string :=
  default [] (_dependents self !! task_id).
(** [clear] *)
Definition clear (self : t) : t := mk ∅ ∅ ∅.

(** Calls of the tracker, to speak of sequences of them. *)
Inductive op :=
  | AddDependency (task_id depends_on : string)
  | MarkCompleted (task_id : string)
  | Clear.

Definition step (self : t) (o : op) : t :=
  match o with
  | AddDependency task_id depends_on => add_dependency self task_id depends_on
  | MarkCompleted task_id => mark_completed self task_id
  | Clear => clear self
  end.

Definition run (self : t) (ops : list op) : t := foldl step self ops.
End DependencyTracker.

(** ** agents/base_agent.py: the agent record *)

Module AgentState.
Inductive t := IDLE | WORKING | REVIEWING | COMPLETED | BLOCKED | ERROR | PAUSED.

Definition value (s : t) : string :=
  match s with
  | IDLE => "idle"
  | WORKING => "working"
  | REVIEWING => "reviewing"
  | COMPLETED => "completed"
  | BLOCKED => "blocked"
  | ERROR => "error"
  | PAUSED => "paused"
  end.

#[global] Instance eq_dec : EqDecision t.
Proof. solve_decision. Defined.
End AgentState.

(** The callables registered on agents. The only state-change callback
    registered in the repository is the registry's
    [_on_agent_state_change], which writes a log line. *)
Inductive state_callback := registry_on_agent_state_change.

Module BaseAgent.
(** [_metrics]: four [int] counters and the [float]
    [total_processing_time], in seconds. *)
Record metrics := mk_metrics {
  tasks_completed : Z;
  tasks_failed : Z;
  messages_sent : Z;
  messages_received : Z;
  total_processing_time : float;
}.

(** The agent object. [message_bus] tells whether the agent was given the
    bus of its world ([None] otherwise); [_current_task] and
    [_task_history] hold references to task objects. *)
Record t := mk {
  agent_id : string;
  agent_type : string;
  name : string;
  message_bus : bool;
  _state : AgentState.t;
  _current_task : option ref;
  _task_history : list ref;
  _state_change_callbacks : list state_callback;
  _metrics : metrics;
}.

(** [__init__] *)
Definition init (agent_id agent_type name : string) (message_bus : bool) : t :=
  mk agent_id agent_type name message_bus AgentState.IDLE None [] []
     (mk_metrics 0 0 0 0 0%float).

Definition set_current_task (c : option ref) (a : t) : t :=
  mk (agent_id a) (agent_type a) (name a) (message_bus a) (_state a) c
     (_task_history a) (_state_change_callbacks a) (_metrics a).
Definition set_task_history (h : list ref) (a : t) : t :=
  mk (agent_id a) (agent_type a) (name a) (message_bus a) (_state a)
     (_current_task a) h (_state_change_callbacks a) (_metrics a).
Definition set_callbacks (cs : list state_callback) (a : t) : t :=
  mk (agent_id a) (agent_type a) (name a) (message_bus a) (_state a)
     (_current_task a) (_task_history a) cs (_metrics a).
Definition set_metrics (m : metrics) (a : t) : t :=
  mk (agent_id a) (agent_type a) (name a) (message_bus a) (_state a)
     (_current_task a) (_task_history a) (_state_change_callbacks a) m.

(** The [state] property and its setter. The setter calls the registered
    callbacks, whose exceptions are swallowed; they only log. *)
Definition state (a : t) : AgentState.t := _state a.

Definition set_state (new_state : AgentState.t) (a : t) : t :=
  mk (agent_id a) (agent_type a) (name a) (message_bus a) new_state
     (_current_task a) (_task_history a) (_state_change_callbacks a)
     (_metrics a).

(** [is_available] *)
Definition is_available (a : t) : bool :=
  bool_decide (_state a ∈ [AgentState.IDLE; AgentState.COMPLETED]).

Definition register_state_callback (cb : state_callback) (a : t) : t :=
  set_callbacks (_state_change_callbacks a ++ [cb]) a.

Definition get_metrics (a : t) : metrics := _metrics a.
(** [reset]: back to [IDLE] with no current task; the assignment is to
    [_state] itself, so no callback runs. History and metrics stay. *)
Definition reset (a : t) : t :=
  mk (agent_id a) (agent_type a) (name a) (message_bus a) AgentState.IDLE
     None (_task_history a) (_state_change_callbacks a) (_metrics a).
End BaseAgent.

(** ** agents/agent_registry.py *)

(** [list.remove(x)]: drops the first occurrence; [None] stands for the
    [ValueError] raised when there is none. *)
Fixpoint list_remove (x : string) (l : list string) : option (list string) :=
  match l with
  | [] => None
  | y :: l' =>
      if decide (y = x) then Some l'
      else match list_remove x l' with
           | Some r => Some (y :: r)
           | None => None
           end
  end.

(** The builtin [min(iterable, key=...)] with [float] keys: the key of
    every element is computed once, in order, and an element replaces the
    best so far when its key is [<] the key of the best; an exception of
    [key] ends the call. [None] stands for the [ValueError] on an empty
    iterable. *)
Fixpoint min_loop {A} (key : A → res float) (best : A) (best_key : float)
    (l : list A) : res A :=
  match l with
  | [] => Ok best
  | x :: l' =>
      match key x with
      | Ok k =>
          if (k <? best_key)%float then min_loop key x k l'
          else min_loop key best best_key l'
      | Raise e => Raise e
      end
  end.

Definition py_min {A} (key : A → res float) (l : list A) : res (option A) :=
  match l with
  | [] => Ok None
  | x :: l' =>
      match key x with
      | Ok k =>
          match min_loop key x k l' with
          | Ok r => Ok (Some r)
          | Raise e => Raise e
          end
      | Raise e => Raise e
      end
  end.

Module AgentRegistry.
(** The registry object: [_agents] maps ids to agent objects (references),
    [_agent_types] maps a type to the list of ids registered under it. *)
Record t := mk {
  _agents : gmap string ref;
  _agent_types : gmap string (list string);
}.

Definition init : t := mk ∅ ∅.

(** [register_agent]: also registers the registry's callback on the agent
    object. *)
Definition register_agent (σ : store BaseAgent.t) (self : t) (agent : ref)
  : store BaseAgent.t * t * string :=
  let a := σ agent in
  let agent_id := BaseAgent.agent_id a in
  let agent_type := BaseAgent.agent_type a in
  let agents := <[agent_id := agent]> (_agents self) in
  let types :=
    <[agent_type := default [] (_agent_types self !! agent_type) ++ [agent_id]]>
      (_agent_types self) in
  let σ :=
    <[agent := BaseAgent.register_state_callback
                 registry_on_agent_state_change a]> σ in
  (σ, mk agents types, agent_id).

(** [unregister_agent]; the exception, if any, is the [ValueError] of
    [list.remove], raised after the agent was deleted from [_agents]. *)
Definition unregister_agent (σ : store BaseAgent.t) (self : t)
    (agent_id : string) : t * res unit :=
  match _agents self !! agent_id with
  | None => (self, Ok ())
  | Some agent =>
      let agent_type := BaseAgent.agent_type (σ agent) in
      let agents := delete agent_id (_agents self) in
      match _agent_types self !! agent_type with
      | Some ids =>
          match list_remove agent_id ids with
          | Some ids' =>
              (mk agents
                 (match ids' with
                  | [] => delete agent_type (_agent_types self)
                  | _ => <[agent_type := ids']> (_agent_types self)
                  end),
               Ok ())
          | None =>
              (mk agents (_agent_types self),
               Raise (Exn ValueError "list.remove(x): x not in list"))
          end
      | None => (mk agents (_agent_types self), Ok ())
      end
  end.

Definition get_agent (self : t) (agent_id : string) : option ref :=
  _agents self !! agent_id.

(** [[self._agents[aid] for aid in agent_ids if aid in self._agents]] *)
Definition get_agents_by_type (self : t) (agent_type : string) : list ref :=
  let agent_ids := default [] (_agent_types self !! agent_type) in
  omap (fun aid => _agents self !! aid) agent_ids.

Definition get_available_agent (σ : store BaseAgent.t) (self : t)
    (agent_type : string) : option ref :=
  List.find (fun a => BaseAgent.is_available (σ a))
    (get_agents_by_type self agent_type).

(** The local function [score_agent] of [get_best_agent], in the float
    arithmetic of the code: [tasks_failed / total_tasks] divides two [int],
    the [int] operands [100] and [tasks_completed] of the float operations
    are converted first, and [0.1] is the binary64 number nearest to 1/10.
    The two conversions of counters are what can raise. *)
Definition score_agent (a : BaseAgent.t) : res float :=
  let m := BaseAgent.get_metrics a in
  let score := 0%float in
  let total_tasks := BaseAgent.tasks_completed m + BaseAgent.tasks_failed m in
  score ←
    (if 0 <? total_tasks then
       failure_rate ← int_truediv (BaseAgent.tasks_failed m) total_tasks;
       Ok (score + failure_rate * 100)%float
     else Ok score);
  score ←
    (if 0 <? BaseAgent.tasks_completed m then
       tasks_completed ← float_of_int (BaseAgent.tasks_completed m);
       let avg_time :=
         (BaseAgent.total_processing_time m / tasks_completed)%float in
       Ok (score + avg_time * 0.1)%float
     else Ok score);
  Ok score.

(** [get_best_agent]; an exception of [score_agent] leaves [min] and the
    method. *)
Definition get_best_agent (σ : store BaseAgent.t) (self : t)
    (agent_type : string) : res (option ref) :=
  let agents := get_agents_by_type self agent_type in
  let available_agents :=
    List.filter (fun a => BaseAgent.is_available (σ a)) agents in
  match available_agents with
  | [] => Ok None
  | [a] => Ok (Some a)
  | _ => py_min (fun a => score_agent (σ a)) available_agents
  end.

(** Calls of the registry, to speak of sequences of them. *)
Inductive op :=
  | Register (agent : ref)
  | Unregister (agent_id : string).

Definition step (st : store BaseAgent.t * t) (o : op)
  : store BaseAgent.t * t * res unit :=
  let '(σ, reg) := st in
  match o with
  | Register agent =>
      let '(σ, reg, _) := register_agent σ reg agent in (σ, reg, Ok ())
  | Unregister agent_id =>
      let '(reg, r) := unregister_agent σ reg agent_id in (σ, reg, r)
  end.

(** Runs the calls in order, each from the state the previous one left
    (also when it raised); returns what each call did. *)
Fixpoint run (st : store BaseAgent.t * t) (ops : list op)
  : store BaseAgent.t * t * list (res unit) :=
  match ops with
  | [] => (st, [])
  | o :: ops =>
      let '(σ, reg, r) := step st o in
      let '(st, rs) := run (σ, reg) ops in
      (st, r :: rs)
  end.
(** [reset], [__len__] and [__contains__]. *)
Definition reset (self : t) : t := mk ∅ ∅.

Definition len (self : t) : nat := size (_agents self).

Definition contains (self : t) (agent_id : string) : bool :=
  bool_decide (is_Some (_agents self !! agent_id)).
End AgentRegistry.

(** ** orchestration/message_bus.py *)

(** The handlers given to the bus are callables of its clients; the model
    keeps their identity only. The background consumer
    ([_process_messages], [_route_message]), which calls them, is not
    part of the model. *)
Abbreviation handler := nat (only parsing).

Module Subscription.
Record t := mk {
  subscriber_id : string;
  handler_of : handler;
  message_types : option (list MessageType.t);
  sender_filter : option string;
  created_at : datetime;
  messages_received : Z;
}.

(** [__init__]: [set(message_types) if message_types else None]. *)
Definition init (subscriber_id : string) (h : handler)
    (message_types : option (list MessageType.t))
    (sender_filter : option string) (now : datetime) : t :=
  mk subscriber_id h
     (match message_types with
      | Some ((_ :: _) as l) => Some l
      | _ => None
      end)
     sender_filter now 0.

Definition matches (self : t) (message : AgentMessage.t) : bool :=
  match message_types self with
  | Some tys =>
      if negb (bool_decide (AgentMessage.message_type message ∈ tys))
      then false
      else
        if truthy_ostr (sender_filter self)
           && negb (bool_decide (Some (AgentMessage.sender message)
                                 = sender_filter self))
        then false else true
  | None =>
      if truthy_ostr (sender_filter self)
         && negb (bool_decide (Some (AgentMessage.sender message)
                               = sender_filter self))
      then false else true
  end.
End Subscription.

Module InMemoryMessageBus.
Record metrics := mk_metrics {
  messages_published : Z;
  messages_delivered : Z;
  messages_failed : Z;
}.

(** The bus object; queue and history hold references to message objects,
    oldest first. *)
Record t := mk {
  _subscriptions : gmap string Subscription.t;
  _direct_handlers : gmap string handler;
  _message_queue : list ref;
  _running : bool;
  _message_history : list ref;
  _max_history : nat;
  _metrics : metrics;
}.

Definition init : t := mk ∅ ∅ [] false [] 1000 (mk_metrics 0 0 0).

(** [publish]: the message object is queued and recorded, not touched. *)
Definition publish (σ : store AgentMessage.t) (self : t) (message : ref)
  : store AgentMessage.t * t :=
  let queue := _message_queue self ++ [message] in
  let m := _metrics self in
  let history := _message_history self ++ [message] in
  let history :=
    if decide (_max_history self < length history)%nat then drop 1 history
    else history in
  (σ,
   mk (_subscriptions self) (_direct_handlers self) queue (_running self)
      history (_max_history self)
      (mk_metrics (messages_published m + 1) (messages_delivered m)
         (messages_failed m))).

(** [send_direct]: [message.recipient = recipient_id], then [publish]. *)
Definition send_direct (σ : store AgentMessage.t) (self : t)
    (recipient_id : string) (message : ref) : store AgentMessage.t * t :=
  let m := σ message in
  let σ :=
    <[message :=
        AgentMessage.mk (AgentMessage.sender m) recipient_id
          (AgentMessage.message_type m) (AgentMessage.payload m)
          (AgentMessage.priority m) (AgentMessage.context m)
          (AgentMessage.correlation_id m) (AgentMessage.parent_id m)
          (AgentMessage.timestamp m) (AgentMessage.metadata m)]> σ in
  publish σ self message.

Definition subscribe (σ : store AgentMessage.t) (self : t)
    (subscriber_id : string) (h : handler)
    (message_types : option (list MessageType.t))
    (sender_filter : option string) (now : datetime)
  : store AgentMessage.t * t :=
  (σ,
   mk (<[subscriber_id :=
           Subscription.init subscriber_id h message_types sender_filter now]>
         (_subscriptions self))
      (_direct_handlers self) (_message_queue self) (_running self)
      (_message_history self) (_max_history self) (_metrics self)).

Definition unsubscribe (σ : store AgentMessage.t) (self : t)
    (subscriber_id : string) : store AgentMessage.t * t :=
  (σ,
   mk (delete subscriber_id (_subscriptions self))
      (delete subscriber_id (_direct_handlers self))
      (_message_queue self) (_running self) (_message_history self)
      (_max_history self) (_metrics self)).

Definition register_direct_handler (σ : store AgentMessage.t) (self : t)
    (agent_id : string) (h : handler) : store AgentMessage.t * t :=
  (σ,
   mk (_subscriptions self) (<[agent_id := h]> (_direct_handlers self))
      (_message_queue self) (_running self) (_message_history self)
      (_max_history self) (_metrics self)).

Definition unregister_direct_handler (σ : store AgentMessage.t) (self : t)
    (agent_id : string) : store AgentMessage.t * t :=
  (σ,
   mk (_subscriptions self) (delete agent_id (_direct_handlers self))
      (_message_queue self) (_running self) (_message_history self)
      (_max_history self) (_metrics self)).
(** [get_message_history]: the last [limit] entries of the history
    ([self._message_history[-limit:]]), then the filters that were given. *)
Definition get_message_history (σ : store AgentMessage.t) (self : t)
    (limit : Z) (sender recipient : option string)
    (message_type : option MessageType.t) : list ref :=
  let messages := py_slice_from (_message_history self) (- limit) in
  let messages :=
    if truthy_ostr sender
    then List.filter
           (fun m => bool_decide (Some (AgentMessage.sender (σ m)) = sender))
           messages
    else messages in
  let messages :=
    if truthy_ostr recipient
    then List.filter
           (fun m => bool_decide (Some (AgentMessage.recipient (σ m))
                                  = recipient))
           messages
    else messages in
  let messages :=
    match message_type with
    | Some ty =>
        List.filter
          (fun m => bool_decide (AgentMessage.message_type (σ m) = ty))
          messages
    | None => messages
    end in
  messages.

(** Publishing the messages of a list one after the other. *)
Definition publish_all (σ : store AgentMessage.t) (self : t)
    (messages : list ref) : store AgentMessage.t * t :=
  foldl (fun '(σ, bus) m => publish σ bus m) (σ, self) messages.
End InMemoryMessageBus.

(** ** The world of an orchestrator: objects, bus, registry, environment *)

(** What the code reads from outside: the clock, the uuid generator, and
    the outcome of the abstract [process_task] of the concrete agent (the
    work delegated to the language model), which either returns a result
    or raises. Each reading is numbered. [env_isoformat] is the standard
    library's [datetime.isoformat]. *)
Record Env := mk_env {
  utcnow : nat → datetime;
  uuid4 : nat → string;
  process_task : nat → BaseAgent.t → AgentTask.t → res pydict;
  env_isoformat : datetime → string;
}.

(** The objects (tasks, agents, messages), the message bus the agents were
    given, the registry, and the number of readings of the environment. *)
Record World := mk_world {
  w_tasks : store AgentTask.t;
  w_next_task : ref;
  w_agents : store BaseAgent.t;
  w_msgs : store AgentMessage.t;
  w_next_msg : ref;
  w_bus : InMemoryMessageBus.t;
  w_registry : AgentRegistry.t;
  w_ticks : nat;
}.

Definition set_tasks (f : store AgentTask.t → store AgentTask.t) (w : World)
  : World :=
  mk_world (f (w_tasks w)) (w_next_task w) (w_agents w) (w_msgs w)
    (w_next_msg w) (w_bus w) (w_registry w) (w_ticks w).

Definition set_agents (f : store BaseAgent.t → store BaseAgent.t) (w : World)
  : World :=
  mk_world (w_tasks w) (w_next_task w) (f (w_agents w)) (w_msgs w)
    (w_next_msg w) (w_bus w) (w_registry w) (w_ticks w).

Definition upd_task (r : ref) (f : AgentTask.t → AgentTask.t) (w : World)
  : World :=
  set_tasks (fun σ => <[r := f (σ r)]> σ) w.

Definition upd_agent (r : ref) (f : BaseAgent.t → BaseAgent.t) (w : World)
  : World :=
  set_agents (fun σ => <[r := f (σ r)]> σ) w.

Definition tick (w : World) : World :=
  mk_world (w_tasks w) (w_next_task w) (w_agents w) (w_msgs w)
    (w_next_msg w) (w_bus w) (w_registry w) (S (w_ticks w)).

(** [datetime.utcnow()] and [str(uuid.uuid4())]. *)
Definition read_clock (env : Env) (w : World) : datetime * World :=
  (utcnow env (w_ticks w), tick w).

Definition read_uuid (env : Env) (w : World) : string * World :=
  (uuid4 env (w_ticks w), tick w).

(** A new task object. *)
Definition alloc_task (t : AgentTask.t) (w : World) : ref * World :=
  let r := w_next_task w in
  (r,
   mk_world (<[r := t]> (w_tasks w)) (S r) (w_agents w) (w_msgs w)
     (w_next_msg w) (w_bus w) (w_registry w) (w_ticks w)).

(** A new message object. *)
Definition alloc_msg (m : AgentMessage.t) (w : World) : ref * World :=
  let r := w_next_msg w in
  (r,
   mk_world (w_tasks w) (w_next_task w) (w_agents w) (<[r := m]> (w_msgs w))
     (S r) (w_bus w) (w_registry w) (w_ticks w)).

(** ** agents/base_agent.py: task execution *)

Module Agent.
(** [send_message]: with a bus, [publish] and count the message. *)
Definition send_message (self : ref) (message : ref) (w : World) : World :=
  if BaseAgent.message_bus (w_agents w self) then
    let '(msgs, bus) :=
      InMemoryMessageBus.publish (w_msgs w) (w_bus w) message in
    let w := mk_world (w_tasks w) (w_next_task w) (w_agents w) msgs
               (w_next_msg w) bus (w_registry w) (w_ticks w) in
    upd_agent self
      (fun a =>
         let m := BaseAgent._metrics a in
         BaseAgent.set_metrics
           (BaseAgent.mk_metrics (BaseAgent.tasks_completed m)
              (BaseAgent.tasks_failed m) (BaseAgent.messages_sent m + 1)
              (BaseAgent.messages_received m)
              (BaseAgent.total_processing_time m)) a)
      w
  else w.

(** The broadcast built by [_notify_task_completion] and
    [_notify_task_failure]: [create_broadcast] draws the correlation id and
    the timestamp of the new message. *)
Definition notify (env : Env) (self : ref) (event : string) (data : pydict)
    (w : World) : World :=
  if BaseAgent.message_bus (w_agents w self) then
    let '(uuid, w) := read_uuid env w in
    let '(now, w) := read_clock env w in
    let '(message, w) :=
      alloc_msg
        (AgentMessage.create_broadcast
           (BaseAgent.agent_id (w_agents w self)) event data None uuid now)
        w in
    send_message self message w
  else w.

Definition _notify_task_completion (env : Env) (self task : ref)
    (result : pydict) (w : World) : World :=
  let t := w_tasks w task in
  notify env self "task_completed"
    (list_to_map [("task_id", PStr (AgentTask.task_id t));
                  ("task_type", AgentTask.task_type t);
                  ("result", PDict result)])
    w.

Definition _notify_task_failure (env : Env) (self task : ref)
    (error : string) (w : World) : World :=
  let t := w_tasks w task in
  notify env self "task_failed"
    (list_to_map [("task_id", PStr (AgentTask.task_id t));
                  ("task_type", AgentTask.task_type t);
                  ("error", PStr error)])
    w.

(** [_check_dependencies]: "For now, return True". *)
Definition _check_dependencies (dependencies : list string) : bool := true.

Definition not_available_message (a : BaseAgent.t) : string :=
  "Agent " +:+ BaseAgent.name a +:+ " is not available (state: "
  +:+ AgentState.value (BaseAgent.state a) +:+ ")".

(** [execute_task]. The [finally] clause resets [_current_task] on every
    way out of the [try]. *)
Definition execute_task (env : Env) (self task : ref) (w : World)
  : World * res pydict :=
  if negb (BaseAgent.is_available (w_agents w self)) then
    (w, Raise (Exn RuntimeError (not_available_message (w_agents w self))))
  else
    let w := upd_agent self (BaseAgent.set_current_task (Some task)) w in
    let '(now, w) := read_clock env w in
    let w := upd_task task (AgentTask.mark_started now) w in
    let w := upd_agent self (BaseAgent.set_state AgentState.WORKING) w in
    let '(start_time, w) := read_clock env w in
    let finally := upd_agent self (BaseAgent.set_current_task None) in
    if match AgentTask.dependencies (w_tasks w task) with
       | [] => false
       | deps => negb (_check_dependencies deps)
       end
    then
      let w := upd_task task (AgentTask.mark_blocked "Dependencies not satisfied") w in
      let w := upd_agent self (BaseAgent.set_state AgentState.BLOCKED) w in
      (finally w,
       Ok (list_to_map [("status", PStr "blocked");
                        ("reason", PStr "Dependencies not satisfied")]))
    else
      let outcome :=
        process_task env (w_ticks w) (w_agents w self) (w_tasks w task) in
      let w := tick w in
      match outcome with
      | Ok result =>
          let '(now, w) := read_clock env w in
          let w := upd_task task (AgentTask.mark_completed result now) w in
          let w :=
            upd_agent self
              (fun a =>
                 let m := BaseAgent._metrics a in
                 BaseAgent.set_metrics
                   (BaseAgent.mk_metrics (BaseAgent.tasks_completed m + 1)
                      (BaseAgent.tasks_failed m) (BaseAgent.messages_sent m)
                      (BaseAgent.messages_received m)
                      (BaseAgent.total_processing_time m))
                   (BaseAgent.set_task_history
                      (BaseAgent._task_history a ++ [task]) a))
              w in
          let '(end_time, w) := read_clock env w in
          let processing_time := total_seconds (end_time - start_time) in
          let w :=
            upd_agent self
              (fun a =>
                 let m := BaseAgent._metrics a in
                 BaseAgent.set_metrics
                   (BaseAgent.mk_metrics (BaseAgent.tasks_completed m)
                      (BaseAgent.tasks_failed m) (BaseAgent.messages_sent m)
                      (BaseAgent.messages_received m)
                      (BaseAgent.total_processing_time m + processing_time)%float)
                   a)
              w in
          let w := upd_agent self (BaseAgent.set_state AgentState.COMPLETED) w in
          let w := _notify_task_completion env self task result w in
          (finally w, Ok result)
      | Raise e =>
          let '(now, w) := read_clock env w in
          let w := upd_task task (AgentTask.mark_failed (exn_msg e) now) w in
          let w :=
            upd_agent self
              (fun a =>
                 let m := BaseAgent._metrics a in
                 BaseAgent.set_metrics
                   (BaseAgent.mk_metrics (BaseAgent.tasks_completed m)
                      (BaseAgent.tasks_failed m + 1)
                      (BaseAgent.messages_sent m)
                      (BaseAgent.messages_received m)
                      (BaseAgent.total_processing_time m))
                   a)
              w in
          let w := upd_agent self (BaseAgent.set_state AgentState.ERROR) w in
          let w := _notify_task_failure env self task (exn_msg e) w in
          (finally w, Raise e)
      end.
(** [_send_error_response]: the error reply is built (its timestamp is the
    clock's) and handed to [send_message]. *)
Definition _send_error_response (env : Env) (self original_message : ref)
    (error : string) (w : World) : World :=
  let '(now, w) := read_clock env w in
  let '(error_response, w) :=
    alloc_msg
      (AgentMessage.create_error_response (w_msgs w original_message)
         (BaseAgent.agent_id (w_agents w self)) error None now)
      w in
  send_message self error_response w.

(** [_handle_request]. The task type is the payload's ["action"], [None]
    when there is none, and the task input its ["data"]; both go into the
    task as they are. Every exception of [execute_task] is answered by an
    error response, so the method itself returns. *)
Definition _handle_request (env : Env) (self message : ref) (w : World)
  : World * res unit :=
  let payload := AgentMessage.payload (w_msgs w message) in
  let action := dict_get payload "action" PNone in
  let data := dict_get payload "data" (PDict ∅) in
  let '(uuid, w) := read_uuid env w in
  let '(now, w) := read_clock env w in
  let '(task, w) :=
    alloc_task
      (AgentTask.create action data
         (Some (BaseAgent.agent_id (w_agents w self))) None None
         MessagePriority.NORMAL uuid now)
      w in
  let '(w, r) := execute_task env self task w in
  match r with
  | Ok result =>
      let '(now, w) := read_clock env w in
      let '(response, w) :=
        alloc_msg
          (AgentMessage.create_response (w_msgs w message)
             (BaseAgent.agent_id (w_agents w self))
             (list_to_map [("status", PStr "success");
                           ("result", PDict result)])
             MessageType.RESPONSE now)
          w in
      (send_message self response w, Ok ())
  | Raise e =>
      let '(now, w) := read_clock env w in
      let '(error_response, w) :=
        alloc_msg
          (AgentMessage.create_error_response (w_msgs w message)
             (BaseAgent.agent_id (w_agents w self)) (exn_msg e) None now)
          w in
      (send_message self error_response w, Ok ())
  end.

(** [receive_message], with the handlers that [_register_default_handlers]
    installs: [_handle_request] for requests; the handlers of [BaseAgent]
    for responses, notifications, errors, status updates and broadcasts
    write a log line; there is none for [DELEGATE] and [HANDOFF]. *)
Definition receive_message (env : Env) (self message : ref) (w : World)
  : World :=
  let w :=
    upd_agent self
      (fun a =>
         let m := BaseAgent._metrics a in
         BaseAgent.set_metrics
           (BaseAgent.mk_metrics (BaseAgent.tasks_completed m)
              (BaseAgent.tasks_failed m) (BaseAgent.messages_sent m)
              (BaseAgent.messages_received m + 1)
              (BaseAgent.total_processing_time m)) a)
      w in
  match AgentMessage.message_type (w_msgs w message) with
  | MessageType.REQUEST =>
      let '(w, r) := _handle_request env self message w in
      match r with
      | Ok _ => w
      | Raise e => _send_error_response env self message (exn_msg e) w
      end
  | _ => w
  end.
End Agent.

(** ** orchestration/workflow_engine.py *)

Module WorkflowStatus.
Inductive t :=
  | PENDING | RUNNING | PAUSED | WAITING_APPROVAL | COMPLETED | FAILED
  | CANCELLED.

Definition value (s : t) : string :=
  match s with
  | PENDING => "pending"
  | RUNNING => "running"
  | PAUSED => "paused"
  | WAITING_APPROVAL => "waiting_approval"
  | COMPLETED => "completed"
  | FAILED => "failed"
  | CANCELLED => "cancelled"
  end.

#[global] Instance eq_dec : EqDecision t.
Proof. solve_decision. Defined.
End WorkflowStatus.

Module StepType.
Inductive t := AGENT_TASK | PARALLEL | CONDITIONAL | HUMAN_REVIEW | LOOP | WAIT.

Definition value (s : t) : string :=
  match s with
  | AGENT_TASK => "agent_task"
  | PARALLEL => "parallel"
  | CONDITIONAL => "conditional"
  | HUMAN_REVIEW => "human_review"
  | LOOP => "loop"
  | WAIT => "wait"
  end.
End StepType.

Module WorkflowStep.
(** The mappings are dictionaries, kept as lists of items in insertion
    order, the order in which the engine walks them. *)
Inductive t := mk {
  step_id : string;
  name : string;
  step_type : StepType.t;
  agent_type : option string;
  task_type : option string;
  input_mapping : list (string * string);
  output_mapping : list (string * string);
  condition : option (pydict → bool);
  sub_steps : list t;
  retry_count : Z;
  timeout_seconds : Z;
  on_failure : string;
  metadata : pydict;
}.

Definition create_agent_step (name agent_type task_type : string)
    (input_mapping output_mapping : option (list (string * string)))
    (uuid4 : string) : t :=
  mk uuid4 name StepType.AGENT_TASK (Some agent_type) (Some task_type)
     (default [] input_mapping) (default [] output_mapping) None [] 3 300
     "fail" ∅.

Definition create_human_review_step (name review_type : string)
    (uuid4 : string) : t :=
  mk uuid4 name StepType.HUMAN_REVIEW None None [] [] None [] 3 300 "fail"
     {["review_type" := PStr review_type]}.

Definition create_parallel_step (name : string) (sub_steps : list t)
    (uuid4 : string) : t :=
  mk uuid4 name StepType.PARALLEL None None [] [] None sub_steps 3 300 "fail"
     ∅.
End WorkflowStep.

Module WorkflowExecution.
Record t := mk {
  execution_id : string;
  workflow_id : string;
  status : WorkflowStatus.t;
  context : pydict;
  current_step_index : Z;
  step_results : pydict;
  started_at : option datetime;
  completed_at : option datetime;
  error : option string;
  metadata : pydict;
}.

Definition set_status (s : WorkflowStatus.t) (x : t) : t :=
  mk (execution_id x) (workflow_id x) s (context x) (current_step_index x)
     (step_results x) (started_at x) (completed_at x) (error x) (metadata x).
Definition set_context (c : pydict) (x : t) : t :=
  mk (execution_id x) (workflow_id x) (status x) c (current_step_index x)
     (step_results x) (started_at x) (completed_at x) (error x) (metadata x).
Definition set_current_step_index (i : Z) (x : t) : t :=
  mk (execution_id x) (workflow_id x) (status x) (context x) i
     (step_results x) (started_at x) (completed_at x) (error x) (metadata x).
Definition set_step_results (r : pydict) (x : t) : t :=
  mk (execution_id x) (workflow_id x) (status x) (context x)
     (current_step_index x) r (started_at x) (completed_at x) (error x)
     (metadata x).
Definition set_completed_at (d : option datetime) (x : t) : t :=
  mk (execution_id x) (workflow_id x) (status x) (context x)
     (current_step_index x) (step_results x) (started_at x) d (error x)
     (metadata x).
Definition set_error (e : option string) (x : t) : t :=
  mk (execution_id x) (workflow_id x) (status x) (context x)
     (current_step_index x) (step_results x) (started_at x) (completed_at x)
     e (metadata x).
Definition set_metadata (m : pydict) (x : t) : t :=
  mk (execution_id x) (workflow_id x) (status x) (context x)
     (current_step_index x) (step_results x) (started_at x) (completed_at x)
     (error x) m.
End WorkflowExecution.

Module Workflow.
Record t := mk {
  workflow_id : string;
  name : string;
  description : string;
  steps : list WorkflowStep.t;
  initial_context : pydict;
  metadata : pydict;
  version : string;
}.

Definition create (name description : string) (steps : list WorkflowStep.t)
    (initial_context : option pydict) (uuid4 : string) : t :=
  mk uuid4 name description steps (default ∅ initial_context) ∅ "1.0".
End Workflow.

Module WorkflowEngine.
(** The engine object. [_executions] and [_pending_approvals] hold
    references to the execution objects of [execs]; an execution pending
    approval is the same object in both. [_emitted] records the events
    passed to [_emit_event], latest first: the handlers are observers whose
    exceptions are swallowed. *)
Record t := mk {
  _workflows : gmap string Workflow.t;
  _executions : gmap string ref;
  _pending_approvals : gmap string ref;
  _emitted : list string;
  execs : store WorkflowExecution.t;
  next_exec : ref;
}.

Abbreviation state := (World * t)%type.

Definition init : t :=
  mk ∅ ∅ ∅ []
     (fun _ => WorkflowExecution.mk "" "" WorkflowStatus.PENDING ∅ 0 ∅ None
                 None None ∅)
     0.

Definition register_workflow (self : t) (workflow : Workflow.t) : t :=
  mk (<[Workflow.workflow_id workflow := workflow]> (_workflows self))
     (_executions self) (_pending_approvals self) (_emitted self)
     (execs self) (next_exec self).

Definition _emit_event (event_name : string) (st : state) : state :=
  let '(w, self) := st in
  (w, mk (_workflows self) (_executions self) (_pending_approvals self)
        (event_name :: _emitted self) (execs self) (next_exec self)).

(** Assignment to attributes of the execution object [r]. *)
Definition upd_exec (r : ref) (f : WorkflowExecution.t → WorkflowExecution.t)
    (st : state) : state :=
  let '(w, self) := st in
  (w, mk (_workflows self) (_executions self) (_pending_approvals self)
        (_emitted self) (<[r := f (execs self r)]> (execs self))
        (next_exec self)).

Definition get_exec (r : ref) (st : state) : WorkflowExecution.t :=
  execs st.2 r.

Definition set_pending (p : gmap string ref) (st : state) : state :=
  let '(w, self) := st in
  (w, mk (_workflows self) (_executions self) p (_emitted self) (execs self)
        (next_exec self)).

(** The task input of an agent step: the projection of the context along
    [input_mapping], or a copy of the whole context when there is no
    mapping. *)
Definition task_input_of (input_mapping : list (string * string))
    (context : pydict) : pydict :=
  match input_mapping with
  | [] => context
  | _ =>
      foldl (fun task_input '(input_key, context_key) =>
               match context !! context_key with
               | Some v => <[input_key := v]> task_input
               | None => task_input
               end)
        ∅ input_mapping
  end.

Definition _execute_agent_step (env : Env) (execution : ref)
    (step : WorkflowStep.t) (st : state) : state * res pyval :=
  let '(w, self) := st in
  match
    match WorkflowStep.agent_type step with
    | Some ty => AgentRegistry.get_best_agent (w_agents w) (w_registry w) ty
    | None => Ok None
    end
  with
  | Raise e => (st, Raise e)
  | Ok None =>
      (st,
       Raise (Exn RuntimeError
                ("No available agent of type: "
                 +:+ default "None" (WorkflowStep.agent_type step))))
  | Ok (Some agent) =>
      let task_input :=
        task_input_of (WorkflowStep.input_mapping step)
          (WorkflowExecution.context (execs self execution)) in
      let '(uuid, w) := read_uuid env w in
      let '(now, w) := read_clock env w in
      let '(task, w) :=
        alloc_task
          (AgentTask.create (of_opt_str (WorkflowStep.task_type step))
             (PDict task_input)
             (Some (BaseAgent.agent_id (w_agents w agent))) None
             None MessagePriority.NORMAL uuid now)
          w in
      let '(w, r) := Agent.execute_task env agent task w in
      ((w, self),
       match r with
       | Ok result => Ok (PDict result)
       | Raise e => Raise e
       end)
  end.

Definition _execute_human_review_step (env : Env) (execution : ref)
    (step : WorkflowStep.t) (st : state) : state * res pyval :=
  let st := upd_exec execution
              (WorkflowExecution.set_status WorkflowStatus.WAITING_APPROVAL)
              st in
  let '(w, self) := st in
  let '(now, w) := read_clock env w in
  let st :=
    upd_exec execution
      (fun x =>
         WorkflowExecution.set_metadata
           (<["pending_review" :=
                PDict
                  (list_to_map
                     [("step_id", PStr (WorkflowStep.step_id step));
                      ("review_type",
                       default PNone
                         (WorkflowStep.metadata step !! "review_type"));
                      ("requested_at", PStr (env_isoformat env now))])]>
              (WorkflowExecution.metadata x))
           x)
      (w, self) in
  (st, Ok (PDict {["status" := PStr "waiting_approval"]})).

(** The loop over [output_mapping]:
    [if result and output_key in result: context[context_key] = result[output_key]]. *)
Definition apply_output_mapping (output_mapping : list (string * string))
    (result : pyval) (context : pydict) : pydict :=
  foldl (fun context '(output_key, context_key) =>
           match result with
           | PDict d =>
               if truthy result then
                 match d !! output_key with
                 | Some v => <[context_key := v]> context
                 | None => context
                 end
               else context
           | _ => context
           end)
    context output_mapping.

(** [_execute_step], with [_execute_parallel_step] and
    [_execute_conditional_step], which call it on the sub-steps. The
    sub-steps of a parallel step are run one after the other in list
    order: none of the coroutines involved suspends before it is done. *)
Fixpoint _execute_step (env : Env) (execution : ref) (step : WorkflowStep.t)
    (st : state) {struct step} : state * res pyval :=
  let st := _emit_event "step_started" st in
  let '(st, r) :=
    match step with
    | WorkflowStep.mk _ _ ty _ _ _ _ cond subs _ _ _ _ =>
        match ty with
        | StepType.AGENT_TASK => _execute_agent_step env execution step st
        | StepType.HUMAN_REVIEW =>
            _execute_human_review_step env execution step st
        | StepType.PARALLEL =>
            let '(st, results) :=
              (fix parallel (l : list WorkflowStep.t) (st : state)
                   (results : pydict) : state * pydict :=
                 match l with
                 | [] => (st, results)
                 | sub_step :: l' =>
                     let '(st, r) := _execute_step env execution sub_step st in
                     parallel l' st
                       (<[WorkflowStep.step_id sub_step :=
                            match r with
                            | Ok result => result
                            | Raise e =>
                                PDict {["error" := PStr (exn_msg e)]}
                            end]> results)
                 end) subs st ∅ in
            (st, Ok (PDict results))
        | StepType.CONDITIONAL =>
            if match cond with
               | Some c =>
                   c (WorkflowExecution.context (get_exec execution st))
               | None => false
               end
            then
              (fix conditional (l : list WorkflowStep.t) (st : state)
                   (results : pydict) : state * res pyval :=
                 match l with
                 | [] => (st, Ok (PDict results))
                 | sub_step :: l' =>
                     let '(st, r) := _execute_step env execution sub_step st in
                     match r with
                     | Ok result =>
                         conditional l' st
                           (<[WorkflowStep.step_id sub_step := result]> results)
                     | Raise e => (st, Raise e)
                     end
                 end) subs st ∅
            else
              (st,
               Ok (PDict (list_to_map
                            [("skipped", PBool true);
                             ("reason", PStr "condition_not_met")])))
        | _ =>
            (st,
             Raise (Exn ValueError
                      ("Unknown step type: StepType."
                       +:+ match ty with
                           | StepType.LOOP => "LOOP"
                           | _ => "WAIT"
                           end)))
        end
    end in
  match r with
  | Ok result =>
      let st :=
        upd_exec execution
          (fun x =>
             WorkflowExecution.set_context
               (apply_output_mapping (WorkflowStep.output_mapping step) result
                  (WorkflowExecution.context x))
               x)
          st in
      let st := _emit_event "step_completed" st in
      (st, Ok result)
  | Raise e =>
      let st := _emit_event "step_failed" st in
      if String.eqb (WorkflowStep.on_failure step) "skip" then
        (st,
         Ok (PDict (list_to_map [("skipped", PBool true);
                                 ("error", PStr (exn_msg e))])))
      else if String.eqb (WorkflowStep.on_failure step) "retry" then
        (st, Ok PNone)
      else
        let st := upd_exec execution
                    (fun x =>
                       WorkflowExecution.set_error (Some (exn_msg e))
                         (WorkflowExecution.set_status WorkflowStatus.FAILED x))
                    st in
        (st, Raise e)
  end.

(** How the [while] loop of [_run_workflow] ends: by its [return] at a
    pause, by leaving the loop (condition false, or [break]), or by an
    exception. *)
Inductive loop_exit := Returned | Left | Raised (e : exn).

(** The [while] loop of [_run_workflow]; every round that goes on adds one
    to [current_step_index], so the number of steps left bounds the
    rounds. *)
Fixpoint run_loop (env : Env) (execution : ref) (workflow : Workflow.t)
    (fuel : nat) (st : state) : state * loop_exit :=
  match fuel with
  | O => (st, Left)
  | S fuel' =>
      let x := get_exec execution st in
      if WorkflowExecution.current_step_index x
         <? Z.of_nat (length (Workflow.steps workflow)) then
        match py_index (Workflow.steps workflow)
                (WorkflowExecution.current_step_index x) with
        | Raise e => (st, Raised e)
        | Ok step =>
            let '(st, r) := _execute_step env execution step st in
            match r with
            | Raise e => (st, Raised e)
            | Ok result =>
                let st :=
                  upd_exec execution
                    (fun x =>
                       WorkflowExecution.set_step_results
                         (<[WorkflowStep.step_id step := result]>
                            (WorkflowExecution.step_results x))
                         x)
                    st in
                let x := get_exec execution st in
                if decide (WorkflowExecution.status x
                           = WorkflowStatus.WAITING_APPROVAL) then
                  let st :=
                    set_pending
                      (<[WorkflowExecution.execution_id x := execution]>
                         (_pending_approvals st.2))
                      st in
                  (_emit_event "approval_required" st, Returned)
                else if decide (WorkflowExecution.status x
                                = WorkflowStatus.FAILED) then
                  (st, Left)
                else
                  let st :=
                    upd_exec execution
                      (fun x =>
                         WorkflowExecution.set_current_step_index
                           (WorkflowExecution.current_step_index x + 1) x)
                      st in
                  run_loop env execution workflow fuel' st
            end
        end
      else (st, Left)
  end.

Definition _run_workflow (env : Env) (execution : ref)
    (workflow : Workflow.t) (st : state) : state :=
  let st := upd_exec execution
              (WorkflowExecution.set_status WorkflowStatus.RUNNING) st in
  let st := _emit_event "workflow_started" st in
  let fuel :=
    S (Z.to_nat (Z.of_nat (length (Workflow.steps workflow))
                 - WorkflowExecution.current_step_index
                     (get_exec execution st))) in
  let '(st, exit) := run_loop env execution workflow fuel st in
  match exit with
  | Returned => st
  | Left =>
      if decide (WorkflowExecution.status (get_exec execution st)
                 = WorkflowStatus.RUNNING) then
        let st := upd_exec execution
                    (WorkflowExecution.set_status WorkflowStatus.COMPLETED)
                    st in
        let '(w, self) := st in
        let '(now, w) := read_clock env w in
        let st := upd_exec execution
                    (WorkflowExecution.set_completed_at (Some now))
                    (w, self) in
        _emit_event "workflow_completed" st
      else st
  | Raised e =>
      let st := upd_exec execution
                  (fun x =>
                     WorkflowExecution.set_error (Some (exn_msg e))
                       (WorkflowExecution.set_status WorkflowStatus.FAILED x))
                  st in
      let '(w, self) := st in
      let '(now, w) := read_clock env w in
      let st := upd_exec execution
                  (WorkflowExecution.set_completed_at (Some now)) (w, self) in
      _emit_event "workflow_failed" st
  end.

(** [execute_workflow]: returns the new execution object. *)
Definition execute_workflow (env : Env) (workflow_id : string)
    (context : option pydict) (st : state) : state * res ref :=
  let '(w, self) := st in
  match _workflows self !! workflow_id with
  | None => (st, Raise (Exn ValueError ("Workflow not found: " +:+ workflow_id)))
  | Some workflow =>
      let '(uuid, w) := read_uuid env w in
      let '(now, w) := read_clock env w in
      let execution := next_exec self in
      let x :=
        WorkflowExecution.mk uuid workflow_id WorkflowStatus.PENDING
          (default ∅ context ∪ Workflow.initial_context workflow) 0 ∅
          (Some now) None None ∅ in
      let self :=
        mk (_workflows self) (<[uuid := execution]> (_executions self))
           (_pending_approvals self) (_emitted self)
           (<[execution := x]> (execs self)) (S execution) in
      (_run_workflow env execution workflow (w, self), Ok execution)
  end.

(** [execution.context.update(context_updates)] when the updates are not
    empty. *)
Definition apply_context_updates (context_updates : option pydict)
    (x : WorkflowExecution.t) : WorkflowExecution.t :=
  match context_updates with
  | Some u =>
      if bool_decide (u = ∅) then x
      else WorkflowExecution.set_context (u ∪ WorkflowExecution.context x) x
  | None => x
  end.

(** What [approve_step] does to the execution and the engine between its
    two checks and the final call of [_run_workflow]. *)
Definition approve_step_update (env : Env) (execution_id : string)
    (execution : ref) (feedback : option string)
    (context_updates : option pydict) (st : state) : state :=
  let st := upd_exec execution (apply_context_updates context_updates) st in
  let '(w, self) := st in
  let '(now, w) := read_clock env w in
  let st :=
    upd_exec execution
      (fun x =>
         WorkflowExecution.set_step_results
           (<["approval_" +:+ pretty (WorkflowExecution.current_step_index x) :=
                PDict (list_to_map
                         [("approved", PBool true);
                          ("feedback", of_opt_str feedback);
                          ("approved_at", PStr (env_isoformat env now))])]>
              (WorkflowExecution.step_results x))
           x)
      (w, self) in
  let st := set_pending (delete execution_id (_pending_approvals st.2)) st in
  let st :=
    upd_exec execution
      (fun x =>
         WorkflowExecution.set_current_step_index
           (WorkflowExecution.current_step_index x + 1) x)
      st in
  upd_exec execution (WorkflowExecution.set_status WorkflowStatus.RUNNING) st.

Definition approve_step (env : Env) (execution_id : string)
    (feedback : option string) (context_updates : option pydict) (st : state)
  : state * res unit :=
  match _pending_approvals st.2 !! execution_id with
  | None =>
      (st,
       Raise (Exn ValueError
                ("No pending approval for execution: " +:+ execution_id)))
  | Some execution =>
      let wid := WorkflowExecution.workflow_id (get_exec execution st) in
      match _workflows st.2 !! wid with
      | None => (st, Raise (Exn ValueError ("Workflow not found: " +:+ wid)))
      | Some workflow =>
          let st :=
            approve_step_update env execution_id execution feedback
              context_updates st in
          (_run_workflow env execution workflow st, Ok ())
      end
  end.

(** What [reject_step] does before the final call of [_run_workflow]; the
    lookup of the current step raises [IndexError] when the index is out of
    range. *)
Definition reject_step_update (env : Env) (execution_id : string)
    (execution : ref) (workflow : Workflow.t) (feedback : string)
    (context_updates : option pydict) (st : state) : state * res unit :=
  let st := upd_exec execution (apply_context_updates context_updates) st in
  match py_index (Workflow.steps workflow)
          (WorkflowExecution.current_step_index (get_exec execution st)) with
  | Raise e => (st, Raise e)
  | Ok current_step =>
      let st :=
        upd_exec execution
          (fun x =>
             WorkflowExecution.set_context
               (<[WorkflowStep.name current_step +:+ "_review_status" :=
                    PStr "rejected"]>
                  (<[WorkflowStep.name current_step +:+ "_feedback" :=
                       PStr feedback]>
                     (WorkflowExecution.context x)))
               x)
          st in
      let '(w, self) := st in
      let '(now, w) := read_clock env w in
      let st :=
        upd_exec execution
          (fun x =>
             WorkflowExecution.set_step_results
               (<["approval_"
                  +:+ pretty (WorkflowExecution.current_step_index x) :=
                    PDict (list_to_map
                             [("approved", PBool false);
                              ("feedback", PStr feedback);
                              ("rejected_at", PStr (env_isoformat env now))])]>
                  (WorkflowExecution.step_results x))
               x)
          (w, self) in
      let st := set_pending (delete execution_id (_pending_approvals st.2)) st in
      let st :=
        upd_exec execution
          (fun x =>
             if 0 <? WorkflowExecution.current_step_index x then
               WorkflowExecution.set_current_step_index
                 (WorkflowExecution.current_step_index x - 1) x
             else x)
          st in
      (upd_exec execution
         (WorkflowExecution.set_status WorkflowStatus.RUNNING) st,
       Ok ())
  end.

Definition reject_step (env : Env) (execution_id : string)
    (feedback : string) (context_updates : option pydict) (st : state)
  : state * res unit :=
  match _pending_approvals st.2 !! execution_id with
  | None =>
      (st,
       Raise (Exn ValueError
                ("No pending approval for execution: " +:+ execution_id)))
  | Some execution =>
      let wid := WorkflowExecution.workflow_id (get_exec execution st) in
      match _workflows st.2 !! wid with
      | None => (st, Raise (Exn ValueError ("Workflow not found: " +:+ wid)))
      | Some workflow =>
          let '(st, r) :=
            reject_step_update env execution_id execution workflow feedback
              context_updates st in
          match r with
          | Raise e => (st, Raise e)
          | Ok _ => (_run_workflow env execution workflow st, Ok ())
          end
      end
  end.

Definition get_execution (self : t) (execution_id : string) : option ref :=
  _executions self !! execution_id.
End WorkflowEngine.

(** ** Specification predicates *)

(** The heap invariant of [heapq] on a list: no element is smaller than its
    parent, the parent of position [i > 0] being [(i - 1) / 2]. *)
Definition heap_ok {A} (lt : A → A → bool) (heap : list A) : Prop :=
  ∀ (i : nat) c p, (0 < i)%nat →
    heap !! i = Some c → heap !! ((i - 1) / 2)%nat = Some p → lt c p = false.

(** The state of the [_siftdown] loop (from position 0): the list has a
    hole at [pos] waiting for [x]; every other position respects its
    parent, and the children of the hole are below neither [x] nor the
    parent of the hole. *)
Definition sd_inv {A} (lt : A → A → bool) (h : list A) (x : A) (pos : nat)
  : Prop :=
  (pos < length h)%nat ∧
  (∀ (i : nat) c p, (0 < i)%nat → i ≠ pos →
     h !! i = Some c → h !! ((i - 1) / 2)%nat = Some p → lt c p = false) ∧
  (∀ (c : nat) ch, (0 < c)%nat → ((c - 1) / 2)%nat = pos →
     h !! c = Some ch → lt ch x = false) ∧
  (∀ (c : nat) ch g, (0 < pos)%nat → (0 < c)%nat → ((c - 1) / 2)%nat = pos →
     h !! c = Some ch → h !! ((pos - 1) / 2)%nat = Some g → lt ch g = false).

(** The state of the [while childpos < endpos] loop of [_siftup]: every
    position whose parent is not the hole [pos] respects its parent, and the
    children of the hole are not below the parent of the hole. *)
Definition su_inv {A} (lt : A → A → bool) (h : list A) (pos : nat) : Prop :=
  (pos < length h)%nat ∧
  (∀ (i : nat) c p, (0 < i)%nat → ((i - 1) / 2)%nat ≠ pos →
     h !! i = Some c → h !! ((i - 1) / 2)%nat = Some p → lt c p = false) ∧
  (∀ (c : nat) ch g, (0 < pos)%nat → (0 < c)%nat → ((c - 1) / 2)%nat = pos →
     h !! c = Some ch → h !! ((pos - 1) / 2)%nat = Some g → lt ch g = false).

(** The order of the queue on task objects: by priority number, then by
    creation time. *)
Definition task_le (σ : store AgentTask.t) (a b : ref) : Prop :=
  let pa := MessagePriority.value (AgentTask.priority (σ a)) in
  let pb := MessagePriority.value (AgentTask.priority (σ b)) in
  pa < pb ∨ (pa = pb ∧ AgentTask.created_at (σ a) ≤ AgentTask.created_at (σ b)).

(** The tasks returned by a sequence of calls, in order. *)
Definition returned (rs : list (option ref)) : list ref := omap id rs.

(** Heap items carry the priority and creation time of their task. *)
Definition item_of_task (σ : store AgentTask.t) (it : PriorityQueueItem.t)
  : Prop :=
  PriorityQueueItem.priority it
    = MessagePriority.value (AgentTask.priority (σ (PriorityQueueItem.task it))) ∧
  PriorityQueueItem.timestamp it
    = AgentTask.created_at (σ (PriorityQueueItem.task it)).

(** All heaps of the queue are heaps of items of their tasks. *)
Definition queue_heaps_ok (σ : store AgentTask.t) (q : InMemoryTaskQueue.t)
  : Prop :=
  (heap_ok PriorityQueueItem.lt (InMemoryTaskQueue._queue q) ∧
   Forall (item_of_task σ) (InMemoryTaskQueue._queue q)) ∧
  ∀ ty h, InMemoryTaskQueue._type_queues q !! ty = Some h →
    heap_ok PriorityQueueItem.lt h ∧ Forall (item_of_task σ) h.

(** Every id of the registry's id map is the id of the agent it maps to. *)
Definition registry_ids_ok (σ : store BaseAgent.t) (reg : AgentRegistry.t)
  : Prop :=
  ∀ id r, AgentRegistry._agents reg !! id = Some r →
          BaseAgent.agent_id (σ r) = id.

(** Every registered id is listed in the type index under its agent's type. *)
Definition registry_index_ok (σ : store BaseAgent.t) (reg : AgentRegistry.t)
  : Prop :=
  ∀ id r, AgentRegistry._agents reg !! id = Some r →
    ∃ ids, AgentRegistry._agent_types reg !! BaseAgent.agent_type (σ r)
             = Some ids ∧ id ∈ ids.

(** The selection score as the specification words it,
    [100 × failure_rate + 0.1 × average_processing_time], in binary64
    arithmetic: the failure rate is the share of failed tasks among the
    finished ones and the average processing time the mean over the
    completed ones, each zero when there are none. A counter too large for
    a float has no score. *)
Definition failure_rate (a : BaseAgent.t) : res float :=
  let m := BaseAgent.get_metrics a in
  let total := BaseAgent.tasks_completed m + BaseAgent.tasks_failed m in
  if 0 <? total then int_truediv (BaseAgent.tasks_failed m) total
  else Ok 0%float.

Definition average_processing_time (a : BaseAgent.t) : res float :=
  let m := BaseAgent.get_metrics a in
  if 0 <? BaseAgent.tasks_completed m then
    n ← float_of_int (BaseAgent.tasks_completed m);
    Ok (BaseAgent.total_processing_time m / n)%float
  else Ok 0%float.

Definition spec_score (a : BaseAgent.t) : res float :=
  rate ← failure_rate a;
  average ← average_processing_time a;
  Ok (100 * rate + 0.1 * average)%float.










(** The available agents that [get_agents_by_type] lists for a type, in the
    order of the type index. *)
Definition candidates (σ : store BaseAgent.t) (reg : AgentRegistry.t)
    (agent_type : string) : list ref :=
  List.filter (fun a => BaseAgent.is_available (σ a))
    (AgentRegistry.get_agents_by_type reg agent_type).

(** What the delegated [process_task] does when [execute_task] runs agent
    [self] on [task] in world [w]: it is called after two readings of the
    clock, on the agent in state [WORKING] and the started task. *)
Definition delegated_outcome (env : Env) (self task : ref) (w : World)
  : res pydict :=
  process_task env (S (S (w_ticks w)))
    (BaseAgent.set_state AgentState.WORKING
       (BaseAgent.set_current_task (Some task) (w_agents w self)))
    (AgentTask.mark_started (utcnow env (w_ticks w)) (w_tasks w task)).

(** No step touches the index, the id or the workflow of an execution. *)
Definition keeps_position (st st' : WorkflowEngine.state) : Prop :=
  ∀ r,
    WorkflowExecution.current_step_index (WorkflowEngine.get_exec r st')
      = WorkflowExecution.current_step_index (WorkflowEngine.get_exec r st) ∧
    WorkflowExecution.execution_id (WorkflowEngine.get_exec r st')
      = WorkflowExecution.execution_id (WorkflowEngine.get_exec r st).

(** ** Sample objects used in worked examples *)

Module Samples.
(** A task with the given id, assignee, priority and creation time. *)
Definition task (id : string) (agent : option string)
    (p : MessagePriority.t) (created : datetime) (deps : list string)
  : AgentTask.t :=
  AgentTask.mk id (PStr "work") (PDict ∅) agent "pending" None created None
    None None deps p ∅.

(** A store of five tasks; [t4] depends on [t0]. *)
Definition tasks : store AgentTask.t := fun r =>
  match r with
  | 0%nat => task "t0" None MessagePriority.LOW 10 []
  | 1%nat => task "t1" (Some "ba-1") MessagePriority.HIGH 30 []
  | 2%nat => task "t2" None MessagePriority.HIGH 20 []
  | 3%nat => task "t3" (Some "qa") MessagePriority.CRITICAL 50 []
  | _ => task "t4" None MessagePriority.NORMAL 40 ["t0"]
  end.

(** A stand-in for [isoformat]/[fromisoformat] to run examples with: the
    letter "T" followed by the microsecond count in decimal. *)
Definition isoformat (d : datetime) : string :=
  String (Ascii.ascii_of_nat 84)
    (DecimalString.NilEmpty.string_of_int (Z.to_int d)).

Definition fromisoformat (s : string) : res datetime :=
  match s with
  | String c s' =>
      if Ascii.eqb c (Ascii.ascii_of_nat 84) then
        match DecimalString.NilEmpty.int_of_string s' with
        | Some i => Ok (Z.of_int i)
        | None => Raise (Exn ValueError "Invalid isoformat string")
        end
      else Raise (Exn ValueError "Invalid isoformat string")
  | EmptyString => Raise (Exn ValueError "Invalid isoformat string")
  end.

(** A stand-in for [repr] on what the examples use: plain strings, which
    come in single quotes, and integers. *)
Definition repr (v : pyval) : string :=
  match v with
  | PStr s => "'" +:+ s +:+ "'"
  | PInt z => pretty z
  | _ => "<object>"
  end.

(** Agent A: 0 failures, 10 completed, 2 s on average; agent B: 2 failures,
    8 completed, 1 s on average; agent C is busy. *)
Definition agent (id ty : string) (st : AgentState.t) (completed failed : Z)
    (time : float) : BaseAgent.t :=
  BaseAgent.mk id ty id true st None [] []
    (BaseAgent.mk_metrics completed failed 0 0 time).

(** Agent 3 is an idle architect. *)
Definition agents : store BaseAgent.t := fun r =>
  match r with
  | 0%nat => agent "ba-A" "ba" AgentState.IDLE 10 0 20%float
  | 1%nat => agent "ba-B" "ba" AgentState.COMPLETED 8 2 8%float
  | 3%nat => agent "arch-1" "architect" AgentState.IDLE 0 0 0%float
  | _ => agent "ba-C" "ba" AgentState.WORKING 0 0 0%float
  end.

(** An environment whose [process_task] fails on tasks of type "boom" and
    otherwise returns the task's input. *)
Definition env : Env :=
  mk_env (fun k => 1000000 * Z.of_nat k)
    (fun k => "uuid-" +:+ pretty k)
    (fun _ _ t =>
       match AgentTask.task_type t, AgentTask.input_data t with
       | PStr "boom", _ => Raise (Exn ExternalError "model call failed")
       | _, PDict d => Ok d
       | _, _ => Ok ∅
       end)
    isoformat.

(** A world with the sample agents and tasks; task 5 is of type "boom". *)
Definition world : World :=
  mk_world
    (fun r => if decide (r = 5%nat)
              then AgentTask.mk "t5" (PStr "boom") (PDict ∅) None "pending"
                     None 60 None None None [] MessagePriority.NORMAL ∅
              else tasks r)
    6 agents (fun _ => AgentMessage.mk "" "" MessageType.NOTIFY ∅
                         MessagePriority.NORMAL ∅ "" None 0 ∅)
    0 InMemoryMessageBus.init AgentRegistry.init 0.

(** The world with the four sample agents registered. *)
Definition registered_world : World :=
  let st :=
    (AgentRegistry.run (agents, AgentRegistry.init)
       [AgentRegistry.Register 0%nat; AgentRegistry.Register 1%nat;
        AgentRegistry.Register 2%nat; AgentRegistry.Register 3%nat]).1 in
  mk_world (w_tasks world) (w_next_task world) st.1 (w_msgs world)
    (w_next_msg world) (w_bus world) st.2 0.

(** The workflow [agent_task("ba"), human_review, agent_task("architect")]. *)
Definition workflow : Workflow.t :=
  Workflow.mk "wf-1" "stories then design" ""
    [WorkflowStep.create_agent_step "generate_user_stories" "ba"
       "generate_user_stories" (Some [("requirements", "requirements")])
       (Some [("requirements", "user_stories")]) "step-1";
     WorkflowStep.create_human_review_step "review_user_stories"
       "user_stories" "step-2";
     WorkflowStep.create_agent_step "create_design_documents" "architect"
       "create_design_documents" None None "step-3"]
    ∅ ∅ "1.0".

(** The engine state after [execute_workflow] on that workflow with the
    context [{"requirements": ["X"]}]: the execution (object 0, id
    "uuid-0") is paused at the review step. *)
Definition paused_state : WorkflowEngine.state :=
  (WorkflowEngine.execute_workflow env "wf-1"
     (Some {["requirements" := PList [PStr "X"]]})
     (registered_world,
      WorkflowEngine.register_workflow WorkflowEngine.init workflow)).1.

(** A message and a finished task. *)
Definition message : AgentMessage.t :=
  AgentMessage.mk "ba-1" "architect-1" MessageType.REQUEST
    {["action" := PStr "design"]} MessagePriority.HIGH ∅ "corr-42"
    (Some "corr-41") 1700000000000000 ∅.

Definition done_task : AgentTask.t :=
  AgentTask.mk "t9" (PStr "design") (PDict {["k" := PInt 1]})
    (Some "architect-1")
    "completed" (Some {["ok" := PBool true]}) 10 (Some 20) (Some 30) None
    ["t0"; "t4"] MessagePriority.NORMAL ∅.
End Samples.

(** The main heap holds one item for each task of [R], each pending under
    its own id. *)
Definition main_queue_holds (σ : store AgentTask.t) (q : InMemoryTaskQueue.t)
    (R : list ref) : Prop :=
  PriorityQueueItem.task <$> InMemoryTaskQueue._queue q ≡ₚ R ∧
  ∀ t, t ∈ R →
    InMemoryTaskQueue._pending_tasks q !! AgentTask.task_id (σ t) = Some t.

(** The pending entry of an id is the task registered under that id. *)
Definition pending_registered (q : InMemoryTaskQueue.t) : Prop :=
  ∀ tid r, InMemoryTaskQueue._pending_tasks q !! tid = Some r →
           InMemoryTaskQueue._tasks q !! tid = Some r.

(** A call, made in state [st], that puts the id [tid] back among the
    pending tasks: [enqueue] of a task with that id, [update_task] of a
    task with that id whose status is ["pending"], and [retry_task] of a
    failed task with that id. No [dequeue] and no [cancel_task] does. *)
Definition puts_back (tid : string)
    (st : store AgentTask.t * InMemoryTaskQueue.t)
    (o : InMemoryTaskQueue.op) : bool :=
  match o with
  | InMemoryTaskQueue.Enqueue task =>
      String.eqb (AgentTask.task_id (st.1 task)) tid
  | InMemoryTaskQueue.UpdateTask task =>
      String.eqb (AgentTask.task_id (st.1 task)) tid
      && String.eqb (AgentTask.status (st.1 task)) "pending"
  | InMemoryTaskQueue.RetryTask task_id =>
      match InMemoryTaskQueue._failed_tasks st.2 !! task_id with
      | Some task => String.eqb (AgentTask.task_id (st.1 task)) tid
      | None => false
      end
  | InMemoryTaskQueue.Dequeue _ | InMemoryTaskQueue.CancelTask _ _ => false
  end.

(** None of the calls [ops], made in order from state [st], puts the id
    [tid] back. *)
Fixpoint keeps_out (tid : string)
    (st : store AgentTask.t * InMemoryTaskQueue.t)
    (ops : list InMemoryTaskQueue.op) : bool :=
  match ops with
  | [] => true
  | o :: ops =>
      negb (puts_back tid st o)
      && keeps_out tid (InMemoryTaskQueue.step st o).1 ops
  end.

(** Two tasks have the same sort key (priority number and creation time). *)
Definition same_key (σ : store AgentTask.t) (a b : ref) : bool :=
  (MessagePriority.value (AgentTask.priority (σ a))
     =? MessagePriority.value (AgentTask.priority (σ b)))
  && (AgentTask.created_at (σ a) =? AgentTask.created_at (σ b)).

(** The agent objects that a sequence of registry calls registers. *)
Definition registered (ops : list AgentRegistry.op) : list ref :=
  omap (fun o => match o with
                 | AgentRegistry.Register r => Some r
                 | AgentRegistry.Unregister _ => None
                 end) ops.

(** Among the agent objects [refs], the id determines the type. *)
Definition ids_determine_types (σ : store BaseAgent.t) (refs : list ref)
  : Prop :=
  ∀ r1 r2, r1 ∈ refs → r2 ∈ refs →
    BaseAgent.agent_id (σ r1) = BaseAgent.agent_id (σ r2) →
    BaseAgent.agent_type (σ r1) = BaseAgent.agent_type (σ r2).

(** Every id of the type index was registered by an agent of [S] of that
    type, and the id map holds agents of [S] under their ids. *)
Definition registry_types_ok (σ : store BaseAgent.t) (S : list ref)
    (reg : AgentRegistry.t) : Prop :=
  (∀ ty ids id, AgentRegistry._agent_types reg !! ty = Some ids → id ∈ ids →
     ∃ r0, r0 ∈ S ∧ BaseAgent.agent_id (σ r0) = id ∧
           BaseAgent.agent_type (σ r0) = ty) ∧
  (∀ id r, AgentRegistry._agents reg !! id = Some r →
     r ∈ S ∧ BaseAgent.agent_id (σ r) = id).

(** The type index holds no empty list. *)
Definition registry_no_empty_list (reg : AgentRegistry.t) : Prop :=
  ∀ ty, AgentRegistry._agent_types reg !! ty ≠ Some [].

(** The filters of [get_message_history] that were given (an empty string
    counts as not given), on one message. *)
Definition history_filter (sender recipient : option string)
    (message_type : option MessageType.t) (m : AgentMessage.t) : bool :=
  (if truthy_ostr sender
   then bool_decide (Some (AgentMessage.sender m) = sender) else true)
  && (if truthy_ostr recipient
      then bool_decide (Some (AgentMessage.recipient m) = recipient) else true)
  && match message_type with
     | Some ty => bool_decide (AgentMessage.message_type m = ty)
     | None => true
     end.

(** The part of the history that [get_message_history] looks at, for a
    given [limit]: its last [limit] entries when [limit] is positive, all of
    it when [limit] is zero, and all but its first [-limit] entries when
    [limit] is negative. *)
Definition history_window {A} (h : list A) (limit : Z) : list A :=
  if 0 <? limit then drop (length h - Z.to_nat limit) h
  else if limit =? 0 then h
  else drop (Z.to_nat (- limit)) h.

(** An agent object that differs from [a] at most in its count of messages
    sent. *)
Definition same_but_sent (a a' : BaseAgent.t) : Prop :=
  ∃ n,
    a' = BaseAgent.set_metrics
           (BaseAgent.mk_metrics
              (BaseAgent.tasks_completed (BaseAgent._metrics a))
              (BaseAgent.tasks_failed (BaseAgent._metrics a)) n
              (BaseAgent.messages_received (BaseAgent._metrics a))
              (BaseAgent.total_processing_time (BaseAgent._metrics a)))
           a.

(** What [_handle_request] runs for a request with action [action] and data
    [data], received by agent [self] in world [w]: [execute_task] on the
    task created for the request. *)
Definition request_execution (env : Env) (self : ref) (action : pyval)
    (data : pyval) (w : World) : World * res pydict :=
  let w :=
    upd_agent self
      (fun a =>
         let m := BaseAgent._metrics a in
         BaseAgent.set_metrics
           (BaseAgent.mk_metrics (BaseAgent.tasks_completed m)
              (BaseAgent.tasks_failed m) (BaseAgent.messages_sent m)
              (BaseAgent.messages_received m + 1)
              (BaseAgent.total_processing_time m)) a)
      w in
  let '(uuid, w) := read_uuid env w in
  let '(now, w) := read_clock env w in
  let '(task, w) :=
    alloc_task
      (AgentTask.create action data
         (Some (BaseAgent.agent_id (w_agents w self))) None None
         MessagePriority.NORMAL uuid now)
      w in
  Agent.execute_task env self task w.

(** How a call of the engine leaves an execution: waiting for approval and
    filed under its id among the pending approvals, or completed with its
    completion time set and no step left, or failed with its error set. *)
Definition settled (workflow : Workflow.t) (st : WorkflowEngine.state)
    (execution : ref) : Prop :=
  let x := WorkflowEngine.get_exec execution st in
  (WorkflowExecution.status x = WorkflowStatus.WAITING_APPROVAL ∧
   WorkflowEngine._pending_approvals st.2 !! WorkflowExecution.execution_id x
     = Some execution) ∨
  (WorkflowExecution.status x = WorkflowStatus.COMPLETED ∧
   is_Some (WorkflowExecution.completed_at x) ∧
   Z.of_nat (length (Workflow.steps workflow))
     ≤ WorkflowExecution.current_step_index x) ∨
  (WorkflowExecution.status x = WorkflowStatus.FAILED ∧
   is_Some (WorkflowExecution.error x)).

(** What a step may do to the execution it runs for: it keeps its id and
    its index (and the dictionaries of the engine), and either keeps its
    status and error, or leaves it waiting for approval, or leaves it failed
    with an error. *)
Definition step_rel (e : ref) (st st' : WorkflowEngine.state) : Prop :=
  let x := WorkflowEngine.get_exec e st in
  let x' := WorkflowEngine.get_exec e st' in
  WorkflowExecution.execution_id x' = WorkflowExecution.execution_id x ∧
  WorkflowExecution.current_step_index x'
    = WorkflowExecution.current_step_index x ∧
  WorkflowEngine._pending_approvals st'.2
    = WorkflowEngine._pending_approvals st.2 ∧
  WorkflowEngine._workflows st'.2 = WorkflowEngine._workflows st.2 ∧
  WorkflowEngine._executions st'.2 = WorkflowEngine._executions st.2 ∧
  ((WorkflowExecution.status x' = WorkflowExecution.status x ∧
    WorkflowExecution.error x' = WorkflowExecution.error x) ∨
   WorkflowExecution.status x' = WorkflowStatus.WAITING_APPROVAL ∨
   (WorkflowExecution.status x' = WorkflowStatus.FAILED ∧
    is_Some (WorkflowExecution.error x'))).

(** The values that [AgentMessage.from_dict] takes for the keys a dictionary
    may leave out (all but the timestamp, which is the clock's), as the
    dictionary [to_dict] would show them; likewise for [AgentTask]. *)
Definition message_defaults (uuid4 : string) : pydict :=
  list_to_map [("priority", PInt 3); ("context", PDict ∅);
               ("correlation_id", PStr uuid4); ("parent_id", PNone);
               ("metadata", PDict ∅)].

Definition task_defaults : pydict :=
  list_to_map [("assigned_agent", PNone); ("status", PStr "pending");
               ("result", PNone); ("parent_task_id", PNone);
               ("dependencies", PList []); ("priority", PInt 3);
               ("metadata", PDict ∅)].

(** * Properties *)

(** ** heapq: the heap invariant is kept, the root is a least element *)

Section HeapFacts.
Context {A : Type} (lt : A → A → bool).
Hypothesis lt_asym : ∀ a b, lt a b = true → lt b a = false.
Hypothesis lt_negtrans :
  ∀ a b c, lt b a = false → lt c b = false → lt c a = false.

Local Abbreviation le a b := (lt b a = false).
Local Abbreviation par i := ((i - 1) / 2)%nat.

Lemma heap_le_refl a : le a a.
Proof. destruct (lt a a) eqn:E; [|done]. by rewrite (lt_asym _ _ E) in E. Qed.

Lemma heap_root_min (h : list A) r :
  heap_ok lt h → h !! 0%nat = Some r → ∀ i y, h !! i = Some y → le r y.
Proof.
  intros Hok Hr i. induction i as [i IH] using lt_wf_ind. intros y Hy.
  destruct (decide (i = 0%nat)) as [->|Hi].
  - rewrite Hr in Hy. injection Hy as ->. apply heap_le_refl.
  - assert (par i < length h)%nat as Hlt.
    { apply lookup_lt_Some in Hy. lia. }
    apply lookup_lt_is_Some in Hlt as [p Hp].
    apply (lt_negtrans _ p).
    + apply (IH (par i)); [lia | done].
    + apply (Hok i); [lia | done | done].
Qed.

Lemma heap_ok_nil : heap_ok lt [].
Proof. intros i c p _ Hc. by rewrite lookup_nil in Hc. Qed.

Lemma heap_ok_prefix (h : list A) k : heap_ok lt h → heap_ok lt (take k h).
Proof.
  intros Hok i c p Hi Hc Hp.
  apply lookup_take_Some in Hc as [Hc _].
  apply lookup_take_Some in Hp as [Hp _]. by apply (Hok i).
Qed.

(** *** [_siftdown] *)

Lemma sd_exit (h : list A) x pos :
  sd_inv lt h x pos →
  (pos = 0%nat ∨ ∃ p, h !! par pos = Some p ∧ le p x) →
  heap_ok lt (<[pos := x]> h).
Proof.
  intros (Hlen & Ha & Hb & Hc) Hpos i c p Hi Hci Hpi.
  destruct (decide (i = pos)) as [->|Hne].
  - rewrite list_lookup_insert_eq in Hci by done. injection Hci as <-.
    destruct Hpos as [->|(p' & Hp' & Hle)]; [lia|].
    rewrite list_lookup_insert_ne in Hpi by lia. congruence.
  - rewrite list_lookup_insert_ne in Hci by done.
    destruct (decide (par i = pos)) as [Hpar|Hpar].
    + rewrite <- Hpar in Hpi.
      rewrite list_lookup_insert_eq in Hpi by lia. injection Hpi as <-.
      by apply (Hb i).
    + rewrite list_lookup_insert_ne in Hpi by done. by apply (Ha i).
Qed.

Lemma sd_step (h : list A) x pos p :
  sd_inv lt h x pos → (0 < pos)%nat → h !! par pos = Some p → lt x p = true →
  sd_inv lt (<[pos := p]> h) x (par pos).
Proof.
  intros (Hlen & Ha & Hb & Hc) Hpos Hp Hlt.
  assert (par pos ≠ pos) as Hpp by lia.
  repeat split.
  - rewrite length_insert. lia.
  - intros i c q Hi Hne Hci Hqi.
    destruct (decide (i = pos)) as [->|Hip].
    + rewrite list_lookup_insert_eq in Hci by done. injection Hci as <-.
      rewrite list_lookup_insert_ne in Hqi by lia.
      assert (q = p) as -> by congruence. apply heap_le_refl.
    + rewrite list_lookup_insert_ne in Hci by done.
      destruct (decide (par i = pos)) as [Hpar|Hpar].
      * rewrite <- Hpar in Hqi.
        rewrite list_lookup_insert_eq in Hqi by lia. injection Hqi as <-.
        by apply (Hc i c p).
      * rewrite list_lookup_insert_ne in Hqi by done. by apply (Ha i).
  - intros c ch Hc0 Hpar Hch.
    destruct (decide (c = pos)) as [->|Hcp].
    + rewrite list_lookup_insert_eq in Hch by done. injection Hch as <-.
      by apply lt_asym.
    + rewrite list_lookup_insert_ne in Hch by done.
      apply (lt_negtrans _ p); [by apply lt_asym|].
      apply (Ha c); [done|done|done|]. by rewrite Hpar.
  - intros c ch g Hpp0 Hc0 Hpar Hch Hg.
    rewrite list_lookup_insert_ne in Hg by lia.
    destruct (decide (c = pos)) as [->|Hcp].
    + rewrite list_lookup_insert_eq in Hch by done. injection Hch as <-.
      apply (Ha (par pos)); [done|done|done|done].
    + rewrite list_lookup_insert_ne in Hch by done.
      apply (lt_negtrans _ p).
      * apply (Ha (par pos)); [done|done|done|done].
      * apply (Ha c); [done|done|done|]. by rewrite Hpar.
Qed.

Lemma siftdown_loop_ok fuel : ∀ (h : list A) x pos,
  (pos ≤ fuel)%nat → sd_inv lt h x pos →
  heap_ok lt (heapq._siftdown_loop lt fuel h 0 x pos).
Proof.
  induction fuel as [|fuel IH]; intros h x pos Hfuel Hinv; cbn [heapq._siftdown_loop].
  - apply sd_exit; [done|]. left. lia.
  - destruct (decide (0 < pos)%nat) as [Hpos|Hpos].
    + assert (par pos < length h)%nat as Hlt.
      { destruct Hinv as [? _]. lia. }
      apply lookup_lt_is_Some in Hlt as [p Hp]. rewrite Hp.
      destruct (lt x p) eqn:E.
      * apply IH; [lia|]. by apply sd_step.
      * apply sd_exit; [done|]. right. eauto.
    + apply sd_exit; [done|]. left. lia.
Qed.

Lemma siftdown_loop_length fuel : ∀ (h : list A) start x pos,
  length (heapq._siftdown_loop lt fuel h start x pos) = length h.
Proof.
  induction fuel as [|fuel IH]; intros h start x pos; cbn [heapq._siftdown_loop].
  - by rewrite length_insert.
  - destruct (decide _); [|by rewrite length_insert].
    destruct (h !! _); [|done].
    destruct (lt x a); [|by rewrite length_insert].
    by rewrite IH, length_insert.
Qed.

Lemma elem_of_list_insert_inv (h : list A) i x y :
  y ∈ <[i := x]> h → y = x ∨ y ∈ h.
Proof.
  intros Hy. apply list_elem_of_lookup in Hy as [j Hj].
  destruct (decide (i = j)) as [->|Hne].
  - destruct (decide (j < length h)%nat).
    + rewrite list_lookup_insert_eq in Hj by done. left. congruence.
    + rewrite list_insert_ge in Hj by lia. right.
      apply list_elem_of_lookup. eauto.
  - rewrite list_lookup_insert_ne in Hj by done. right.
    apply list_elem_of_lookup. eauto.
Qed.

Lemma siftdown_loop_elem fuel : ∀ (h : list A) start x pos y,
  y ∈ heapq._siftdown_loop lt fuel h start x pos → y = x ∨ y ∈ h.
Proof.
  induction fuel as [|fuel IH]; intros h start x pos y; cbn [heapq._siftdown_loop].
  - apply elem_of_list_insert_inv.
  - destruct (decide _); [|apply elem_of_list_insert_inv].
    destruct (h !! _) as [p|] eqn:Hp; [|by right].
    destruct (lt x p); [|apply elem_of_list_insert_inv].
    intros Hy. apply IH in Hy as [->|Hy]; [by left|].
    apply elem_of_list_insert_inv in Hy as [->|Hy]; [|by right].
    right. apply list_elem_of_lookup. eauto.
Qed.

(** [heappush] keeps the invariant and adds exactly the item. *)
Lemma heappush_ok (h : list A) x :
  heap_ok lt h → heap_ok lt (heapq.heappush lt h x).
Proof.
  intros Hok. unfold heapq.heappush, heapq._siftdown.
  rewrite length_app. simpl.
  replace (length h + 1 - 1)%nat with (length h) by lia.
  rewrite lookup_app_r by lia. rewrite Nat.sub_diag. simpl.
  apply siftdown_loop_ok; [done|]. repeat split.
  - rewrite length_app. simpl. lia.
  - intros i c p Hi Hne Hc Hp.
    assert (i < length h)%nat.
    { apply lookup_lt_Some in Hc. rewrite length_app in Hc. simpl in Hc. lia. }
    rewrite lookup_app_l in Hc by lia. rewrite lookup_app_l in Hp by lia.
    by apply (Hok i).
  - intros c ch Hc Hpar Hch. apply lookup_lt_Some in Hch.
    rewrite length_app in Hch. simpl in Hch. lia.
  - intros c ch g _ Hc Hpar Hch. apply lookup_lt_Some in Hch.
    rewrite length_app in Hch. simpl in Hch. lia.
Qed.

Lemma heappush_elem (h : list A) x y :
  y ∈ heapq.heappush lt h x → y = x ∨ y ∈ h.
Proof.
  unfold heapq.heappush, heapq._siftdown. rewrite length_app. simpl.
  replace (length h + 1 - 1)%nat with (length h) by lia.
  rewrite lookup_app_r by lia. rewrite Nat.sub_diag. simpl.
  intros Hy. apply siftdown_loop_elem in Hy as [->|Hy]; [by left|].
  apply elem_of_app in Hy as [Hy|Hy]; [by right|].
  apply list_elem_of_singleton in Hy. by left.
Qed.

(** *** [_siftup] *)

Lemma smaller_child_spec (h : list A) pos :
  (2 * pos + 1 < length h)%nat →
  ∃ child,
    let sc := heapq.smaller_child lt h (length h) (2 * pos + 1) in
    (sc = (2 * pos + 1)%nat ∨ sc = (2 * pos + 2)%nat) ∧
    h !! sc = Some child ∧
    ∀ (c : nat) ch, (0 < c)%nat → par c = pos → h !! c = Some ch →
      le child ch.
Proof.
  intros Hlen. unfold heapq.smaller_child.
  apply lookup_lt_is_Some in Hlen as Hl. destruct Hl as [l Hl].
  destruct (decide (2 * pos + 1 + 1 < length h)%nat) as [Hr|Hr].
  - apply lookup_lt_is_Some in Hr as Hr'. destruct Hr' as [r Hr'].
    rewrite Hl, Hr'. destruct (lt l r) eqn:E; cbn [negb].
    + exists l. split; [by left|]. split; [done|].
      intros c ch Hc Hpar Hch.
      assert (c = (2 * pos + 1)%nat ∨ c = (2 * pos + 1 + 1)%nat) as [->| ->]
        by lia.
      * assert (ch = l) as -> by congruence. apply heap_le_refl.
      * assert (ch = r) as -> by congruence. by apply lt_asym.
    + exists r. split; [right; lia|]. split; [done|].
      intros c ch Hc Hpar Hch.
      assert (c = (2 * pos + 1)%nat ∨ c = (2 * pos + 1 + 1)%nat) as [->| ->]
        by lia.
      * assert (ch = l) as -> by congruence. done.
      * assert (ch = r) as -> by congruence. apply heap_le_refl.
  - exists l. split; [by left|]. split; [done|].
    intros c ch Hc Hpar Hch. apply lookup_lt_Some in Hch as Hclt.
    assert (c = (2 * pos + 1)%nat) as -> by lia.
    assert (ch = l) as -> by congruence. apply heap_le_refl.
Qed.

Lemma su_step (h : list A) pos sc child :
  su_inv lt h pos →
  (sc = (2 * pos + 1)%nat ∨ sc = (2 * pos + 2)%nat) →
  h !! sc = Some child →
  (∀ (c : nat) ch, (0 < c)%nat → par c = pos → h !! c = Some ch →
     le child ch) →
  su_inv lt (<[pos := child]> h) sc.
Proof.
  intros (Hlen & Ha & Hc) Hsc Hchild Hmin.
  apply lookup_lt_Some in Hchild as Hsclt.
  assert (par sc = pos) as Hparsc by lia.
  repeat split.
  - by rewrite length_insert.
  - intros i c p Hi Hne Hci Hpi.
    destruct (decide (i = pos)) as [->|Hip].
    + rewrite list_lookup_insert_eq in Hci by done. injection Hci as <-.
      rewrite list_lookup_insert_ne in Hpi by lia.
      apply (Hc sc child p); [done|lia|done|done|done].
    + rewrite list_lookup_insert_ne in Hci by done.
      destruct (decide (par i = pos)) as [Hpar|Hpar].
      * rewrite <- Hpar in Hpi.
        rewrite list_lookup_insert_eq in Hpi by lia. injection Hpi as <-.
        by apply (Hmin i).
      * rewrite list_lookup_insert_ne in Hpi by done. by apply (Ha i).
  - intros c ch g Hsc0 Hc0 Hpar Hch Hg.
    rewrite Hparsc in Hg.
    rewrite list_lookup_insert_eq in Hg by done. injection Hg as <-.
    rewrite list_lookup_insert_ne in Hch by lia.
    apply (Ha c); [done|lia|done|]. by rewrite Hpar.
Qed.

Lemma su_exit (h : list A) pos :
  su_inv lt h pos → (length h ≤ 2 * pos + 1)%nat → heap_ok lt h.
Proof.
  intros (Hlen & Ha & Hc) Hleaf i c p Hi Hci Hpi.
  apply lookup_lt_Some in Hci as Hilt.
  apply (Ha i); [done|lia|done|done].
Qed.

Lemma siftup_loop_ok fuel : ∀ (h : list A) pos,
  (length h ≤ fuel + pos)%nat → su_inv lt h pos →
  ∃ h' pos',
    heapq._siftup_loop lt fuel h (length h) pos = (h', pos') ∧
    heap_ok lt h' ∧ length h' = length h ∧
    (pos' < length h)%nat ∧ (length h ≤ 2 * pos' + 1)%nat.
Proof.
  induction fuel as [|fuel IH]; intros h pos Hfuel Hinv;
    cbn [heapq._siftup_loop].
  - destruct Hinv as [? _]. lia.
  - destruct (decide (2 * pos + 1 < length h)%nat) as [Hch|Hch].
    + destruct (smaller_child_spec h pos Hch) as (child & Hsc & Hl & Hmin).
      cbv zeta in Hsc, Hl. rewrite Hl.
      pose proof (su_step h pos _ child Hinv Hsc Hl Hmin) as Hinv'.
      destruct (IH (<[pos := child]> h)
                  (heapq.smaller_child lt h (length h) (2 * pos + 1)))
        as (h' & pos' & Heq & Hok & Hlen' & Hpos' & Hleaf).
      { rewrite length_insert. lia. }
      { done. }
      rewrite length_insert in Heq, Hlen', Hpos', Hleaf.
      exists h', pos'. by rewrite Heq.
    + exists h, pos. split; [done|]. destruct Hinv as [Hlen ?].
      split; [apply (su_exit h pos); [done|lia]|]. repeat split; [done|lia].
Qed.

Lemma siftup_loop_elem fuel : ∀ (h : list A) endpos pos h' pos' y,
  heapq._siftup_loop lt fuel h endpos pos = (h', pos') →
  y ∈ h' → y ∈ h.
Proof.
  induction fuel as [|fuel IH]; intros h endpos pos h' pos' y;
    cbn [heapq._siftup_loop].
  - intros [= <- <-]. done.
  - destruct (decide _); [|by intros [= <- <-]].
    destruct (h !! _) as [child|] eqn:Hchild; [|by intros [= <- <-]].
    intros Heq Hy. apply (IH _ _ _ _ _ _ Heq) in Hy.
    apply elem_of_list_insert_inv in Hy as [->|Hy]; [|done].
    apply list_elem_of_lookup. eauto.
Qed.

Lemma siftup_ok (h : list A) :
  su_inv lt h 0 → heap_ok lt (heapq._siftup lt h 0).
Proof.
  intros Hinv. unfold heapq._siftup.
  destruct Hinv as [Hlen ?]. apply lookup_lt_is_Some in Hlen as Hx.
  destruct Hx as [x Hx]. rewrite Hx.
  destruct (siftup_loop_ok (length h) h 0)
    as (h1 & pos1 & Heq & Hok & Hlen1 & Hpos1 & Hleaf); [lia|done|].
  rewrite Heq. unfold heapq._siftdown.
  rewrite list_lookup_insert_eq by lia.
  apply siftdown_loop_ok; [done|]. repeat split.
  - rewrite length_insert. lia.
  - intros i c p Hi Hne Hci Hpi. apply lookup_lt_Some in Hci as Hilt.
    rewrite length_insert in Hilt.
    rewrite list_lookup_insert_ne in Hci by done.
    rewrite list_lookup_insert_ne in Hpi by lia. by apply (Hok i).
  - intros c ch Hc Hpar Hch. apply lookup_lt_Some in Hch.
    rewrite length_insert in Hch. lia.
  - intros c ch g _ Hc Hpar Hch. apply lookup_lt_Some in Hch.
    rewrite length_insert in Hch. lia.
Qed.

Lemma siftup_elem (h : list A) pos y :
  y ∈ heapq._siftup lt h pos → y ∈ h.
Proof.
  unfold heapq._siftup. destruct (h !! pos) as [x|] eqn:Hx; [|done].
  destruct (heapq._siftup_loop lt (length h) h (length h) pos)
    as [h1 pos1] eqn:Heq.
  unfold heapq._siftdown.
  destruct (<[pos1 := x]> h1 !! pos1) as [x'|] eqn:Hx'.
  - intros Hy. apply siftdown_loop_elem in Hy as [->|Hy].
    + assert (x' ∈ <[pos1 := x]> h1) as Hin
        by (apply list_elem_of_lookup; eauto).
      apply elem_of_list_insert_inv in Hin as [->|Hin].
      * apply list_elem_of_lookup. eauto.
      * by apply (siftup_loop_elem _ _ _ _ _ _ _ Heq).
    + apply elem_of_list_insert_inv in Hy as [->|Hy].
      * apply list_elem_of_lookup. eauto.
      * by apply (siftup_loop_elem _ _ _ _ _ _ _ Heq).
  - intros Hy. apply elem_of_list_insert_inv in Hy as [->|Hy].
    + apply list_elem_of_lookup. eauto.
    + by apply (siftup_loop_elem _ _ _ _ _ _ _ Heq).
Qed.

(** *** [heappop] *)

Lemma list_pop_Some (h h' : list A) x :
  heapq.list_pop h = Some (h', x) ↔ h = h' ++ [x].
Proof.
  unfold heapq.list_pop. split.
  - destruct (last h) as [z|] eqn:Hlast; [|done]. intros [= <- <-].
    apply last_Some in Hlast as [l' ->]. by rewrite removelast_last.
  - intros ->. by rewrite last_snoc, removelast_last.
Qed.

Lemma list_pop_None (h : list A) : heapq.list_pop h = None ↔ h = [].
Proof.
  unfold heapq.list_pop. split.
  - destruct (last h) eqn:Hlast; [done|]. intros _. by apply last_None.
  - by intros ->.
Qed.

Lemma heappop_None (h : list A) : heapq.heappop lt h = None ↔ h = [].
Proof.
  unfold heapq.heappop. split.
  - destruct (heapq.list_pop h) as [[h' x]|] eqn:Hpop.
    + by destruct h'.
    + intros _. by apply list_pop_None.
  - by intros ->.
Qed.

Lemma heappop_su_inv (h0 : list A) r0 x :
  heap_ok lt ((r0 :: h0) ++ [x]) → su_inv lt (x :: h0) 0.
Proof.
  intros Hok. repeat split; [simpl; lia| |lia].
  intros i c p Hi Hne Hci Hpi.
  destruct i as [|i]; [lia|].
  destruct ((S i - 1) / 2)%nat as [|j] eqn:Hj; [done|].
  apply (Hok (S i)); [done| |].
  - apply lookup_app_l_Some. done.
  - rewrite Hj. apply lookup_app_l_Some. done.
Qed.

(** [heappop] returns the root, a least element, and leaves a heap made
    of elements of the old one, one shorter. *)
Lemma heappop_ok (h h' : list A) r :
  heap_ok lt h → heapq.heappop lt h = Some (r, h') →
  heap_ok lt h' ∧ r ∈ h ∧ (∀ y, y ∈ h → le r y) ∧ (∀ y, y ∈ h' → y ∈ h) ∧
  length h = S (length h').
Proof.
  intros Hok. unfold heapq.heappop.
  destruct (heapq.list_pop h) as [[h0 x]|] eqn:Hpop; [|done].
  apply list_pop_Some in Hpop as ->.
  destruct h0 as [|r0 h0].
  - intros [= <- <-]. split; [by intros i c p _ Hc; rewrite lookup_nil in Hc|].
    split; [by apply list_elem_of_singleton|].
    split; [|split; [by intros y Hy; apply elem_of_nil in Hy|done]].
    intros y Hy. apply list_elem_of_singleton in Hy as ->.
    apply heap_le_refl.
  - change (<[0%nat := x]> (r0 :: h0)) with (x :: h0).
    intros [= <- <-].
    assert (∀ y, y ∈ (r0 :: h0) ++ [x] → le r0 y) as Hmin.
    { intros y Hy. apply list_elem_of_lookup in Hy as [i Hi].
      by apply (heap_root_min _ r0 Hok eq_refl i). }
    pose proof (heappop_su_inv _ _ _ Hok) as Hsu.
    split; [|split; [by left|split; [done|split]]].
    + by apply siftup_ok.
    + intros y Hy. apply siftup_elem in Hy.
      apply elem_of_cons in Hy as [->|Hy].
      * apply elem_of_app. right. by apply list_elem_of_singleton.
      * apply elem_of_app. left. by right.
    + rewrite length_app. simpl.
      assert (length (heapq._siftup lt (x :: h0) 0) = length (x :: h0))
        as ->; [|simpl; lia].
      unfold heapq._siftup. simpl (_ !! _).
      destruct (siftup_loop_ok (length (x :: h0)) (x :: h0) 0)
        as (h1 & pos1 & Heq & _ & Hlen1 & Hpos1 & _); [lia|done|].
      rewrite Heq. unfold heapq._siftdown.
      rewrite list_lookup_insert_eq by lia.
      by rewrite siftdown_loop_length, length_insert.
Qed.

(** *** The loops are given rounds enough *)

Lemma siftdown_loop_fuel (n : nat) : ∀ (h : list A) start x pos (m : nat),
  (pos ≤ n)%nat → (n ≤ m)%nat →
  heapq._siftdown_loop lt n h start x pos
  = heapq._siftdown_loop lt m h start x pos.
Proof.
  induction n as [|n IH]; intros h start x pos m Hpos Hm.
  - destruct m as [|m]; [done|]. cbn [heapq._siftdown_loop].
    destruct (decide _); [lia|done].
  - destruct m as [|m]; [lia|]. cbn [heapq._siftdown_loop].
    destruct (decide _); [|done]. destruct (h !! _) as [p|]; [|done].
    destruct (lt x p); [|done]. apply IH; lia.
Qed.

Lemma smaller_child_ge (h : list A) endpos childpos :
  (childpos ≤ heapq.smaller_child lt h endpos childpos)%nat.
Proof.
  unfold heapq.smaller_child. destruct (decide _); [|done].
  destruct (h !! childpos) as [c|]; [|done].
  destruct (h !! (childpos + 1)%nat) as [r|]; [|done].
  destruct (negb (lt c r)); lia.
Qed.

Lemma siftup_loop_fuel (n : nat) : ∀ (h : list A) endpos pos (m : nat),
  (endpos ≤ n + pos)%nat → (n ≤ m)%nat →
  heapq._siftup_loop lt n h endpos pos = heapq._siftup_loop lt m h endpos pos.
Proof.
  induction n as [|n IH]; intros h endpos pos m Hpos Hm.
  - destruct m as [|m]; [done|]. cbn [heapq._siftup_loop].
    destruct (decide _); [lia|done].
  - destruct m as [|m]; [lia|]. cbn [heapq._siftup_loop].
    destruct (decide _); [|done].
    pose proof (smaller_child_ge h endpos (2 * pos + 1)).
    destruct (h !! _) as [c|]; [|done]. apply IH; lia.
Qed.

Lemma siftup_loop_length (n : nat) : ∀ (h : list A) endpos pos,
  length (heapq._siftup_loop lt n h endpos pos).1 = length h.
Proof.
  induction n as [|n IH]; intros h endpos pos; cbn [heapq._siftup_loop];
    [done|].
  destruct (decide _); [|done]. destruct (h !! _) as [c|]; [|done].
  by rewrite IH, length_insert.
Qed.

Lemma siftup_length (h : list A) pos :
  length (heapq._siftup lt h pos) = length h.
Proof.
  unfold heapq._siftup. destruct (h !! pos) as [x|]; [|done].
  pose proof (siftup_loop_length (length h) h (length h) pos) as Hlen.
  destruct (heapq._siftup_loop lt (length h) h (length h) pos) as [h1 pos1].
  cbn [fst] in Hlen. unfold heapq._siftdown.
  destruct (_ !! pos1); rewrite ?siftdown_loop_length, length_insert; done.
Qed.

Lemma heappop_length (h h' : list A) r :
  heapq.heappop lt h = Some (r, h') → length h = S (length h').
Proof.
  unfold heapq.heappop.
  destruct (heapq.list_pop h) as [[h0 x]|] eqn:Hpop; [|done].
  apply list_pop_Some in Hpop as ->. rewrite length_app. simpl.
  destruct h0 as [|r0 h0].
  - by intros [= <- <-].
  - change (<[0%nat := x]> (r0 :: h0)) with (x :: h0).
    intros [= <- <-]. rewrite siftup_length. simpl. lia.
Qed.

(** *** Nothing is lost: the heap operations permute the elements *)

Lemma insert_Permutation (h : list A) (i : nat) x y :
  h !! i = Some x → x :: <[i := y]> h ≡ₚ y :: h.
Proof.
  revert i. induction h as [|a h IH]; intros [|i] Hi; try done.
  - injection Hi as ->. simpl. apply perm_swap.
  - simpl in Hi. simpl. rewrite perm_swap. rewrite (IH i Hi). apply perm_swap.
Qed.

(** Moving the content of [j] into the hole [i] leaves a hole at [j]. *)
Lemma hole_move (h T : list A) (i j : nat) x c p :
  h !! i = Some c → h !! j = Some p → x :: h ≡ₚ c :: T →
  x :: <[i := p]> h ≡ₚ p :: T.
Proof.
  intros Hi Hj Hinv. apply (Permutation_cons_inv (a := c)).
  rewrite perm_swap, (insert_Permutation h i c p Hi).
  rewrite perm_swap, Hinv. apply perm_swap.
Qed.

Lemma hole_fill (h T : list A) (i : nat) x c :
  h !! i = Some c → x :: h ≡ₚ c :: T → <[i := x]> h ≡ₚ T.
Proof.
  intros Hi Hinv. apply (Permutation_cons_inv (a := c)).
  by rewrite (insert_Permutation h i c x Hi).
Qed.

Lemma siftdown_loop_Permutation fuel : ∀ (h T : list A) start x pos c,
  h !! pos = Some c → x :: h ≡ₚ c :: T →
  heapq._siftdown_loop lt fuel h start x pos ≡ₚ T.
Proof.
  induction fuel as [|fuel IH]; intros h T start x pos c Hc Hinv;
    cbn [heapq._siftdown_loop].
  - by apply (hole_fill h T pos x c).
  - destruct (decide _) as [Hpos|]; [|by apply (hole_fill h T pos x c)].
    assert (par pos < length h)%nat as Hlt.
    { apply lookup_lt_Some in Hc. lia. }
    apply lookup_lt_is_Some in Hlt as [p Hp]. rewrite Hp.
    destruct (lt x p); [|by apply (hole_fill h T pos x c)].
    apply (IH _ T _ _ _ p).
    + rewrite list_lookup_insert_ne by lia. done.
    + by apply (hole_move h T pos (par pos) x c p).
Qed.

Lemma siftdown_Permutation (h : list A) start pos :
  heapq._siftdown lt h start pos ≡ₚ h.
Proof.
  unfold heapq._siftdown. destruct (h !! pos) as [x|] eqn:Hx; [|done].
  by apply (siftdown_loop_Permutation _ h h start x pos x).
Qed.

Lemma heappush_Permutation (h : list A) x : heapq.heappush lt h x ≡ₚ x :: h.
Proof.
  unfold heapq.heappush. rewrite siftdown_Permutation.
  by rewrite Permutation_app_comm.
Qed.

Lemma siftup_loop_Permutation fuel : ∀ (h T : list A) endpos pos x c,
  h !! pos = Some c → x :: h ≡ₚ c :: T →
  ∃ c',
    (heapq._siftup_loop lt fuel h endpos pos).1
      !! (heapq._siftup_loop lt fuel h endpos pos).2 = Some c' ∧
    x :: (heapq._siftup_loop lt fuel h endpos pos).1 ≡ₚ c' :: T.
Proof.
  induction fuel as [|fuel IH]; intros h T endpos pos x c Hc Hinv;
    cbn [heapq._siftup_loop].
  - eauto.
  - destruct (decide _); [|eauto].
    pose proof (smaller_child_ge h endpos (2 * pos + 1)) as Hge.
    destruct (h !! heapq.smaller_child lt h endpos (2 * pos + 1))
      as [child|] eqn:Hchild; [|eauto].
    apply (IH (<[pos := child]> h) T endpos
             (heapq.smaller_child lt h endpos (2 * pos + 1)) x child).
    + rewrite list_lookup_insert_ne by lia. done.
    + by apply (hole_move h T pos
                  (heapq.smaller_child lt h endpos (2 * pos + 1)) x c child).
Qed.

Lemma siftup_Permutation (h : list A) pos : heapq._siftup lt h pos ≡ₚ h.
Proof.
  unfold heapq._siftup. destruct (h !! pos) as [x|] eqn:Hx; [|done].
  destruct (siftup_loop_Permutation (length h) h h (length h) pos x x Hx)
    as (c' & Hc' & Hperm); [done|].
  destruct (heapq._siftup_loop lt (length h) h (length h) pos) as [h1 pos1].
  cbn [fst snd] in *. rewrite siftdown_Permutation.
  by apply (hole_fill h1 h pos1 x c').
Qed.

Lemma heappop_Permutation (h h' : list A) r :
  heapq.heappop lt h = Some (r, h') → r :: h' ≡ₚ h.
Proof.
  unfold heapq.heappop.
  destruct (heapq.list_pop h) as [[h0 x]|] eqn:Hpop; [|done].
  apply list_pop_Some in Hpop as ->. destruct h0 as [|r0 h0].
  - by intros [= <- <-].
  - change (<[0%nat := x]> (r0 :: h0)) with (x :: h0).
    intros [= <- <-]. rewrite siftup_Permutation.
    rewrite <- Permutation_cons_append. simpl. apply perm_swap.
Qed.
End HeapFacts.

(** ** Task queue: priority order of [dequeue] *)

Lemma item_lt_asym a b :
  PriorityQueueItem.lt a b = true → PriorityQueueItem.lt b a = false.
Proof.
  unfold PriorityQueueItem.lt.
  destruct (PriorityQueueItem.priority a =? PriorityQueueItem.priority b) eqn:E1;
  destruct (PriorityQueueItem.priority b =? PriorityQueueItem.priority a) eqn:E2;
    simpl; lia.
Qed.

Lemma item_lt_negtrans a b c :
  PriorityQueueItem.lt b a = false → PriorityQueueItem.lt c b = false →
  PriorityQueueItem.lt c a = false.
Proof.
  unfold PriorityQueueItem.lt.
  destruct (PriorityQueueItem.priority b =? PriorityQueueItem.priority a) eqn:E1;
  destruct (PriorityQueueItem.priority c =? PriorityQueueItem.priority b) eqn:E2;
  destruct (PriorityQueueItem.priority c =? PriorityQueueItem.priority a) eqn:E3;
    simpl; lia.
Qed.

Lemma item_le_task_le σ a b :
  item_of_task σ a → item_of_task σ b →
  PriorityQueueItem.lt b a = false →
  task_le σ (PriorityQueueItem.task a) (PriorityQueueItem.task b).
Proof.
  intros [Hpa Hta] [Hpb Htb]. unfold PriorityQueueItem.lt, task_le.
  rewrite <- Hpa, <- Hta, <- Hpb, <- Htb.
  destruct (PriorityQueueItem.priority b =? PriorityQueueItem.priority a) eqn:E;
    simpl; lia.
Qed.

Lemma queue_heaps_ok_init σ : queue_heaps_ok σ InMemoryTaskQueue.init.
Proof.
  split; [split|].
  - apply heap_ok_nil.
  - constructor.
  - intros ty h Hh. simpl in Hh. by rewrite lookup_empty in Hh.
Qed.

Lemma heappush_items σ h it :
  Forall (item_of_task σ) h → item_of_task σ it →
  Forall (item_of_task σ) (heapq.heappush PriorityQueueItem.lt h it).
Proof.
  intros Hh Hit. apply Forall_forall. intros y Hy.
  apply heappush_elem in Hy as [->|Hy]; [done|].
  by apply (proj1 (Forall_forall _ _) Hh).
Qed.

Lemma enqueue_heaps_ok σ q task :
  queue_heaps_ok σ q →
  queue_heaps_ok σ (InMemoryTaskQueue.enqueue σ q task).1.
Proof.
  intros [[Hq Hqi] Hty]. unfold InMemoryTaskQueue.enqueue. simpl.
  set (item := PriorityQueueItem.mk _ _ _).
  assert (item_of_task σ item) as Hitem by done.
  split; [split|].
  - by apply heappush_ok; [apply item_lt_asym|apply item_lt_negtrans|].
  - by apply heappush_items.
  - intros ty h. destruct (truthy_ostr _); [|by apply Hty].
    set (aty := if has_dash _ then _ else _).
    destruct (decide (aty = ty)) as [<-|Hne]; simpl.
    + rewrite lookup_insert_eq. intros [= <-].
      destruct (InMemoryTaskQueue._type_queues q !! aty) as [h0|] eqn:Hh0;
        simpl.
      * destruct (Hty _ _ Hh0) as [Hok0 Hit0]. split.
        -- by apply heappush_ok; [apply item_lt_asym|apply item_lt_negtrans|].
        -- by apply heappush_items.
      * split.
        -- apply heappush_ok; [apply item_lt_asym|apply item_lt_negtrans|].
           apply heap_ok_nil.
        -- by apply heappush_items.
    + rewrite lookup_insert_ne by done. apply Hty.
Qed.

(** The loop of [dequeue]: the task returned is the task of an item that is
    least in what is left of the heap. *)
Lemma dequeue_loop_spec σ fuel : ∀ queue pending running queue' p' r' res,
  heap_ok PriorityQueueItem.lt queue →
  InMemoryTaskQueue.dequeue_loop σ fuel queue pending running
    = (queue', p', r', res) →
  heap_ok PriorityQueueItem.lt queue' ∧ (∀ y, y ∈ queue' → y ∈ queue) ∧
  ∀ t, res = Some t →
    ∃ item, PriorityQueueItem.task item = t ∧ item ∈ queue ∧
      ∀ y, y ∈ queue' → PriorityQueueItem.lt y item = false.
Proof.
  induction fuel as [|fuel IH]; intros queue pending running queue' p' r' res Hok;
    cbn [InMemoryTaskQueue.dequeue_loop].
  - intros [= <- <- <- <-]. done.
  - destruct (heapq.heappop _ queue) as [[item q1]|] eqn:Hpop.
    + destruct (heappop_ok _ item_lt_asym item_lt_negtrans _ _ _ Hok Hpop)
        as (Hok1 & Hin & Hmin & Hsub & _).
      destruct (decide _).
      * intros [= <- <- <- <-]. split; [done|]. split; [done|].
        intros t [= <-]. exists item. split; [done|]. split; [done|].
        intros y Hy. apply Hmin. by apply Hsub.
      * intros Heq. destruct (IH _ _ _ _ _ _ _ Hok1 Heq) as (Hok' & Hsub' & Hres).
        split; [done|]. split; [by intros y Hy; apply Hsub, Hsub'|].
        intros t Ht. destruct (Hres t Ht) as (it & Htask & Hin' & Hmin').
        exists it. split; [done|]. split; [by apply Hsub|done].
    + intros [= <- <- <- <-]. done.
Qed.

Lemma chosen_queue_ok σ q key :
  queue_heaps_ok σ q →
  heap_ok PriorityQueueItem.lt (InMemoryTaskQueue.chosen_queue q key) ∧
  Forall (item_of_task σ) (InMemoryTaskQueue.chosen_queue q key).
Proof.
  intros [Hq Hty]. destruct key as [ty|]; simpl; [|done].
  destruct (InMemoryTaskQueue._type_queues q !! ty) as [h|] eqn:Hh; simpl.
  - by apply (Hty ty).
  - split; [apply heap_ok_nil|constructor].
Qed.

(** One [dequeue]: the heaps stay heaps, the same heap is chosen next time,
    and the task returned is least in what is left of the chosen heap. *)
Lemma dequeue_spec σ q ty q' res :
  queue_heaps_ok σ q →
  InMemoryTaskQueue.dequeue σ q ty = (q', res) →
  let key := InMemoryTaskQueue.dequeue_key q ty in
  queue_heaps_ok σ q' ∧
  InMemoryTaskQueue.dequeue_key q' ty = key ∧
  (∀ y, y ∈ InMemoryTaskQueue.chosen_queue q' key →
        y ∈ InMemoryTaskQueue.chosen_queue q key) ∧
  ∀ t, res = Some t →
    ∃ item, PriorityQueueItem.task item = t ∧
      item ∈ InMemoryTaskQueue.chosen_queue q key ∧
      ∀ y, y ∈ InMemoryTaskQueue.chosen_queue q' key →
        PriorityQueueItem.lt y item = false.
Proof.
  intros Hinv. unfold InMemoryTaskQueue.dequeue.
  destruct (chosen_queue_ok σ q (InMemoryTaskQueue.dequeue_key q ty) Hinv)
    as [Hok Hitems].
  destruct (InMemoryTaskQueue.dequeue_loop _ _ _ _ _) as [[[queue p] r] res0]
    eqn:Hloop.
  destruct (dequeue_loop_spec _ _ _ _ _ _ _ _ _ Hok Hloop)
    as (Hok' & Hsub & Hres).
  intros [= <- <-]. cbv zeta.
  set (key := InMemoryTaskQueue.dequeue_key q ty) in *.
  assert (Forall (item_of_task σ) queue) as Hitems'.
  { apply Forall_forall. intros y Hy.
    apply (proj1 (Forall_forall _ _) Hitems). by apply Hsub. }
  destruct Hinv as [Hq Hty].
  assert (InMemoryTaskQueue.chosen_queue
            {| InMemoryTaskQueue._queue :=
                 match key with Some _ => InMemoryTaskQueue._queue q | None => queue end;
               InMemoryTaskQueue._type_queues :=
                 match key with
                 | Some ty0 => <[ty0 := queue]> (InMemoryTaskQueue._type_queues q)
                 | None => InMemoryTaskQueue._type_queues q
                 end;
               InMemoryTaskQueue._tasks := InMemoryTaskQueue._tasks q;
               InMemoryTaskQueue._pending_tasks := p;
               InMemoryTaskQueue._running_tasks := r;
               InMemoryTaskQueue._completed_tasks := InMemoryTaskQueue._completed_tasks q;
               InMemoryTaskQueue._failed_tasks := InMemoryTaskQueue._failed_tasks q;
               InMemoryTaskQueue._metrics := InMemoryTaskQueue._metrics q;
               InMemoryTaskQueue._triggered := InMemoryTaskQueue._triggered q |}
            key = queue) as Hchosen.
  { destruct key as [k|]; simpl; [|done]. by rewrite lookup_insert_eq. }
  rewrite Hchosen. split; [|split; [|split; [done|done]]].
  - split; [split|]; simpl.
    + destruct key; [apply Hq|done].
    + destruct key; [apply Hq|done].
    + intros ty1 h. destruct key as [k|]; [|apply Hty].
      destruct (decide (k = ty1)) as [<-|Hne].
      * rewrite lookup_insert_eq. by intros [= <-].
      * rewrite lookup_insert_ne by done. apply Hty.
  - subst key. unfold InMemoryTaskQueue.dequeue_key. simpl.
    destruct ty as [ty|]; [|done].
    destruct (truthy_ostr (Some ty)); [|done]. simpl.
    destruct (bool_decide (is_Some (InMemoryTaskQueue._type_queues q !! ty)))
      eqn:E.
    + apply bool_decide_eq_true in E. simpl.
      rewrite lookup_insert_eq. by rewrite bool_decide_eq_true_2.
    + by rewrite E.
Qed.

#[local] Arguments InMemoryTaskQueue.enqueue : simpl never.
#[local] Arguments InMemoryTaskQueue.dequeue : simpl never.
#[local] Arguments InMemoryTaskQueue.update_task : simpl never.
#[local] Arguments InMemoryTaskQueue.retry_task : simpl never.
#[local] Arguments InMemoryTaskQueue.cancel_task : simpl never.

Lemma run_app st ops1 ops2 :
  InMemoryTaskQueue.run st (ops1 ++ ops2) =
  let '(st1, rs1) := InMemoryTaskQueue.run st ops1 in
  let '(st2, rs2) := InMemoryTaskQueue.run st1 ops2 in
  (st2, rs1 ++ rs2).
Proof.
  revert st. induction ops1 as [|o ops1 IH]; intros st; simpl.
  - by destruct (InMemoryTaskQueue.run st ops2).
  - destruct (InMemoryTaskQueue.step st o) as [[σ q] r].
    rewrite IH. destruct (InMemoryTaskQueue.run (σ, q) ops1) as [st1 rs1].
    by destruct (InMemoryTaskQueue.run st1 ops2).
Qed.

Lemma run_enqueues σ tasks : ∀ q,
  queue_heaps_ok σ q →
  ∃ q', InMemoryTaskQueue.run (σ, q) (InMemoryTaskQueue.Enqueue <$> tasks)
        = ((σ, q'), replicate (length tasks) None) ∧
        queue_heaps_ok σ q'.
Proof.
  induction tasks as [|t tasks IH]; intros q Hq;
    cbn [InMemoryTaskQueue.run InMemoryTaskQueue.step fmap list_fmap length
         replicate].
  - by exists q.
  - destruct (IH _ (enqueue_heaps_ok σ q t Hq)) as (q' & Heq & Hq').
    exists q'. by rewrite Heq.
Qed.

Lemma run_dequeues σ ty n : ∀ q,
  queue_heaps_ok σ q →
  ∃ q' rs,
    InMemoryTaskQueue.run (σ, q) (replicate n (InMemoryTaskQueue.Dequeue ty))
      = ((σ, q'), rs) ∧
    StronglySorted (task_le σ) (returned rs) ∧
    ∀ t, t ∈ returned rs →
      ∃ item, PriorityQueueItem.task item = t ∧
        item ∈ InMemoryTaskQueue.chosen_queue q
                 (InMemoryTaskQueue.dequeue_key q ty).
Proof.
  induction n as [|n IH]; intros q Hq;
    cbn [InMemoryTaskQueue.run InMemoryTaskQueue.step replicate].
  - exists q, []. split; [done|]. split; [constructor|].
    intros t Ht. by apply elem_of_nil in Ht.
  - destruct (InMemoryTaskQueue.dequeue σ q ty) as [q1 r] eqn:Hdq.
    destruct (dequeue_spec σ q ty q1 r Hq Hdq) as (Hq1 & Hkey & Hsub & Hres).
    destruct (IH q1 Hq1) as (q' & rs & Heq & Hsorted & Hfrom).
    rewrite Heq. exists q', (r :: rs). split; [done|].
    rewrite Hkey in Hfrom.
    assert (∀ t, t ∈ returned rs →
              ∃ item, PriorityQueueItem.task item = t ∧
                item ∈ InMemoryTaskQueue.chosen_queue q
                         (InMemoryTaskQueue.dequeue_key q ty)) as Hfrom'.
    { intros t Ht. destruct (Hfrom t Ht) as (it & Htask & Hin).
      exists it. split; [done|]. by apply Hsub. }
    destruct r as [t|]; [|done].
    destruct (Hres t eq_refl) as (item & Htask & Hin & Hmin).
    destruct (chosen_queue_ok σ q (InMemoryTaskQueue.dequeue_key q ty) Hq)
      as [_ Hitems].
    change (returned (Some t :: rs)) with (t :: returned rs). split.
    + constructor; [done|]. apply Forall_forall. intros t' Ht'.
      destruct (Hfrom t' Ht') as (y & Hy & Hyin).
      rewrite <- Htask, <- Hy. apply item_le_task_le.
      * by apply (proj1 (Forall_forall _ _) Hitems).
      * apply (proj1 (Forall_forall _ _) Hitems). by apply Hsub.
      * by apply Hmin.
    + intros t' Ht'. apply elem_of_cons in Ht' as [->|Ht']; [|by apply Hfrom'].
      by exists item.
Qed.

Lemma returned_nones k rs : returned (replicate k None ++ rs) = returned rs.
Proof. induction k as [|k IH]; [done|]. simpl. apply IH. Qed.

Lemma enqueue_then_dequeue_sorted σ tasks ty n :
  StronglySorted (task_le σ)
    (returned
       (InMemoryTaskQueue.run (σ, InMemoryTaskQueue.init)
          ((InMemoryTaskQueue.Enqueue <$> tasks)
             ++ replicate n (InMemoryTaskQueue.Dequeue ty))).2).
Proof.
  rewrite run_app.
  destruct (run_enqueues σ tasks _ (queue_heaps_ok_init σ)) as (q1 & -> & Hq1).
  destruct (run_dequeues σ ty n q1 Hq1) as (q2 & rs & -> & Hsorted & _).
  simpl. by rewrite returned_nones.
Qed.

Lemma StronglySorted_lookup {A} (R : A → A → Prop) (l : list A) :
  StronglySorted R l →
  ∀ (i j : nat) a b, (i < j)%nat → l !! i = Some a → l !! j = Some b → R a b.
Proof.
  induction 1 as [|x l Hl IH Hall]; intros i j a b Hij Ha Hb.
  - by rewrite lookup_nil in Ha.
  - destruct j as [|j]; [lia|]. simpl in Hb. destruct i as [|i].
    + injection Ha as <-. apply (proj1 (Forall_forall _ _) Hall).
      apply list_elem_of_lookup. eauto.
    + simpl in Ha. apply (IH i j); [lia|done|done].
Qed.

(** C3. After any sequence of [enqueue] calls on a fresh queue, repeated
    [dequeue] calls (with one and the same type filter, or none) return
    tasks in non-decreasing order of priority number, and of two returned
    tasks of equal priority the one returned first was not created later. *)
Theorem C3_dequeue_priority_then_fifo σ tasks ty n :
  let out :=
    returned
      (InMemoryTaskQueue.run (σ, InMemoryTaskQueue.init)
         ((InMemoryTaskQueue.Enqueue <$> tasks)
            ++ replicate n (InMemoryTaskQueue.Dequeue ty))).2 in
  ∀ (i j : nat) a b, (i < j)%nat → out !! i = Some a → out !! j = Some b →
    let pa := MessagePriority.value (AgentTask.priority (σ a)) in
    let pb := MessagePriority.value (AgentTask.priority (σ b)) in
    pa ≤ pb ∧
    (pa = pb → AgentTask.created_at (σ a) ≤ AgentTask.created_at (σ b)).
Proof.
  intros out i j a b Hij Ha Hb pa pb.
  pose proof (StronglySorted_lookup _ _
                (enqueue_then_dequeue_sorted σ tasks ty n) i j a b Hij Ha Hb)
    as Hle.
  unfold task_le in Hle. fold pa pb in Hle. lia.
Qed.

Lemma C3_dequeue_priority_then_fifo_witness :
  MessagePriority.value (AgentTask.priority (Samples.tasks 2%nat))
    ≤ MessagePriority.value (AgentTask.priority (Samples.tasks 1%nat)) ∧
  (MessagePriority.value (AgentTask.priority (Samples.tasks 2%nat))
     = MessagePriority.value (AgentTask.priority (Samples.tasks 1%nat)) →
   AgentTask.created_at (Samples.tasks 2%nat)
     ≤ AgentTask.created_at (Samples.tasks 1%nat)).
Proof.
  apply (C3_dequeue_priority_then_fifo Samples.tasks [0; 1; 2; 3; 4]%nat None
           6 1%nat 2%nat 2%nat 1%nat).
  - lia.
  - vm_compute. reflexivity.
  - vm_compute. reflexivity.
Defined.

Lemma dequeue_loop_fuel σ (n : nat) : ∀ queue pending running (m : nat),
  (length queue ≤ n)%nat → (n ≤ m)%nat →
  InMemoryTaskQueue.dequeue_loop σ n queue pending running
  = InMemoryTaskQueue.dequeue_loop σ m queue pending running.
Proof.
  induction n as [|n IH]; intros queue pending running m Hlen Hm.
  - destruct queue; [|simpl in Hlen; lia].
    destruct m as [|m]; [done|]. done.
  - destruct m as [|m]; [lia|]. cbn [InMemoryTaskQueue.dequeue_loop].
    destruct (heapq.heappop _ queue) as [[item q1]|] eqn:Hpop; [|done].
    apply heappop_length in Hpop. destruct (decide _); [done|].
    apply IH; lia.
Qed.

(** The loop of [dequeue] never runs out of rounds: when it returns no
    task, the chosen heap is exhausted. *)
Lemma dequeue_loop_exhausts σ fuel : ∀ queue pending running queue' p' r',
  (length queue ≤ fuel)%nat →
  heap_ok PriorityQueueItem.lt queue →
  InMemoryTaskQueue.dequeue_loop σ fuel queue pending running
    = (queue', p', r', None) →
  queue' = [].
Proof.
  induction fuel as [|fuel IH]; intros queue pending running queue' p' r' Hlen Hok;
    cbn [InMemoryTaskQueue.dequeue_loop].
  - intros [= <- <- <-]. destruct queue; [done|simpl in Hlen; lia].
  - destruct (heapq.heappop _ queue) as [[item q1]|] eqn:Hpop.
    + destruct (heappop_ok _ item_lt_asym item_lt_negtrans _ _ _ Hok Hpop)
        as (Hok1 & _ & _ & _ & Hlen1).
      destruct (decide _); [done|]. apply IH; [lia|done].
    + intros [= <- <- <-].
      by apply (heappop_None PriorityQueueItem.lt).
Qed.

(** Worked example: five tasks enqueued in creation-independent order come
    back by priority, the two [HIGH] ones by creation time. *)
Example dequeue_order_example :
  returned
    (InMemoryTaskQueue.run (Samples.tasks, InMemoryTaskQueue.init)
       ((InMemoryTaskQueue.Enqueue <$> [0; 1; 2; 3; 4]%nat)
          ++ replicate 6 (InMemoryTaskQueue.Dequeue None))).2
  = [3; 2; 1; 4; 0]%nat.
Proof. vm_compute. reflexivity. Qed.

(** With a type filter the heap of that type is used. *)
Example dequeue_typed_example :
  returned
    (InMemoryTaskQueue.run (Samples.tasks, InMemoryTaskQueue.init)
       ((InMemoryTaskQueue.Enqueue <$> [0; 1; 2; 3; 4]%nat)
          ++ replicate 3 (InMemoryTaskQueue.Dequeue (Some "ba")))).2
  = [1]%nat.
Proof. vm_compute. reflexivity. Qed.

(** *** Every enqueued task comes out *)

Lemma enqueue_main_queue_holds σ q R t :
  main_queue_holds σ q R →
  AgentTask.task_id (σ t) ∉ (AgentTask.task_id ∘ σ) <$> R →
  main_queue_holds σ (InMemoryTaskQueue.enqueue σ q t).1 (t :: R).
Proof.
  intros [Hperm Hpend] Hfresh. unfold InMemoryTaskQueue.enqueue. split; simpl.
  - rewrite heappush_Permutation. simpl. by rewrite Hperm.
  - intros t' Ht'. apply elem_of_cons in Ht' as [->|Ht'].
    + apply lookup_insert_eq.
    + rewrite lookup_insert_ne; [by apply Hpend|].
      intros Heq. apply Hfresh. rewrite Heq.
      by apply (list_elem_of_fmap_2 (AgentTask.task_id ∘ σ)).
Qed.

Lemma dequeue_main_queue_holds σ q R :
  main_queue_holds σ q R →
  NoDup ((AgentTask.task_id ∘ σ) <$> R) →
  match R with
  | [] => (InMemoryTaskQueue.dequeue σ q None).2 = None
  | _ =>
      ∃ t R',
        (InMemoryTaskQueue.dequeue σ q None).2 = Some t ∧ R ≡ₚ t :: R' ∧
        main_queue_holds σ (InMemoryTaskQueue.dequeue σ q None).1 R'
  end.
Proof.
  intros [Hperm Hpend] Hnodup. unfold InMemoryTaskQueue.dequeue.
  cbn [InMemoryTaskQueue.dequeue_key InMemoryTaskQueue.chosen_queue].
  destruct R as [|t0 R0].
  - apply Permutation_nil_r, fmap_nil_inv in Hperm. by rewrite Hperm.
  - destruct (InMemoryTaskQueue._queue q) as [|it0 items] eqn:Hq.
    { by apply Permutation_nil_l in Hperm. }
    rewrite <- Hq in *. clear it0 items Hq.
    destruct (length (InMemoryTaskQueue._queue q)) as [|n] eqn:Hlen.
    { destruct (InMemoryTaskQueue._queue q); [|done].
      by apply Permutation_nil_l in Hperm. }
    cbn [InMemoryTaskQueue.dequeue_loop].
    destruct (heapq.heappop _ _) as [[item rest]|] eqn:Hpop.
    + apply (heappop_Permutation PriorityQueueItem.lt) in Hpop.
      assert (PriorityQueueItem.task item :: (PriorityQueueItem.task <$> rest)
              ≡ₚ t0 :: R0) as Hperm'.
      { rewrite <- Hperm, <- Hpop. done. }
      assert (PriorityQueueItem.task item ∈ t0 :: R0) as Hin.
      { rewrite <- Hperm'. left. }
      rewrite (Hpend _ Hin).
      destruct (decide (is_Some (Some (PriorityQueueItem.task item))))
        as [_|Hno]; [|destruct Hno; eauto].
      cbn [snd fst].
      exists (PriorityQueueItem.task item), (PriorityQueueItem.task <$> rest).
      split; [done|]. split; [by rewrite Hperm'|]. split; [done|].
      simpl. intros t Ht.
      assert (t ∈ t0 :: R0) as Ht0 by (rewrite <- Hperm'; by right).
      rewrite lookup_delete_ne; [by apply Hpend|].
      intros Heq.
      assert (NoDup ((AgentTask.task_id ∘ σ)
                       <$> PriorityQueueItem.task item
                             :: (PriorityQueueItem.task <$> rest))) as Hnd.
      { by rewrite Hperm'. }
      rewrite fmap_cons in Hnd. apply NoDup_cons in Hnd as [Hnotin _].
      apply Hnotin. cbn [compose]. rewrite Heq.
      by apply (list_elem_of_fmap_2 (AgentTask.task_id ∘ σ)).
    + apply (heappop_None PriorityQueueItem.lt) in Hpop.
      rewrite Hpop in Hlen. done.
Qed.

Lemma run_dequeues_all σ : ∀ R q,
  main_queue_holds σ q R →
  NoDup ((AgentTask.task_id ∘ σ) <$> R) →
  returned
    (InMemoryTaskQueue.run (σ, q)
       (replicate (length R) (InMemoryTaskQueue.Dequeue None))).2 ≡ₚ R.
Proof.
  intros R. remember (length R) as n eqn:Hn. revert R Hn.
  induction n as [|n IH]; intros R Hn q Hq Hnodup.
  - by destruct R.
  - destruct R as [|t0 R0]; [done|].
    destruct (dequeue_main_queue_holds σ q _ Hq Hnodup)
      as (t & R' & Hres & Hperm & Hq').
    cbn [replicate InMemoryTaskQueue.run InMemoryTaskQueue.step].
    destruct (InMemoryTaskQueue.dequeue σ q None) as [q1 r].
    cbn [fst snd] in *. subst r.
    assert (length R' = n) as Hlen.
    { apply Permutation_length in Hperm. simpl in *. lia. }
    assert (NoDup ((AgentTask.task_id ∘ σ) <$> R')) as Hnodup'.
    { rewrite Hperm, fmap_cons in Hnodup.
      by apply NoDup_cons in Hnodup as [_ Hnodup]. }
    specialize (IH R' (eq_sym Hlen) q1 Hq' Hnodup').
    destruct (InMemoryTaskQueue.run (σ, q1) _) as [st rs].
    cbn [snd] in *.
    change (returned (Some t :: rs)) with (t :: returned rs).
    by rewrite IH, Hperm.
Qed.

Lemma run_enqueues_holds σ tasks : ∀ q R,
  main_queue_holds σ q R →
  NoDup ((AgentTask.task_id ∘ σ) <$> (tasks ++ R)) →
  main_queue_holds σ
    (InMemoryTaskQueue.run (σ, q) (InMemoryTaskQueue.Enqueue <$> tasks)).1.2
    (reverse tasks ++ R).
Proof.
  induction tasks as [|t tasks IH]; intros q R Hq Hnodup;
    cbn [InMemoryTaskQueue.run InMemoryTaskQueue.step fmap list_fmap].
  - done.
  - simpl in Hnodup. apply NoDup_cons in Hnodup as [Hfresh Hnodup].
    assert (main_queue_holds σ (InMemoryTaskQueue.enqueue σ q t).1 (t :: R))
      as Hq1.
    { apply enqueue_main_queue_holds; [done|].
      intros Hin. apply Hfresh. rewrite fmap_app. apply elem_of_app. by right. }
    assert (NoDup ((AgentTask.task_id ∘ σ) <$> (tasks ++ t :: R))) as Hnd1.
    { rewrite <- Permutation_middle. rewrite fmap_cons.
      by apply NoDup_cons. }
    specialize (IH _ _ Hq1 Hnd1).
    change (list_fmap ref InMemoryTaskQueue.op InMemoryTaskQueue.Enqueue tasks)
      with (InMemoryTaskQueue.Enqueue <$> tasks).
    destruct (InMemoryTaskQueue.run (σ, _) (InMemoryTaskQueue.Enqueue <$> tasks))
      as [[σ1 q1] rs].
    cbn [fst snd] in *. rewrite reverse_cons, <- app_assoc. exact IH.
Qed.

(** X20. No task is lost: when the enqueued tasks have distinct ids, as many
    [dequeue] calls as there were [enqueue] calls return all of them, each
    once. *)
Lemma dequeue_returns_all σ tasks :
  NoDup ((AgentTask.task_id ∘ σ) <$> tasks) →
  returned
    (InMemoryTaskQueue.run (σ, InMemoryTaskQueue.init)
       ((InMemoryTaskQueue.Enqueue <$> tasks)
          ++ replicate (length tasks) (InMemoryTaskQueue.Dequeue None))).2
  ≡ₚ tasks.
Proof.
  intros Hnodup. rewrite run_app.
  destruct (run_enqueues σ tasks _ (queue_heaps_ok_init σ)) as (q1 & Heq & _).
  pose proof (run_enqueues_holds σ tasks InMemoryTaskQueue.init []) as Hholds.
  rewrite Heq in *. cbn [fst snd] in Hholds.
  rewrite !app_nil_r in Hholds.
  assert (main_queue_holds σ q1 (reverse tasks)) as Hq1.
  { apply Hholds; [|done].
    split; [done|]. intros t Ht. by apply elem_of_nil in Ht. }
  assert (NoDup ((AgentTask.task_id ∘ σ) <$> reverse tasks)) as Hnd.
  { by rewrite reverse_Permutation. }
  pose proof (run_dequeues_all σ (reverse tasks) q1 Hq1 Hnd) as Hall.
  rewrite length_reverse in Hall.
  destruct (InMemoryTaskQueue.run (σ, q1) _) as [st rs]. cbn [snd] in *.
  rewrite returned_nones, Hall. apply reverse_Permutation.
Qed.

Lemma dequeue_returns_all_witness :
  returned
    (InMemoryTaskQueue.run (Samples.tasks, InMemoryTaskQueue.init)
       ((InMemoryTaskQueue.Enqueue <$> [0; 1; 2; 3; 4]%nat)
          ++ replicate 5 (InMemoryTaskQueue.Dequeue None))).2
  ≡ₚ [0; 1; 2; 3; 4]%nat.
Proof.
  apply (dequeue_returns_all Samples.tasks [0; 1; 2; 3; 4]%nat).
  apply (bool_decide_unpack _). vm_compute. reflexivity.
Defined.

(** ** Task queue: dependencies and cancellation *)

Lemma can_execute_iff (tr : DependencyTracker.t) t :
  DependencyTracker.can_execute tr t = true ↔
  ∀ d, d ∈ default [] (DependencyTracker._dependencies tr !! t) →
       d ∈ DependencyTracker._completed tr.
Proof.
  unfold DependencyTracker.can_execute. rewrite forallb_forall. split.
  - intros H d Hd. apply list_elem_of_In in Hd.
    specialize (H d Hd). by apply bool_decide_eq_true in H.
  - intros H d Hd. apply list_elem_of_In in Hd.
    apply bool_decide_eq_true_2. by apply H.
Qed.

Lemma add_dependency_recorded (tr : DependencyTracker.t) t d :
  d ∈ default [] (DependencyTracker._dependencies
                     (DependencyTracker.add_dependency tr t d) !! t).
Proof.
  unfold DependencyTracker.add_dependency. simpl. rewrite lookup_insert_eq.
  simpl. apply elem_of_app. right. by apply list_elem_of_singleton.
Qed.

Lemma dequeue_loop_ids σ σ' fuel : ∀ queue pending running,
  (∀ r, AgentTask.task_id (σ' r) = AgentTask.task_id (σ r)) →
  InMemoryTaskQueue.dequeue_loop σ' fuel queue pending running
  = InMemoryTaskQueue.dequeue_loop σ fuel queue pending running.
Proof.
  induction fuel as [|fuel IH]; intros queue pending running Hid;
    cbn [InMemoryTaskQueue.dequeue_loop]; [done|].
  destruct (heapq.heappop _ queue) as [[item q1]|]; [|done].
  rewrite Hid. destruct (decide _); [done|]. by apply IH.
Qed.

(** [dequeue] reads nothing of the task objects but their ids: neither
    their dependencies nor their status. *)
Lemma dequeue_reads_ids_only σ σ' q ty :
  (∀ r, AgentTask.task_id (σ' r) = AgentTask.task_id (σ r)) →
  InMemoryTaskQueue.dequeue σ' q ty = InMemoryTaskQueue.dequeue σ q ty.
Proof.
  intros Hid. unfold InMemoryTaskQueue.dequeue.
  by rewrite (dequeue_loop_ids σ σ' _ _ _ _ Hid).
Qed.

(** C1, as amended. The dependency tracker gates: a task with a recorded
    dependency that is not marked completed cannot execute and is not among
    the ready tasks; it can execute exactly when all its recorded
    dependencies are marked completed. [dequeue] itself does not look at
    dependencies: its result only depends on the ids of the task objects. *)
Theorem C1_tracker_gates_dequeue_does_not
    (tr : DependencyTracker.t) (t d : string) (pending : list string)
    (σ : store AgentTask.t) (q : InMemoryTaskQueue.t) (ty : option string) :
  d ∈ default [] (DependencyTracker._dependencies tr !! t) →
  d ∉ DependencyTracker._completed tr →
  DependencyTracker.can_execute tr t = false ∧
  (t ∉ DependencyTracker.get_ready_tasks tr pending) ∧
  (DependencyTracker.can_execute tr t = true ↔
     ∀ d', d' ∈ default [] (DependencyTracker._dependencies tr !! t) →
           d' ∈ DependencyTracker._completed tr) ∧
  (∀ σ', (∀ r, AgentTask.task_id (σ' r) = AgentTask.task_id (σ r)) →
         InMemoryTaskQueue.dequeue σ' q ty = InMemoryTaskQueue.dequeue σ q ty).
Proof.
  intros Hd Hnc.
  assert (DependencyTracker.can_execute tr t = false) as Hce.
  { destruct (DependencyTracker.can_execute tr t) eqn:E; [|done].
    destruct Hnc. by apply (proj1 (can_execute_iff tr t) E). }
  split; [done|]. split; [|split].
  - unfold DependencyTracker.get_ready_tasks. intros Hin.
    apply list_elem_of_In, filter_In in Hin as [_ Hin]. congruence.
  - apply can_execute_iff.
  - intros σ' Hid. by apply dequeue_reads_ids_only.
Qed.

Lemma C1_tracker_gates_dequeue_does_not_witness :
  DependencyTracker.can_execute
    (DependencyTracker.add_dependency DependencyTracker.init "t4" "t0") "t4"
  = false ∧
  ("t4" ∉ DependencyTracker.get_ready_tasks
            (DependencyTracker.add_dependency DependencyTracker.init "t4" "t0")
            ["t0"; "t4"]).
Proof.
  pose proof (C1_tracker_gates_dequeue_does_not
                (DependencyTracker.add_dependency DependencyTracker.init
                   "t4" "t0")
                "t4" "t0" ["t0"; "t4"] Samples.tasks InMemoryTaskQueue.init
                None) as H.
  destruct H as (H1 & H2 & _).
  - apply add_dependency_recorded.
  - vm_compute. intros H. inversion H.
  - split; [exact H1|exact H2].
Defined.

(** Once the dependency is marked completed the task is ready. *)
Example tracker_ready_after_completion :
  DependencyTracker.get_ready_tasks
    (DependencyTracker.mark_completed
       (DependencyTracker.add_dependency DependencyTracker.init "t4" "t0")
       "t0")
    ["t0"; "t4"]
  = ["t0"; "t4"].
Proof. vm_compute. reflexivity. Qed.

(** C1, as stated, fails for [dequeue]: task 4 ("t4") depends on "t0",
    which is registered in the queue and still pending, and [dequeue]
    returns task 4. *)
Lemma C1_dequeue_ignores_dependencies :
  "t0" ∈ AgentTask.dependencies (Samples.tasks 4%nat) ∧
  InMemoryTaskQueue.get_task
    (InMemoryTaskQueue.run (Samples.tasks, InMemoryTaskQueue.init)
       [InMemoryTaskQueue.Enqueue 0%nat; InMemoryTaskQueue.Enqueue 4%nat]).1.2
    "t0" = Some 0%nat ∧
  AgentTask.status (Samples.tasks 0%nat) = "pending" ∧
  (InMemoryTaskQueue.dequeue Samples.tasks
     (InMemoryTaskQueue.run (Samples.tasks, InMemoryTaskQueue.init)
        [InMemoryTaskQueue.Enqueue 0%nat; InMemoryTaskQueue.Enqueue 4%nat]).1.2
     None).2 = Some 4%nat.
Proof.
  split; [by apply list_elem_of_singleton|].
  split; [by vm_compute|]. split; [done|by vm_compute].
Qed.

(** *** Cancellation *)

Lemma enqueue_pending_registered σ q task :
  pending_registered q →
  pending_registered (InMemoryTaskQueue.enqueue σ q task).1.
Proof.
  intros Hq tid r. unfold InMemoryTaskQueue.enqueue. simpl.
  destruct (decide (AgentTask.task_id (σ task) = tid)) as [<-|Hne].
  - by rewrite !lookup_insert_eq.
  - rewrite !lookup_insert_ne by done. apply Hq.
Qed.

Lemma dequeue_loop_pending σ fuel : ∀ queue pending running queue' p' r' res,
  InMemoryTaskQueue.dequeue_loop σ fuel queue pending running
    = (queue', p', r', res) →
  (∀ tid r, p' !! tid = Some r → pending !! tid = Some r) ∧
  (∀ t, res = Some t → is_Some (pending !! AgentTask.task_id (σ t))) ∧
  (∀ t, res = Some t → p' !! AgentTask.task_id (σ t) = None).
Proof.
  induction fuel as [|fuel IH]; intros queue pending running queue' p' r' res;
    cbn [InMemoryTaskQueue.dequeue_loop].
  - intros [= <- <- <- <-]. done.
  - destruct (heapq.heappop _ queue) as [[item q1]|].
    + destruct (decide _) as [Hin|Hnin].
      * intros [= <- <- <- <-]. split; [|split].
        -- intros tid r Hl. apply lookup_delete_Some in Hl. tauto.
        -- by intros t [= <-].
        -- intros t [= <-]. apply lookup_delete_eq.
      * apply IH.
    + intros [= <- <- <- <-]. done.
Qed.

Lemma dequeue_pending σ q ty q' res :
  InMemoryTaskQueue.dequeue σ q ty = (q', res) →
  InMemoryTaskQueue._tasks q' = InMemoryTaskQueue._tasks q ∧
  (∀ tid r, InMemoryTaskQueue._pending_tasks q' !! tid = Some r →
            InMemoryTaskQueue._pending_tasks q !! tid = Some r) ∧
  (∀ t, res = Some t →
        is_Some (InMemoryTaskQueue._pending_tasks q
                   !! AgentTask.task_id (σ t))).
Proof.
  unfold InMemoryTaskQueue.dequeue.
  destruct (InMemoryTaskQueue.dequeue_loop _ _ _ _ _) as [[[queue p] r] res0]
    eqn:Hloop.
  destruct (dequeue_loop_pending _ _ _ _ _ _ _ _ _ Hloop) as (Hsub & Hres & _).
  intros [= <- <-]. simpl. done.
Qed.

Lemma remove_first_bucket_pending tid p r c f p' r' c' f' :
  InMemoryTaskQueue.remove_first_bucket tid p r c f = (p', r', c', f') →
  ∀ tid' x, p' !! tid' = Some x → p !! tid' = Some x ∧
            (tid' = tid → False).
Proof.
  unfold InMemoryTaskQueue.remove_first_bucket.
  destruct (decide (is_Some (p !! tid))) as [Hp|Hp].
  - intros [= <- <- <- <-] tid' x Hl.
    apply lookup_delete_Some in Hl as [Hne Hl]. split; [done|congruence].
  - assert (∀ tid' x, p !! tid' = Some x → tid' = tid → False) as Hno.
    { intros tid' x Hl ->. apply Hp. eauto. }
    repeat destruct (decide _); intros [= <- <- <- <-] tid' x Hl; eauto.
Qed.

Lemma update_task_pending σ q task :
  let tid := AgentTask.task_id (σ task) in
  (∀ tid' x,
     InMemoryTaskQueue._pending_tasks (InMemoryTaskQueue.update_task σ q task)
       !! tid' = Some x →
     (tid' = tid ∧ x = task) ∨
     (tid' ≠ tid ∧ InMemoryTaskQueue._pending_tasks q !! tid' = Some x)) ∧
  InMemoryTaskQueue._tasks (InMemoryTaskQueue.update_task σ q task)
    = <[tid := task]> (InMemoryTaskQueue._tasks q).
Proof.
  intros tid. unfold InMemoryTaskQueue.update_task. fold tid.
  destruct (InMemoryTaskQueue.remove_first_bucket _ _ _ _ _)
    as [[[p r] c] f] eqn:Hrm.
  pose proof (remove_first_bucket_pending _ _ _ _ _ _ _ _ _ Hrm) as Hp.
  assert (∀ tid' x, p !! tid' = Some x →
            (tid' = tid ∧ x = task) ∨
            (tid' ≠ tid ∧ InMemoryTaskQueue._pending_tasks q !! tid' = Some x))
    as Hkeep.
  { intros tid' x Hl. right. destruct (Hp tid' x Hl) as [? Hne].
    split; [by intros ->; apply Hne|done]. }
  destruct (String.eqb _ "pending").
  { simpl. split; [|done]. intros tid' x Hl.
    apply lookup_insert_Some in Hl as [[<- <-]|[Hne Hl]]; [by left|].
    by apply Hkeep. }
  destruct (String.eqb _ "running"); [by simpl|].
  destruct (String.eqb _ "completed"); [by simpl|].
  destruct (String.eqb _ "failed"); by simpl.
Qed.

Lemma update_task_pending_registered σ q task :
  pending_registered q →
  pending_registered (InMemoryTaskQueue.update_task σ q task).
Proof.
  intros Hq tid r Hl.
  destruct (update_task_pending σ q task) as [Hp Ht]. rewrite Ht.
  destruct (Hp tid r Hl) as [[-> ->]|[Hne Hl']].
  - by rewrite lookup_insert_eq.
  - rewrite lookup_insert_ne by done. by apply Hq.
Qed.

Lemma cancel_task_pending_registered now σ q tid :
  pending_registered q →
  pending_registered (InMemoryTaskQueue.cancel_task now σ q tid).1.2.
Proof.
  intros Hq. unfold InMemoryTaskQueue.cancel_task.
  destruct (_ !! tid) as [task|]; [|done]. simpl.
  intros tid' r Hl. simpl in Hl.
  apply lookup_delete_Some in Hl as [_ Hl]. by apply Hq.
Qed.

Lemma retry_task_pending_registered σ q tid :
  pending_registered q →
  pending_registered (InMemoryTaskQueue.retry_task σ q tid).1.2.
Proof.
  intros Hq. unfold InMemoryTaskQueue.retry_task.
  destruct (_ !! tid) as [task|]; [|done].
  cbn [fst snd]. by apply enqueue_pending_registered.
Qed.

Lemma step_pending_registered σ q o :
  pending_registered q →
  pending_registered (InMemoryTaskQueue.step (σ, q) o).1.2.
Proof.
  intros Hq. destruct o as [task|ty|task|tid|now tid];
    cbn [InMemoryTaskQueue.step].
  - by apply enqueue_pending_registered.
  - destruct (InMemoryTaskQueue.dequeue σ q ty) as [q' r] eqn:Hdq.
    destruct (dequeue_pending _ _ _ _ _ Hdq) as (Ht & Hsub & _).
    intros tid x Hl. cbn [fst snd] in *. rewrite Ht. by apply Hq, Hsub.
  - by apply update_task_pending_registered.
  - pose proof (retry_task_pending_registered σ q tid Hq) as H.
    by destruct (InMemoryTaskQueue.retry_task σ q tid) as [[σ' q'] b].
  - pose proof (cancel_task_pending_registered now σ q tid Hq) as H.
    by destruct (InMemoryTaskQueue.cancel_task now σ q tid) as [[σ' q'] b].
Qed.

(** Every state reached from a fresh queue keeps pending entries registered. *)
Lemma run_pending_registered ops : ∀ σ q,
  pending_registered q →
  pending_registered (InMemoryTaskQueue.run (σ, q) ops).1.2.
Proof.
  induction ops as [|o ops IH]; intros σ q Hq;
    cbn [InMemoryTaskQueue.run]; [done|].
  pose proof (step_pending_registered σ q o Hq) as Hstep.
  destruct (InMemoryTaskQueue.step (σ, q) o) as [[σ1 q1] r].
  specialize (IH σ1 q1 Hstep).
  by destruct (InMemoryTaskQueue.run (σ1, q1) ops) as [[σ2 q2] rs].
Qed.

Lemma init_pending_registered : pending_registered InMemoryTaskQueue.init.
Proof. intros tid r Hl. simpl in Hl. by rewrite lookup_empty in Hl. Qed.

Lemma cancel_task_ids now σ q tid r :
  AgentTask.task_id ((InMemoryTaskQueue.cancel_task now σ q tid).1.1 r)
  = AgentTask.task_id (σ r).
Proof.
  unfold InMemoryTaskQueue.cancel_task.
  destruct (_ !! tid) as [task|]; [|done]. cbn [fst].
  destruct (decide (r = task)) as [->|Hne].
  - by rewrite fn_lookup_insert.
  - by rewrite fn_lookup_insert_ne.
Qed.

Lemma cancel_task_pending now σ q tid tid' x :
  InMemoryTaskQueue._pending_tasks
    (InMemoryTaskQueue.cancel_task now σ q tid).1.2 !! tid' = Some x →
  InMemoryTaskQueue._pending_tasks q !! tid' = Some x.
Proof.
  unfold InMemoryTaskQueue.cancel_task.
  destruct (_ !! tid) as [task|]; [|done]. simpl.
  intros Hl. by apply lookup_delete_Some in Hl as [_ Hl].
Qed.

Lemma update_task_puts_back σ q task tid' x :
  InMemoryTaskQueue._pending_tasks (InMemoryTaskQueue.update_task σ q task)
    !! tid' = Some x →
  (tid' = AgentTask.task_id (σ task) ∧ AgentTask.status (σ task) = "pending") ∨
  InMemoryTaskQueue._pending_tasks q !! tid' = Some x.
Proof.
  unfold InMemoryTaskQueue.update_task.
  destruct (InMemoryTaskQueue.remove_first_bucket _ _ _ _ _)
    as [[[p r] c] f] eqn:Hrm.
  pose proof (remove_first_bucket_pending _ _ _ _ _ _ _ _ _ Hrm) as Hp.
  destruct (String.eqb _ "pending") eqn:Hst.
  { apply String.eqb_eq in Hst. simpl. intros Hl.
    apply lookup_insert_Some in Hl as [[<- <-]|[Hne Hl]]; [by left|].
    right. by apply Hp in Hl as [Hl _]. }
  destruct (String.eqb _ "running");
    [simpl; intros Hl; right; by apply Hp in Hl as [Hl _]|].
  destruct (String.eqb _ "completed");
    [simpl; intros Hl; right; by apply Hp in Hl as [Hl _]|].
  destruct (String.eqb _ "failed");
    simpl; intros Hl; right; by apply Hp in Hl as [Hl _].
Qed.

Lemma retry_task_ids σ q tid r :
  AgentTask.task_id ((InMemoryTaskQueue.retry_task σ q tid).1.1 r)
  = AgentTask.task_id (σ r).
Proof.
  unfold InMemoryTaskQueue.retry_task.
  destruct (_ !! tid) as [task|]; [|done]. cbn [fst].
  destruct (decide (r = task)) as [->|Hne].
  - by rewrite fn_lookup_insert.
  - by rewrite fn_lookup_insert_ne.
Qed.

Lemma retry_task_puts_back σ q tid tid' x :
  InMemoryTaskQueue._pending_tasks (InMemoryTaskQueue.retry_task σ q tid).1.2
    !! tid' = Some x →
  (∃ task, InMemoryTaskQueue._failed_tasks q !! tid = Some task ∧
           tid' = AgentTask.task_id (σ task)) ∨
  InMemoryTaskQueue._pending_tasks q !! tid' = Some x.
Proof.
  unfold InMemoryTaskQueue.retry_task.
  destruct (_ !! tid) as [task|]; [|by right]. cbn [fst snd].
  unfold InMemoryTaskQueue.enqueue. simpl. rewrite fn_lookup_insert. simpl.
  intros Hl. apply lookup_insert_Some in Hl as [[<- <-]|[Hne Hl]].
  - left. by eexists.
  - by right.
Qed.

(** As long as the id [tid] is not put back, no call returns a task with
    that id. *)
Lemma never_returned σ0 tid ops : ∀ σ q,
  (∀ r, AgentTask.task_id (σ r) = AgentTask.task_id (σ0 r)) →
  InMemoryTaskQueue._pending_tasks q !! tid = None →
  keeps_out tid (σ, q) ops = true →
  ∀ r, r ∈ returned (InMemoryTaskQueue.run (σ, q) ops).2 →
       AgentTask.task_id (σ0 r) ≠ tid.
Proof.
  induction ops as [|o ops IH]; intros σ q Hids Hnone Hops r;
    cbn [InMemoryTaskQueue.run].
  - intros Hr. by apply elem_of_nil in Hr.
  - cbn [keeps_out] in Hops. apply andb_true_iff in Hops as [Ho Hops].
    apply negb_true_iff in Ho.
    assert (∃ σ1 q1 res,
              InMemoryTaskQueue.step (σ, q) o = (σ1, q1, res) ∧
              (∀ r, AgentTask.task_id (σ1 r) = AgentTask.task_id (σ0 r)) ∧
              InMemoryTaskQueue._pending_tasks q1 !! tid = None ∧
              ∀ t, res = Some t → AgentTask.task_id (σ0 t) ≠ tid)
      as (σ1 & q1 & res & Hstep & Hids1 & Hnone1 & Hres).
    { destruct o as [task|ty|task|tid'|now tid'];
        cbn [InMemoryTaskQueue.step puts_back fst snd] in *.
      - apply String.eqb_neq in Ho.
        eexists _, _, _. split; [done|]. split; [done|]. split; [|done].
        unfold InMemoryTaskQueue.enqueue. simpl.
        by rewrite lookup_insert_ne.
      - destruct (InMemoryTaskQueue.dequeue σ q ty) as [q' res] eqn:Hdq.
        destruct (dequeue_pending _ _ _ _ _ Hdq) as (_ & Hsub & Hres).
        eexists _, _, _. split; [done|]. split; [done|]. split.
        + destruct (InMemoryTaskQueue._pending_tasks q' !! tid) as [x|] eqn:E;
            [|done].
          apply Hsub in E. congruence.
        + intros t -> Heq. destruct (Hres t eq_refl) as [x Hx].
          rewrite Hids, Heq in Hx. congruence.
      - eexists _, _, _. split; [done|]. split; [done|]. split; [|done].
        destruct (InMemoryTaskQueue._pending_tasks
                    (InMemoryTaskQueue.update_task σ q task) !! tid)
          as [x|] eqn:E; [|done].
        apply update_task_puts_back in E as [[Heq Hst]|E]; [|congruence].
        rewrite <- Heq, Hst, !String.eqb_refl in Ho. done.
      - pose proof (retry_task_ids σ q tid') as Hc.
        pose proof (retry_task_puts_back σ q tid' tid) as Hp.
        destruct (InMemoryTaskQueue.retry_task σ q tid') as [[σ' q'] b].
        cbn [fst snd] in *.
        eexists _, _, _. split; [done|]. split.
        + intros r'. by rewrite Hc.
        + split; [|done].
          destruct (InMemoryTaskQueue._pending_tasks q' !! tid) as [x|] eqn:E;
            [|done].
          destruct (Hp x eq_refl) as [(task & Hf & Heq)|Hl]; [|congruence].
          rewrite Hf, <- Heq, String.eqb_refl in Ho. done.
      - pose proof (cancel_task_ids now σ q tid') as Hc.
        pose proof (cancel_task_pending now σ q tid' tid) as Hp.
        destruct (InMemoryTaskQueue.cancel_task now σ q tid') as [[σ' q'] b].
        cbn [fst snd] in *.
        eexists _, _, _. split; [done|]. split.
        + intros r'. by rewrite Hc.
        + split; [|done].
          destruct (InMemoryTaskQueue._pending_tasks q' !! tid) as [x|] eqn:E;
            [|done].
          specialize (Hp x eq_refl). congruence. }
    rewrite Hstep. rewrite Hstep in Hops. cbn [fst] in Hops.
    specialize (IH σ1 q1 Hids1 Hnone1 Hops).
    destruct (InMemoryTaskQueue.run (σ1, q1) ops) as [st rs].
    cbn [snd] in *. destruct res as [t|].
    + change (returned (Some t :: rs)) with (t :: returned rs).
      intros Hr. apply elem_of_cons in Hr as [->|Hr]; [by apply Hres|].
      by apply IH.
    + apply IH.
Qed.

(** C9. Cancelling a pending task [t] returns [True], sets its status to
    ["cancelled"] and takes it out of the pending dictionary; [get_task]
    still finds [t] under its id, with status ["cancelled"]. After that no
    call returns [t], nor any task with its id, whatever calls follow,
    unless one of them puts the id back among the pending tasks ([enqueue]
    of a task with that id, [update_task] of one with status ["pending"],
    [retry_task] of a failed one). For an id that is not pending,
    [cancel_task] returns [False] and changes nothing. *)
Theorem C9_cancel_task (now : string) (σ : store AgentTask.t)
    (q : InMemoryTaskQueue.t) (t : ref) :
  pending_registered q →
  InMemoryTaskQueue._pending_tasks q !! AgentTask.task_id (σ t) = Some t →
  let tid := AgentTask.task_id (σ t) in
  let σ' := (InMemoryTaskQueue.cancel_task now σ q tid).1.1 in
  let q' := (InMemoryTaskQueue.cancel_task now σ q tid).1.2 in
  (InMemoryTaskQueue.cancel_task now σ q tid).2 = true ∧
  AgentTask.status (σ' t) = "cancelled" ∧
  AgentTask.task_id (σ' t) = tid ∧
  InMemoryTaskQueue._pending_tasks q' !! tid = None ∧
  InMemoryTaskQueue.get_task q' tid = Some t ∧
  (∀ ops, keeps_out tid (σ', q') ops = true →
          (t ∉ returned (InMemoryTaskQueue.run (σ', q') ops).2) ∧
          Forall (fun r => AgentTask.task_id (σ' r) ≠ tid)
            (returned (InMemoryTaskQueue.run (σ', q') ops).2)) ∧
  (∀ tid0, InMemoryTaskQueue._pending_tasks q !! tid0 = None →
           InMemoryTaskQueue.cancel_task now σ q tid0 = (σ, q, false)).
Proof.
  intros Hreg Hpend tid σ' q'. fold tid in Hpend.
  assert (AgentTask.task_id (σ' t) = tid) as Hid.
  { subst σ'. apply cancel_task_ids. }
  assert (InMemoryTaskQueue._pending_tasks q' !! tid = None) as Hnone.
  { subst q'. unfold InMemoryTaskQueue.cancel_task. rewrite Hpend.
    simpl. apply lookup_delete_eq. }
  assert (AgentTask.status (σ' t) = "cancelled") as Hst.
  { subst σ'. unfold InMemoryTaskQueue.cancel_task. rewrite Hpend.
    cbn [fst]. by rewrite fn_lookup_insert. }
  split.
  { unfold InMemoryTaskQueue.cancel_task. by rewrite Hpend. }
  split; [done|]. split; [done|]. split; [done|]. split; [|split].
  - subst q'.
    unfold InMemoryTaskQueue.cancel_task, InMemoryTaskQueue.get_task.
    rewrite Hpend. simpl. by apply Hreg.
  - intros ops Hops.
    pose proof (never_returned σ' tid ops σ' q' (fun _ => eq_refl) Hnone Hops)
      as Hnever.
    split.
    + intros Hin. by apply (Hnever t).
    + apply Forall_forall. intros r Hr. by apply Hnever.
  - intros tid0 Hno. unfold InMemoryTaskQueue.cancel_task. by rewrite Hno.
Qed.

Lemma C9_cancel_task_witness :
  (InMemoryTaskQueue.cancel_task "2024-01-01T00:00:00" Samples.tasks
     (InMemoryTaskQueue.run (Samples.tasks, InMemoryTaskQueue.init)
        [InMemoryTaskQueue.Enqueue 0%nat; InMemoryTaskQueue.Enqueue 4%nat]).1.2
     "t4").2 = true.
Proof.
  refine (proj1 (C9_cancel_task "2024-01-01T00:00:00" Samples.tasks
            (InMemoryTaskQueue.run (Samples.tasks, InMemoryTaskQueue.init)
               [InMemoryTaskQueue.Enqueue 0%nat;
                InMemoryTaskQueue.Enqueue 4%nat]).1.2
            4%nat _ _)).
  - apply (run_pending_registered _ _ _ init_pending_registered).
  - vm_compute. reflexivity.
Defined.

(** The task "t4" is cancelled while "t2" has failed. The calls that follow
    ([retry_task] of "t2", [update_task] of the cancelled "t4", three
    [dequeue]) do not put "t4" back, and return "t2" and "t0" only. *)
Example cancel_then_retry_another :
  let σ := <[2%nat := AgentTask.set_status "failed" (Samples.tasks 2%nat)]>
             Samples.tasks in
  let st :=
    (InMemoryTaskQueue.run (σ, InMemoryTaskQueue.init)
       [InMemoryTaskQueue.Enqueue 0%nat; InMemoryTaskQueue.Enqueue 4%nat;
        InMemoryTaskQueue.UpdateTask 2%nat;
        InMemoryTaskQueue.CancelTask "2024-01-01T00:00:00" "t4"]).1 in
  let ops :=
    [InMemoryTaskQueue.RetryTask "t2"; InMemoryTaskQueue.UpdateTask 4%nat;
     InMemoryTaskQueue.Dequeue None; InMemoryTaskQueue.Dequeue None;
     InMemoryTaskQueue.Dequeue None] in
  keeps_out "t4" st ops = true ∧
  returned (InMemoryTaskQueue.run st ops).2 = [2%nat; 0%nat].
Proof. vm_compute. done. Qed.

(** After the cancellation of "t4" only "t0" is left to dequeue. *)
Example cancel_then_dequeue_example :
  returned
    (InMemoryTaskQueue.run (Samples.tasks, InMemoryTaskQueue.init)
       [InMemoryTaskQueue.Enqueue 0%nat; InMemoryTaskQueue.Enqueue 4%nat;
        InMemoryTaskQueue.CancelTask "2024-01-01T00:00:00" "t4";
        InMemoryTaskQueue.Dequeue None; InMemoryTaskQueue.Dequeue None]).2
  = [0%nat].
Proof. vm_compute. reflexivity. Qed.

(** ** Message and task model: the dictionary round trip *)

Section RoundTrip.
Variable isoformat : datetime → string.
Variable fromisoformat : string → res datetime.
Variable repr : pyval → string.
(** What the standard library documents of the two functions:
    [fromisoformat] inverts [isoformat], whose result is never empty. *)
Hypothesis fromisoformat_isoformat : ∀ d, fromisoformat (isoformat d) = Ok d.
Hypothesis isoformat_nonempty : ∀ d, isoformat d ≠ "".

Lemma MessageType_of_value_value m :
  MessageType.of_value repr (PStr (MessageType.value m)) = Ok m.
Proof. by destruct m. Qed.

Lemma MessagePriority_of_value_value p :
  MessagePriority.of_value repr (PInt (MessagePriority.value p)) = Ok p.
Proof. by destruct p. Qed.

Lemma as_opt_str_of o : as_opt_str (of_opt_str o) = Ok o.
Proof. by destruct o. Qed.

Lemma as_opt_dict_of o : as_opt_dict (of_opt_dict o) = Ok o.
Proof. by destruct o. Qed.

Lemma as_str_list_of l : as_str_list (PList (PStr <$> l)) = Ok l.
Proof.
  unfold as_str_list. induction l as [|s l IH]; [done|].
  rewrite fmap_cons. cbn [as_str_list_aux as_str]. by rewrite IH.
Qed.

Lemma truthy_isoformat d : truthy (PStr (isoformat d)) = true.
Proof.
  simpl. destruct (String.eqb (isoformat d) "") eqn:E; [|done].
  apply String.eqb_eq in E. by destruct (isoformat_nonempty d).
Qed.

Lemma parse_opt_datetime_roundtrip (data : pydict) k o :
  data !! k = Some (opt_isoformat isoformat o) →
  parse_opt_datetime fromisoformat data k = Ok o.
Proof.
  intros Hk. unfold parse_opt_datetime, dict_get. rewrite Hk. simpl.
  destruct o as [d|]; [|done]. cbn [opt_isoformat].
  rewrite truthy_isoformat. simpl. by rewrite fromisoformat_isoformat.
Qed.

Lemma message_roundtrip (m : AgentMessage.t) uuid4 now :
  AgentMessage.from_dict fromisoformat repr uuid4 now
    (AgentMessage.to_dict isoformat m) = Ok m.
Proof.
  destruct m as [s r mt pl pr cx ci pi ts md].
  unfold AgentMessage.from_dict, AgentMessage.to_dict, dict_item, dict_get.
  cbn [AgentMessage.sender AgentMessage.recipient AgentMessage.message_type
       AgentMessage.payload AgentMessage.priority AgentMessage.context
       AgentMessage.correlation_id AgentMessage.parent_id
       AgentMessage.timestamp AgentMessage.metadata list_to_map foldr
       curry fst snd uncurry].
  repeat (first [rewrite lookup_insert_eq | rewrite lookup_insert_ne by done]).
  cbn [mbind res_bind as_str as_dict default from_option id parse_datetime].
  rewrite MessageType_of_value_value. cbn [mbind res_bind].
  rewrite MessagePriority_of_value_value. cbn [mbind res_bind].
  rewrite as_opt_str_of. cbn [mbind res_bind].
  rewrite fromisoformat_isoformat. done.
Qed.

Lemma task_roundtrip (tk : AgentTask.t) now :
  AgentTask.from_dict fromisoformat repr now (AgentTask.to_dict isoformat tk)
  = Ok tk.
Proof.
  destruct tk as [tid ty inp ag st rs cr sa ca pt deps pr md].
  unfold AgentTask.from_dict.
  rewrite (parse_opt_datetime_roundtrip _ "started_at" sa) by done.
  rewrite (parse_opt_datetime_roundtrip _ "completed_at" ca) by done.
  unfold AgentTask.to_dict, dict_item, dict_get.
  cbn [AgentTask.task_id AgentTask.task_type AgentTask.input_data
       AgentTask.assigned_agent AgentTask.status AgentTask.result
       AgentTask.created_at AgentTask.started_at AgentTask.completed_at
       AgentTask.parent_task_id AgentTask.dependencies AgentTask.priority
       AgentTask.metadata list_to_map foldr curry fst snd uncurry].
  repeat (first [rewrite lookup_insert_eq | rewrite lookup_insert_ne by done]).
  cbn [mbind res_bind as_str as_dict default from_option id parse_datetime].
  rewrite as_opt_str_of. cbn [mbind res_bind].
  rewrite as_opt_dict_of. cbn [mbind res_bind].
  rewrite fromisoformat_isoformat. cbn [mbind res_bind].
  rewrite as_opt_str_of. cbn [mbind res_bind].
  rewrite as_str_list_of. cbn [mbind res_bind].
  rewrite MessagePriority_of_value_value. done.
Qed.

(** A correlation id present in the dictionary is the one of the message
    built from it, whatever [uuid4] would have produced. *)
Lemma from_dict_keeps_correlation_id (data : pydict) c uuid4 now m :
  data !! "correlation_id" = Some (PStr c) →
  AgentMessage.from_dict fromisoformat repr uuid4 now data = Ok m →
  AgentMessage.correlation_id m = c.
Proof.
  intros Hc. unfold AgentMessage.from_dict, dict_get. rewrite Hc.
  cbn [default from_option id as_str].
  repeat
    (match goal with
     | |- context [mbind _ ?r] =>
         let E := fresh "E" in destruct r eqn:E; cbn [mbind res_bind]
     end; try discriminate).
  by intros [= <-].
Qed.

(** C6. For every message and every task, [from_dict (to_dict x)] is [x],
    field by field; a correlation id present in a dictionary is taken as it
    is, and the id that [uuid4] would generate is not used. *)
Theorem C6_to_dict_from_dict_roundtrip
    (m : AgentMessage.t) (tk : AgentTask.t) (uuid4 : string) (now : datetime) :
  AgentMessage.from_dict fromisoformat repr uuid4 now
    (AgentMessage.to_dict isoformat m) = Ok m ∧
  AgentTask.from_dict fromisoformat repr now (AgentTask.to_dict isoformat tk)
    = Ok tk ∧
  (∀ (data : pydict) c m',
     data !! "correlation_id" = Some (PStr c) →
     AgentMessage.from_dict fromisoformat repr uuid4 now data = Ok m' →
     AgentMessage.correlation_id m' = c).
Proof.
  split; [apply message_roundtrip|]. split; [apply task_roundtrip|].
  intros data c m'. apply from_dict_keeps_correlation_id.
Qed.
End RoundTrip.

Lemma sample_fromisoformat_isoformat d :
  Samples.fromisoformat (Samples.isoformat d) = Ok d.
Proof.
  unfold Samples.fromisoformat, Samples.isoformat.
  rewrite Ascii.eqb_refl, DecimalString.NilEmpty.isi.
  by rewrite DecimalZ.of_to.
Qed.

Lemma C6_to_dict_from_dict_roundtrip_witness :
  AgentMessage.from_dict Samples.fromisoformat Samples.repr "fresh-uuid" 7
    (AgentMessage.to_dict Samples.isoformat Samples.message)
  = Ok Samples.message ∧
  AgentTask.from_dict Samples.fromisoformat Samples.repr 7
    (AgentTask.to_dict Samples.isoformat Samples.done_task)
  = Ok Samples.done_task.
Proof.
  pose proof (C6_to_dict_from_dict_roundtrip Samples.isoformat
                Samples.fromisoformat Samples.repr
                sample_fromisoformat_isoformat
                (fun d => ltac:(discriminate))
                Samples.message Samples.done_task "fresh-uuid" 7)
    as (H1 & H2 & _).
  split; [exact H1|exact H2].
Defined.

(** The serialized form of the sample message, and a dictionary without
    correlation id, for which the generated one is used. *)
Example message_to_dict_example :
  AgentMessage.to_dict Samples.isoformat Samples.message !! "timestamp"
  = Some (PStr "T1700000000000000") ∧
  AgentMessage.to_dict Samples.isoformat Samples.message !! "correlation_id"
  = Some (PStr "corr-42").
Proof. split; vm_compute; reflexivity. Qed.

Example from_dict_default_correlation_id :
  AgentMessage.correlation_id <$>
    (match AgentMessage.from_dict Samples.fromisoformat Samples.repr "fresh-uuid" 7
             (delete "correlation_id"
                (AgentMessage.to_dict Samples.isoformat Samples.message)) with
     | Ok m => Some m
     | Raise _ => None
     end)
  = Some "fresh-uuid".
Proof. vm_compute. reflexivity. Qed.

(** ** Agent registry *)

(** *** The order of binary64 numbers *)




















(** *** The builtin [min] *)

Lemma min_loop_in {A} (key : A → res float) (l : list A) : ∀ best bk r,
  min_loop key best bk l = Ok r → r = best ∨ r ∈ l.
Proof.
  induction l as [|x l IH]; intros best bk r; cbn [min_loop].
  - intros [= <-]. by left.
  - destruct (key x) as [k|e]; [|done].
    destruct (k <? bk)%float; intros Hr; apply IH in Hr as [->|Hr].
    + right. by left.
    + right. by right.
    + by left.
    + right. by right.
Qed.

Lemma py_min_in {A} (key : A → res float) (l : list A) r :
  py_min key l = Ok (Some r) → r ∈ l.
Proof.
  destruct l as [|x l]; [done|]. cbn [py_min].
  destruct (key x) as [k|e]; [|done].
  destruct (min_loop key x k l) as [r'|e] eqn:Hm; [|done]. intros [= <-].
  apply min_loop_in in Hm as [->|Hm]; [by left|by right].
Qed.

Lemma py_min_not_None {A} (key : A → res float) (x : A) (l : list A) :
  py_min key (x :: l) ≠ Ok None.
Proof.
  cbn [py_min]. destruct (key x) as [k|e]; [|done].
  by destruct (min_loop key x k l).
Qed.



(** *** The score *)



(** *** [get_best_agent] and the list it chooses from *)

Lemma filter_andb {A} (f g : A → bool) (l : list A) :
  List.filter g (List.filter f l) = List.filter (fun x => f x && g x) l.
Proof.
  induction l as [|x l IH]; cbn [List.filter]; [done|].
  destruct (f x) eqn:Ef; cbn [List.filter andb]; [|done].
  destruct (g x); by rewrite IH.
Qed.


Lemma get_best_agent_candidates σ reg ty :
  AgentRegistry.get_best_agent σ reg ty
  = match candidates σ reg ty with
    | [] => Ok None
    | [a] => Ok (Some a)
    | l => py_min (fun a => AgentRegistry.score_agent (σ a)) l
    end.
Proof.
  unfold AgentRegistry.get_best_agent. fold (candidates σ reg ty).
  by destruct (candidates σ reg ty) as [|a [|b l]].
Qed.

Lemma get_best_agent_in σ reg ty r :
  AgentRegistry.get_best_agent σ reg ty = Ok (Some r) →
  r ∈ candidates σ reg ty.
Proof.
  rewrite get_best_agent_candidates.
  destruct (candidates σ reg ty) as [|a [|b l]] eqn:Hc; [done| |].
  - intros [= <-]. by left.
  - apply py_min_in.
Qed.

Lemma get_best_agent_None σ reg ty :
  AgentRegistry.get_best_agent σ reg ty = Ok None ↔ candidates σ reg ty = [].
Proof.
  rewrite get_best_agent_candidates.
  destruct (candidates σ reg ty) as [|a [|b l]]; [done|done|].
  split; [|done]. intros H. by apply py_min_not_None in H.
Qed.

Lemma candidates_available σ reg ty a :
  a ∈ candidates σ reg ty →
  a ∈ AgentRegistry.get_agents_by_type reg ty ∧
  BaseAgent.is_available (σ a) = true.
Proof.
  unfold candidates. intros Ha.
  apply list_elem_of_In, filter_In in Ha as [Ha Hav].
  by apply list_elem_of_In in Ha.
Qed.

(** *** The type index and the id map *)

Lemma list_remove_is_Some x l : x ∈ l → is_Some (list_remove x l).
Proof.
  induction l as [|y l IH]; intros Hx; [by apply elem_of_nil in Hx|].
  cbn [list_remove]. destruct (decide (y = x)); [eauto|].
  apply elem_of_cons in Hx as [->|Hx]; [done|].
  destruct (IH Hx) as [r ->]. eauto.
Qed.

Lemma list_remove_keeps x l l' y :
  list_remove x l = Some l' → y ≠ x → y ∈ l → y ∈ l'.
Proof.
  revert l'. induction l as [|z l IH]; intros l'; [done|].
  cbn [list_remove]. destruct (decide (z = x)) as [->|Hne].
  - intros [= <-] Hy Hin. apply elem_of_cons in Hin as [->|Hin]; done.
  - destruct (list_remove x l) as [r|]; [|done]. intros [= <-] Hy Hin.
    apply elem_of_cons in Hin as [->|Hin]; [by left|].
    right. by apply IH.
Qed.

Lemma register_agent_store σ reg agent r :
  BaseAgent.agent_id ((AgentRegistry.register_agent σ reg agent).1.1 r)
    = BaseAgent.agent_id (σ r) ∧
  BaseAgent.agent_type ((AgentRegistry.register_agent σ reg agent).1.1 r)
    = BaseAgent.agent_type (σ r).
Proof.
  unfold AgentRegistry.register_agent. cbn [fst].
  destruct (decide (r = agent)) as [->|Hne].
  - by rewrite fn_lookup_insert.
  - by rewrite fn_lookup_insert_ne.
Qed.

Lemma register_agent_ids_ok σ reg agent :
  registry_ids_ok σ reg →
  registry_ids_ok (AgentRegistry.register_agent σ reg agent).1.1
    (AgentRegistry.register_agent σ reg agent).1.2.
Proof.
  intros Hok id r Hl.
  rewrite (proj1 (register_agent_store σ reg agent r)).
  unfold AgentRegistry.register_agent in Hl. simpl in Hl.
  apply lookup_insert_Some in Hl as [[<- <-]|[Hne Hl]]; [done|].
  by apply Hok.
Qed.

Lemma register_agent_index_ok σ reg agent :
  registry_index_ok σ reg →
  registry_index_ok (AgentRegistry.register_agent σ reg agent).1.1
    (AgentRegistry.register_agent σ reg agent).1.2.
Proof.
  intros Hok id r Hl.
  rewrite (proj2 (register_agent_store σ reg agent r)).
  unfold AgentRegistry.register_agent in *. simpl in *.
  apply lookup_insert_Some in Hl as [[<- <-]|[Hne Hl]].
  - rewrite lookup_insert_eq. eexists. split; [done|].
    apply elem_of_app. right. by apply list_elem_of_singleton.
  - destruct (Hok id r Hl) as (ids & Hids & Hin).
    destruct (decide (BaseAgent.agent_type (σ agent)
                      = BaseAgent.agent_type (σ r))) as [Heq|Hneq].
    + rewrite Heq, lookup_insert_eq, Hids. eexists. split; [done|].
      apply elem_of_app. by left.
    + rewrite lookup_insert_ne by done. eauto.
Qed.

Lemma unregister_agent_ids_ok σ reg id :
  registry_ids_ok σ reg →
  registry_ids_ok σ (AgentRegistry.unregister_agent σ reg id).1.
Proof.
  intros Hok id' r. unfold AgentRegistry.unregister_agent.
  destruct (AgentRegistry._agents reg !! id) as [agent|] eqn:Ha; [|apply Hok].
  assert (delete id (AgentRegistry._agents reg) !! id' = Some r →
          BaseAgent.agent_id (σ r) = id') as Hdel.
  { intros Hl. apply lookup_delete_Some in Hl as [_ Hl]. by apply Hok. }
  destruct (AgentRegistry._agent_types reg !! _) as [ids|]; [|done].
  destruct (list_remove id ids) as [ids'|]; done.
Qed.

Lemma unregister_agent_index_ok σ reg id :
  registry_index_ok σ reg →
  registry_index_ok σ (AgentRegistry.unregister_agent σ reg id).1 ∧
  (AgentRegistry.unregister_agent σ reg id).2 = Ok ().
Proof.
  intros Hok. unfold AgentRegistry.unregister_agent.
  destruct (AgentRegistry._agents reg !! id) as [agent|] eqn:Ha; [|done].
  destruct (Hok id agent Ha) as (ids & Hids & Hin). rewrite Hids.
  destruct (list_remove_is_Some id ids Hin) as [ids' Hrm]. rewrite Hrm.
  split; [|done]. intros id' r Hl. cbn [fst] in *. simpl in Hl.
  apply lookup_delete_Some in Hl as [Hne Hl].
  destruct (Hok id' r Hl) as (ids0 & Hids0 & Hin0). simpl.
  destruct (decide (BaseAgent.agent_type (σ agent)
                    = BaseAgent.agent_type (σ r))) as [Heq|Hneq].
  - rewrite <- Heq in Hids0. assert (ids0 = ids) as -> by congruence.
    assert (id' ∈ ids') as Hin'
      by (apply (list_remove_keeps id ids); [done|congruence|done]).
    rewrite <- Heq. destruct ids' as [|z ids']; [by apply elem_of_nil in Hin'|].
    rewrite lookup_insert_eq. eauto.
  - destruct ids' as [|z ids'].
    + rewrite lookup_delete_ne by done. eauto.
    + rewrite lookup_insert_ne by done. eauto.
Qed.

Lemma registry_run_ok ops : ∀ σ reg,
  registry_ids_ok σ reg → registry_index_ok σ reg →
  registry_ids_ok (AgentRegistry.run (σ, reg) ops).1.1
    (AgentRegistry.run (σ, reg) ops).1.2 ∧
  registry_index_ok (AgentRegistry.run (σ, reg) ops).1.1
    (AgentRegistry.run (σ, reg) ops).1.2 ∧
  Forall (fun r => r = Ok ()) (AgentRegistry.run (σ, reg) ops).2.
Proof.
  induction ops as [|o ops IH]; intros σ reg Hids Hidx;
    cbn [AgentRegistry.run]; [by split; [|split; [|constructor]]|].
  assert (∃ σ1 reg1,
            AgentRegistry.step (σ, reg) o = (σ1, reg1, Ok ()) ∧
            registry_ids_ok σ1 reg1 ∧ registry_index_ok σ1 reg1)
    as (σ1 & reg1 & Hstep & Hids1 & Hidx1).
  { destruct o as [agent|id]; cbn [AgentRegistry.step].
    - pose proof (register_agent_ids_ok σ reg agent Hids).
      pose proof (register_agent_index_ok σ reg agent Hidx).
      destruct (AgentRegistry.register_agent σ reg agent) as [[σ1 reg1] s].
      eauto.
    - pose proof (unregister_agent_ids_ok σ reg id Hids).
      destruct (unregister_agent_index_ok σ reg id Hidx) as [? Hr].
      destruct (AgentRegistry.unregister_agent σ reg id) as [reg1 r].
      cbn [fst snd] in *. subst r. eauto. }
  rewrite Hstep. destruct (IH σ1 reg1 Hids1 Hidx1) as (H1 & H2 & H3).
  destruct (AgentRegistry.run (σ1, reg1) ops) as [[σ2 reg2] rs].
  cbn [fst snd] in *. split; [done|]. split; [done|]. by constructor.
Qed.

Lemma registry_init_ok σ :
  registry_ids_ok σ AgentRegistry.init ∧
  registry_index_ok σ AgentRegistry.init.
Proof.
  split; intros id r Hl; simpl in Hl; by rewrite lookup_empty in Hl.
Qed.

Lemma get_agents_by_type_registered reg ty a :
  a ∈ AgentRegistry.get_agents_by_type reg ty →
  ∃ id, AgentRegistry._agents reg !! id = Some a.
Proof.
  unfold AgentRegistry.get_agents_by_type. intros Ha.
  apply list_elem_of_omap in Ha as (id & _ & Hid). eauto.
Qed.

(** C10. After any sequence of [register_agent] and [unregister_agent]
    calls on a fresh registry, every agent that [get_agents_by_type]
    returns is present in the id map under its own id:
    [get_agent(a.agent_id)] is [a]. Ids of the type index that are no
    longer in the id map are left out. *)
Theorem C10_get_agents_by_type_registered
    (σ0 : store BaseAgent.t) (ops : list AgentRegistry.op) (ty : string)
    (a : ref) :
  a ∈ AgentRegistry.get_agents_by_type
        (AgentRegistry.run (σ0, AgentRegistry.init) ops).1.2 ty →
  AgentRegistry.get_agent
    (AgentRegistry.run (σ0, AgentRegistry.init) ops).1.2
    (BaseAgent.agent_id
       ((AgentRegistry.run (σ0, AgentRegistry.init) ops).1.1 a))
  = Some a.
Proof.
  intros Ha. destruct (registry_init_ok σ0) as [H1 H2].
  destruct (registry_run_ok ops σ0 AgentRegistry.init H1 H2) as (Hids & _ & _).
  apply get_agents_by_type_registered in Ha as [id Hid].
  unfold AgentRegistry.get_agent. by rewrite (Hids id a Hid).
Qed.

Lemma C10_get_agents_by_type_registered_witness :
  AgentRegistry.get_agent
    (AgentRegistry.run (Samples.agents, AgentRegistry.init)
       [AgentRegistry.Register 0%nat; AgentRegistry.Register 1%nat]).1.2
    (BaseAgent.agent_id
       ((AgentRegistry.run (Samples.agents, AgentRegistry.init)
           [AgentRegistry.Register 0%nat; AgentRegistry.Register 1%nat]).1.1
          1%nat))
  = Some 1%nat.
Proof.
  apply (C10_get_agents_by_type_registered Samples.agents
           [AgentRegistry.Register 0%nat; AgentRegistry.Register 1%nat]
           "ba" 1%nat).
  vm_compute. apply list_elem_of_In. right. left. reflexivity.
Defined.

(** The same agent registered twice and unregistered once: its id stays in
    the type index, and [get_agents_by_type] leaves it out. *)
Example stale_id_filtered :
  AgentRegistry._agent_types
    (AgentRegistry.run (Samples.agents, AgentRegistry.init)
       [AgentRegistry.Register 0%nat; AgentRegistry.Register 0%nat;
        AgentRegistry.Unregister "ba-A"]).1.2 !! "ba"
  = Some ["ba-A"] ∧
  AgentRegistry.get_agents_by_type
    (AgentRegistry.run (Samples.agents, AgentRegistry.init)
       [AgentRegistry.Register 0%nat; AgentRegistry.Register 0%nat;
        AgentRegistry.Unregister "ba-A"]).1.2 "ba"
  = [].
Proof. split; vm_compute; reflexivity. Qed.

(** While registered twice, the agent is listed twice. *)
Example duplicate_id_listed_twice :
  AgentRegistry.get_agents_by_type
    (AgentRegistry.run (Samples.agents, AgentRegistry.init)
       [AgentRegistry.Register 0%nat; AgentRegistry.Register 0%nat]).1.2 "ba"
  = [0%nat; 0%nat].
Proof. vm_compute. reflexivity. Qed.

(** *** The registry against the history of its calls *)












(** The scores of the sample agents A and B are the floats 0.2 and 20.1, as
    the code and as the specification compute them; A is chosen though it
    was registered last, and the busy agent C never is. *)
Example sample_scores :
  AgentRegistry.score_agent (Samples.agents 0%nat) = Ok 0.2%float ∧
  AgentRegistry.score_agent (Samples.agents 1%nat) = Ok 20.1%float ∧
  spec_score (Samples.agents 0%nat) = Ok 0.2%float ∧
  spec_score (Samples.agents 1%nat) = Ok 20.1%float.
Proof. repeat split; vm_compute; reflexivity. Qed.

(** The scores are compared as the floats they are. For an agent with one
    task completed in 3 s the code computes [3.0 * 0.1], which is
    0.30000000000000004, and for one with 3 failures in 1000 tasks that took
    no time [0.003 * 100], which is 0.3: the second is chosen, though it was
    registered after the first. *)
Example scores_are_floats :
  let σ : store BaseAgent.t := fun r =>
    match r with
    | 0%nat => Samples.agent "ba-1" "ba" AgentState.IDLE 1 0 3%float
    | _ => Samples.agent "ba-2" "ba" AgentState.IDLE 997 3 0%float
    end in
  AgentRegistry.score_agent (σ 0%nat) = Ok 0.30000000000000004%float ∧
  AgentRegistry.score_agent (σ 1%nat) = Ok 0.3%float ∧
  AgentRegistry.get_best_agent σ
    (AgentRegistry.run (σ, AgentRegistry.init)
       [AgentRegistry.Register 0%nat; AgentRegistry.Register 1%nat]).1.2 "ba"
  = Ok (Some 1%nat).
Proof. repeat split; vm_compute; reflexivity. Qed.

(** A counter beyond the range of binary64 has no score: [get_best_agent]
    raises the [OverflowError] of the conversion when it has to compare
    scores, and returns the agent when it is the only one. *)
Example score_overflow :
  let σ : store BaseAgent.t := fun r =>
    match r with
    | 0%nat => Samples.agent "ba-1" "ba" AgentState.IDLE (2 ^ 1024) 0 3%float
    | _ => Samples.agent "ba-2" "ba" AgentState.IDLE 1 0 1%float
    end in
  AgentRegistry.get_best_agent σ
    (AgentRegistry.run (σ, AgentRegistry.init)
       [AgentRegistry.Register 0%nat; AgentRegistry.Register 1%nat]).1.2 "ba"
  = Raise (Exn OverflowError "int too large to convert to float") ∧
  AgentRegistry.get_best_agent σ
    (AgentRegistry.run (σ, AgentRegistry.init)
       [AgentRegistry.Register 0%nat]).1.2 "ba"
  = Ok (Some 0%nat).
Proof. split; vm_compute; reflexivity. Qed.

(** ** Agent: the lifecycle of [execute_task] *)

Lemma is_available_iff a :
  BaseAgent.is_available a = true ↔
  BaseAgent.state a = AgentState.IDLE ∨ BaseAgent.state a = AgentState.COMPLETED.
Proof.
  unfold BaseAgent.is_available, BaseAgent.state.
  rewrite bool_decide_eq_true. rewrite !elem_of_cons, elem_of_nil. tauto.
Qed.

Lemma w_tasks_upd_agent r f w : w_tasks (upd_agent r f w) = w_tasks w.
Proof. done. Qed.
Lemma w_tasks_upd_task r f w : w_tasks (upd_task r f w) r = f (w_tasks w r).
Proof. unfold upd_task. simpl. by rewrite fn_lookup_insert. Qed.
Lemma w_tasks_tick w : w_tasks (tick w) = w_tasks w.
Proof. done. Qed.
Lemma w_agents_upd_agent r f w :
  w_agents (upd_agent r f w) r = f (w_agents w r).
Proof. unfold upd_agent. simpl. by rewrite fn_lookup_insert. Qed.
Lemma w_agents_upd_agent_ne r r' f w :
  r' ≠ r → w_agents (upd_agent r f w) r' = w_agents w r'.
Proof. intros. unfold upd_agent. simpl. by rewrite fn_lookup_insert_ne. Qed.
Lemma w_agents_upd_task r f w : w_agents (upd_task r f w) = w_agents w.
Proof. done. Qed.
Lemma w_agents_tick w : w_agents (tick w) = w_agents w.
Proof. done. Qed.
Lemma w_ticks_upd_agent r f w : w_ticks (upd_agent r f w) = w_ticks w.
Proof. done. Qed.
Lemma w_ticks_upd_task r f w : w_ticks (upd_task r f w) = w_ticks w.
Proof. done. Qed.
Lemma w_ticks_tick w : w_ticks (tick w) = S (w_ticks w).
Proof. done. Qed.

Create Rewrite HintDb world.
#[local] Hint Rewrite w_tasks_upd_agent w_tasks_upd_task w_tasks_tick
  w_agents_upd_agent w_agents_upd_task w_agents_tick w_ticks_upd_agent
  w_ticks_upd_task w_ticks_tick : world.

Lemma send_message_frame self message w :
  w_tasks (Agent.send_message self message w) = w_tasks w ∧
  w_ticks (Agent.send_message self message w) = w_ticks w ∧
  ∀ r,
    let a := w_agents w r in
    let a' := w_agents (Agent.send_message self message w) r in
    BaseAgent._state a' = BaseAgent._state a ∧
    BaseAgent._current_task a' = BaseAgent._current_task a ∧
    BaseAgent._task_history a' = BaseAgent._task_history a ∧
    BaseAgent.tasks_completed (BaseAgent._metrics a')
      = BaseAgent.tasks_completed (BaseAgent._metrics a) ∧
    BaseAgent.tasks_failed (BaseAgent._metrics a')
      = BaseAgent.tasks_failed (BaseAgent._metrics a).
Proof.
  unfold Agent.send_message.
  destruct (BaseAgent.message_bus (w_agents w self)); [|done].
  destruct (InMemoryMessageBus.publish _ _ _) as [msgs bus] eqn:Hp.
  split; [done|]. split; [done|]. intros r. simpl.
  destruct (decide (r = self)) as [->|Hne].
  - by rewrite fn_lookup_insert.
  - by rewrite fn_lookup_insert_ne.
Qed.

Lemma notify_frame env self event data w :
  w_tasks (Agent.notify env self event data w) = w_tasks w ∧
  ∀ r,
    let a := w_agents w r in
    let a' := w_agents (Agent.notify env self event data w) r in
    BaseAgent._state a' = BaseAgent._state a ∧
    BaseAgent._current_task a' = BaseAgent._current_task a ∧
    BaseAgent._task_history a' = BaseAgent._task_history a ∧
    BaseAgent.tasks_completed (BaseAgent._metrics a')
      = BaseAgent.tasks_completed (BaseAgent._metrics a) ∧
    BaseAgent.tasks_failed (BaseAgent._metrics a')
      = BaseAgent.tasks_failed (BaseAgent._metrics a).
Proof.
  unfold Agent.notify.
  destruct (BaseAgent.message_bus (w_agents w self)); [|done].
  cbn [read_uuid read_clock alloc_msg].
  match goal with
  | |- context [Agent.send_message ?s ?m ?w0] =>
      destruct (send_message_frame s m w0) as (Ht & _ & Ha)
  end.
  split; [by rewrite Ht|]. intros r. apply (Ha r).
Qed.

(** C5. An agent whose state is not [idle] or [completed] is not
    available, and [execute_task] then raises without touching anything:
    the task is not started. When the delegated [process_task] raises,
    [execute_task] marks the task failed, adds one to [tasks_failed], puts
    the agent in state [error] and raises that same exception. *)
Theorem C5_execute_task (env : Env) (self task : ref) (w : World) :
  (BaseAgent.is_available (w_agents w self) = true ↔
   BaseAgent.state (w_agents w self) = AgentState.IDLE ∨
   BaseAgent.state (w_agents w self) = AgentState.COMPLETED) ∧
  (BaseAgent.is_available (w_agents w self) = false →
   Agent.execute_task env self task w
   = (w, Raise (Exn RuntimeError
                  (Agent.not_available_message (w_agents w self))))) ∧
  (∀ e,
     BaseAgent.is_available (w_agents w self) = true →
     delegated_outcome env self task w = Raise e →
     let w' := (Agent.execute_task env self task w).1 in
     (Agent.execute_task env self task w).2 = Raise e ∧
     AgentTask.status (w_tasks w' task) = "failed" ∧
     AgentTask.result (w_tasks w' task)
       = Some {["error" := PStr (exn_msg e)]} ∧
     BaseAgent.tasks_failed (BaseAgent.get_metrics (w_agents w' self))
       = BaseAgent.tasks_failed (BaseAgent.get_metrics (w_agents w self)) + 1 ∧
     BaseAgent.state (w_agents w' self) = AgentState.ERROR).
Proof.
  split; [apply is_available_iff|]. split.
  - intros Hna. unfold Agent.execute_task. by rewrite Hna.
  - intros e Hav Hout. unfold Agent.execute_task. rewrite Hav.
    cbn [negb read_clock].
    autorewrite with world.
    assert (∀ t, (match AgentTask.dependencies t with
                  | [] => false
                  | _ :: _ => negb (Agent._check_dependencies
                                      (AgentTask.dependencies t))
                  end) = false) as Hdeps.
    { intros t. by destruct (AgentTask.dependencies t). }
    rewrite Hdeps.
    unfold delegated_outcome in Hout. rewrite Hout.
    unfold Agent._notify_task_failure.
    match goal with
    | |- context [Agent.notify ?en ?s ?ev ?d ?w0] =>
        destruct (notify_frame en s ev d w0) as (Ht & Ha);
        specialize (Ha self); cbv zeta in Ha;
        destruct Ha as (Hs & _ & _ & _ & Hf);
        generalize dependent (Agent.notify en s ev d w0)
    end.
    intros wn Ht Hs Hf. cbv zeta. cbn [fst snd].
    autorewrite with world. rewrite Ht.
    unfold BaseAgent.state, BaseAgent.get_metrics.
    cbn [BaseAgent._state BaseAgent._metrics BaseAgent.set_current_task].
    rewrite Hs, Hf. autorewrite with world. done.
Qed.

(** The sample environment fails on task 5: agent A ends in state [error];
    it is then unavailable, and a second call raises [RuntimeError] and
    leaves task 0 as it was. *)
Example execute_task_failure_example :
  (Agent.execute_task Samples.env 0%nat 5%nat Samples.world).2
  = Raise (Exn ExternalError "model call failed") ∧
  (Agent.execute_task Samples.env 0%nat 0%nat
     (Agent.execute_task Samples.env 0%nat 5%nat Samples.world).1).2
  = Raise (Exn RuntimeError "Agent ba-A is not available (state: error)") ∧
  AgentTask.status
    (w_tasks
       (Agent.execute_task Samples.env 0%nat 0%nat
          (Agent.execute_task Samples.env 0%nat 5%nat Samples.world).1).1
       0%nat)
  = "pending".
Proof. split; [|split]; vm_compute; reflexivity. Qed.

(** On success the task is completed, the agent is in state [completed]
    and one broadcast is on the bus. *)
Example execute_task_success_example :
  (Agent.execute_task Samples.env 0%nat 0%nat Samples.world).2 = Ok ∅ ∧
  AgentTask.status
    (w_tasks (Agent.execute_task Samples.env 0%nat 0%nat Samples.world).1
       0%nat) = "completed" ∧
  BaseAgent.state
    (w_agents (Agent.execute_task Samples.env 0%nat 0%nat Samples.world).1
       0%nat) = AgentState.COMPLETED ∧
  length (InMemoryMessageBus._message_queue
            (w_bus (Agent.execute_task Samples.env 0%nat 0%nat
                      Samples.world).1)) = 1%nat.
Proof. repeat split; vm_compute; reflexivity. Qed.

(** ** Message bus: what happens to a message object *)

(** C8, as amended. [publish] (like [subscribe], [unsubscribe] and the
    registration of direct handlers) leaves every message object as it is.
    [send_direct] overwrites the recipient of the message with
    [recipient_id] and leaves its other fields, and all other messages, as
    they are. A response is a new value that carries the correlation id of
    the request. *)
Theorem C8_bus_and_messages (σ : store AgentMessage.t)
    (bus : InMemoryMessageBus.t) (m : ref) (recipient_id : string) :
  (InMemoryMessageBus.publish σ bus m).1 = σ ∧
  (let σ' := (InMemoryMessageBus.send_direct σ bus recipient_id m).1 in
   AgentMessage.recipient (σ' m) = recipient_id ∧
   AgentMessage.sender (σ' m) = AgentMessage.sender (σ m) ∧
   AgentMessage.message_type (σ' m) = AgentMessage.message_type (σ m) ∧
   AgentMessage.payload (σ' m) = AgentMessage.payload (σ m) ∧
   AgentMessage.priority (σ' m) = AgentMessage.priority (σ m) ∧
   AgentMessage.context (σ' m) = AgentMessage.context (σ m) ∧
   AgentMessage.correlation_id (σ' m) = AgentMessage.correlation_id (σ m) ∧
   AgentMessage.parent_id (σ' m) = AgentMessage.parent_id (σ m) ∧
   AgentMessage.timestamp (σ' m) = AgentMessage.timestamp (σ m) ∧
   AgentMessage.metadata (σ' m) = AgentMessage.metadata (σ m) ∧
   ∀ m', m' ≠ m → σ' m' = σ m') ∧
  (∀ id h tys sf now,
     (InMemoryMessageBus.subscribe σ bus id h tys sf now).1 = σ ∧
     (InMemoryMessageBus.unsubscribe σ bus id).1 = σ ∧
     (InMemoryMessageBus.register_direct_handler σ bus id h).1 = σ ∧
     (InMemoryMessageBus.unregister_direct_handler σ bus id).1 = σ) ∧
  (∀ sender payload ty now,
     let response :=
       AgentMessage.create_response (σ m) sender payload ty now in
     AgentMessage.correlation_id response = AgentMessage.correlation_id (σ m) ∧
     AgentMessage.parent_id response = Some (AgentMessage.correlation_id (σ m)) ∧
     AgentMessage.recipient response = AgentMessage.sender (σ m) ∧
     AgentMessage.sender response = sender).
Proof.
  split; [done|]. split; [|split; [done|done]].
  unfold InMemoryMessageBus.send_direct, InMemoryMessageBus.publish.
  cbn [fst]. rewrite fn_lookup_insert. repeat split.
  intros m' Hne. by rewrite fn_lookup_insert_ne.
Qed.

(** C8, as stated, fails for [send_direct]: the message addressed to
    "architect-1" is readdressed to "qa-1". *)
Lemma C8_send_direct_changes_recipient :
  AgentMessage.recipient Samples.message = "architect-1" ∧
  AgentMessage.recipient
    ((InMemoryMessageBus.send_direct (fun _ => Samples.message)
        InMemoryMessageBus.init "qa-1" 0%nat).1 0%nat)
  = "qa-1" ∧
  (InMemoryMessageBus.send_direct (fun _ => Samples.message)
     InMemoryMessageBus.init "qa-1" 0%nat).1 0%nat
  ≠ Samples.message.
Proof. split; [done|]. split; [done|]. discriminate. Qed.

(** The message object is shared: a message already queued by [publish]
    is readdressed in the queue as well. *)
Example send_direct_aliasing :
  let '(σ1, bus1) :=
    InMemoryMessageBus.publish (fun _ => Samples.message)
      InMemoryMessageBus.init 0%nat in
  let '(σ2, bus2) := InMemoryMessageBus.send_direct σ1 bus1 "qa-1" 0%nat in
  InMemoryMessageBus._message_queue bus2 = [0%nat; 0%nat] ∧
  (AgentMessage.recipient ∘ σ2) <$> InMemoryMessageBus._message_queue bus2
  = ["qa-1"; "qa-1"].
Proof. vm_compute. split; reflexivity. Qed.

(** ** Workflow engine: approval and rejection *)

Lemma get_exec_upd_exec r f st :
  WorkflowEngine.get_exec r (WorkflowEngine.upd_exec r f st)
  = f (WorkflowEngine.get_exec r st).
Proof.
  destruct st as [w self]. unfold WorkflowEngine.get_exec. simpl.
  by rewrite fn_lookup_insert.
Qed.

Lemma get_exec_set_pending r p st :
  WorkflowEngine.get_exec r (WorkflowEngine.set_pending p st)
  = WorkflowEngine.get_exec r st.
Proof. by destruct st as [w self]. Qed.

Lemma get_exec_world r w w' self :
  WorkflowEngine.get_exec r (w, self) = WorkflowEngine.get_exec r (w', self).
Proof. done. Qed.

Lemma pending_upd_exec r f st :
  WorkflowEngine._pending_approvals (WorkflowEngine.upd_exec r f st).2
  = WorkflowEngine._pending_approvals st.2.
Proof. by destruct st as [w self]. Qed.

Lemma pending_set_pending p st :
  WorkflowEngine._pending_approvals (WorkflowEngine.set_pending p st).2 = p.
Proof. by destruct st as [w self]. Qed.

Lemma apply_context_updates_frame u x :
  WorkflowExecution.current_step_index
    (WorkflowEngine.apply_context_updates u x)
    = WorkflowExecution.current_step_index x ∧
  WorkflowExecution.status (WorkflowEngine.apply_context_updates u x)
    = WorkflowExecution.status x ∧
  WorkflowExecution.workflow_id (WorkflowEngine.apply_context_updates u x)
    = WorkflowExecution.workflow_id x.
Proof.
  unfold WorkflowEngine.apply_context_updates.
  destruct u as [u|]; [|done]. by destruct (bool_decide (u = ∅)).
Qed.

Lemma string_app_inv_head (s a b : string) : s +:+ a = s +:+ b → a = b.
Proof.
  induction s as [|c s IH]; [done|]. intros H. apply IH.
  by injection H.
Qed.

(** What [approve_step] leaves when it hands over to [_run_workflow]. *)
Lemma approve_step_update_spec env eid execution feedback updates st :
  let st1 :=
    WorkflowEngine.approve_step_update env eid execution feedback updates st in
  WorkflowExecution.current_step_index (WorkflowEngine.get_exec execution st1)
    = WorkflowExecution.current_step_index
        (WorkflowEngine.get_exec execution st) + 1 ∧
  WorkflowExecution.status (WorkflowEngine.get_exec execution st1)
    = WorkflowStatus.RUNNING ∧
  WorkflowEngine._pending_approvals st1.2 !! eid = None.
Proof.
  unfold WorkflowEngine.approve_step_update.
  destruct (WorkflowEngine.upd_exec execution
              (WorkflowEngine.apply_context_updates updates) st)
    as [w self] eqn:Hst.
  assert (WorkflowEngine.get_exec execution (w, self)
          = WorkflowEngine.apply_context_updates updates
              (WorkflowEngine.get_exec execution st)) as Hx.
  { rewrite <- Hst. apply get_exec_upd_exec. }
  cbn [read_clock]. cbv zeta.
  rewrite !get_exec_upd_exec, get_exec_set_pending, get_exec_upd_exec.
  rewrite (get_exec_world _ _ w), Hx.
  rewrite !pending_upd_exec, pending_set_pending.
  destruct (apply_context_updates_frame updates
              (WorkflowEngine.get_exec execution st)) as (Hi & _ & _).
  split; [by rewrite <- Hi|]. split; [done|]. apply lookup_delete_eq.
Qed.

(** What [reject_step] leaves when it hands over to [_run_workflow]. *)
Lemma reject_step_update_spec env eid execution workflow fb updates st step :
  py_index (Workflow.steps workflow)
    (WorkflowExecution.current_step_index
       (WorkflowEngine.get_exec execution st)) = Ok step →
  ∃ st2,
    WorkflowEngine.reject_step_update env eid execution workflow fb updates st
      = (st2, Ok ()) ∧
    WorkflowExecution.context (WorkflowEngine.get_exec execution st2)
      !! (WorkflowStep.name step +:+ "_feedback") = Some (PStr fb) ∧
    WorkflowExecution.context (WorkflowEngine.get_exec execution st2)
      !! (WorkflowStep.name step +:+ "_review_status")
      = Some (PStr "rejected") ∧
    WorkflowExecution.current_step_index (WorkflowEngine.get_exec execution st2)
      = (if 0 <? WorkflowExecution.current_step_index
                   (WorkflowEngine.get_exec execution st)
         then WorkflowExecution.current_step_index
                (WorkflowEngine.get_exec execution st) - 1
         else WorkflowExecution.current_step_index
                (WorkflowEngine.get_exec execution st)) ∧
    WorkflowExecution.status (WorkflowEngine.get_exec execution st2)
      = WorkflowStatus.RUNNING ∧
    WorkflowEngine._pending_approvals st2.2 !! eid = None.
Proof.
  intros Hstep. unfold WorkflowEngine.reject_step_update.
  destruct (apply_context_updates_frame updates
              (WorkflowEngine.get_exec execution st)) as (Hi & _ & _).
  rewrite get_exec_upd_exec, Hi, Hstep.
  destruct (WorkflowEngine.upd_exec execution _
              (WorkflowEngine.upd_exec execution
                 (WorkflowEngine.apply_context_updates updates) st))
    as [w self] eqn:Hst.
  cbn [read_clock]. eexists. split; [reflexivity|].
  rewrite !get_exec_upd_exec, get_exec_set_pending, get_exec_upd_exec.
  rewrite (get_exec_world _ _ w), <- Hst, !get_exec_upd_exec.
  rewrite !pending_upd_exec, pending_set_pending.
  set (x := WorkflowEngine.apply_context_updates updates
              (WorkflowEngine.get_exec execution st)) in *.
  cbn [WorkflowExecution.set_step_results WorkflowExecution.set_context
       WorkflowExecution.current_step_index WorkflowExecution.context
       WorkflowExecution.status WorkflowExecution.set_status].
  rewrite Hi.
  assert (WorkflowStep.name step +:+ "_review_status"
          ≠ WorkflowStep.name step +:+ "_feedback") as Hne.
  { intros H. by apply string_app_inv_head in H. }
  destruct (0 <? _); cbn [WorkflowExecution.set_current_step_index
       WorkflowExecution.set_step_results WorkflowExecution.set_context
       WorkflowExecution.current_step_index WorkflowExecution.context
       WorkflowExecution.status WorkflowExecution.set_status];
    (split; [by rewrite lookup_insert_ne, lookup_insert_eq|]);
    (split; [by rewrite lookup_insert_eq|]);
    (split; [done|]); (split; [done|]); apply lookup_delete_eq.
Qed.

(** C2. For an execution paused at step [i] (status [waiting_approval],
    recorded as pending, its workflow registered): [approve_step] hands
    over to [_run_workflow] a state in which the index is [i + 1] and the
    status [running]; [reject_step], for [i] the index of a step, hands
    over a state in which the context holds the feedback under
    ["{name}_feedback"] and ["rejected"] under ["{name}_review_status"],
    the index is [i - 1], or [0] when [i] is [0], and the status is
    [running]. *)
Theorem C2_approve_advances_reject_rewinds (env : Env)
    (st : WorkflowEngine.state) (eid : string) (execution : ref)
    (workflow : Workflow.t) (i : Z) :
  WorkflowEngine._pending_approvals st.2 !! eid = Some execution →
  WorkflowEngine._workflows st.2
    !! WorkflowExecution.workflow_id (WorkflowEngine.get_exec execution st)
    = Some workflow →
  WorkflowExecution.status (WorkflowEngine.get_exec execution st)
    = WorkflowStatus.WAITING_APPROVAL →
  WorkflowExecution.current_step_index (WorkflowEngine.get_exec execution st)
    = i →
  0 ≤ i →
  (∀ feedback updates,
     ∃ st1,
       WorkflowEngine.approve_step env eid feedback updates st
         = (WorkflowEngine._run_workflow env execution workflow st1, Ok ()) ∧
       WorkflowExecution.current_step_index
         (WorkflowEngine.get_exec execution st1) = i + 1 ∧
       WorkflowExecution.status (WorkflowEngine.get_exec execution st1)
         = WorkflowStatus.RUNNING) ∧
  (∀ feedback updates step,
     py_index (Workflow.steps workflow) i = Ok step →
     ∃ st2,
       WorkflowEngine.reject_step env eid feedback updates st
         = (WorkflowEngine._run_workflow env execution workflow st2, Ok ()) ∧
       WorkflowExecution.context (WorkflowEngine.get_exec execution st2)
         !! (WorkflowStep.name step +:+ "_feedback") = Some (PStr feedback) ∧
       WorkflowExecution.context (WorkflowEngine.get_exec execution st2)
         !! (WorkflowStep.name step +:+ "_review_status")
         = Some (PStr "rejected") ∧
       WorkflowExecution.current_step_index
         (WorkflowEngine.get_exec execution st2) = Z.max 0 (i - 1) ∧
       WorkflowExecution.status (WorkflowEngine.get_exec execution st2)
         = WorkflowStatus.RUNNING).
Proof.
  intros Hpend Hwf Hstatus Hidx Hi. split.
  - intros feedback updates.
    exists (WorkflowEngine.approve_step_update env eid execution feedback
              updates st).
    destruct (approve_step_update_spec env eid execution feedback updates st)
      as (H1 & H2 & _).
    split; [|split; [by rewrite H1, Hidx|done]].
    unfold WorkflowEngine.approve_step. by rewrite Hpend, Hwf.
  - intros feedback updates step Hstep. rewrite <- Hidx in Hstep.
    destruct (reject_step_update_spec env eid execution workflow feedback
                updates st step Hstep)
      as (st2 & Heq & Hfb & Hrs & Hi2 & Hst2 & _).
    exists st2. split; [|split; [done|split; [done|split; [|done]]]].
    + unfold WorkflowEngine.reject_step. by rewrite Hpend, Hwf, Heq.
    + rewrite Hi2, Hidx. destruct (0 <? i) eqn:E; lia.
Qed.

Lemma C2_approve_advances_reject_rewinds_witness :
  ∃ st1,
    WorkflowEngine.approve_step Samples.env "uuid-0" (Some "fine") None
      Samples.paused_state
      = (WorkflowEngine._run_workflow Samples.env 0%nat Samples.workflow
           st1, Ok ()) ∧
    WorkflowExecution.current_step_index
      (WorkflowEngine.get_exec 0%nat st1) = 1 + 1 ∧
    WorkflowExecution.status (WorkflowEngine.get_exec 0%nat st1)
      = WorkflowStatus.RUNNING.
Proof.
  refine (proj1 (C2_approve_advances_reject_rewinds Samples.env
                   Samples.paused_state "uuid-0" 0%nat Samples.workflow 1
                   _ _ _ _ _) (Some "fine") None).
  - vm_compute. reflexivity.
  - vm_compute. reflexivity.
  - vm_compute. reflexivity.
  - vm_compute. reflexivity.
  - lia.
Defined.

(** C7. When no approval is pending for an execution id, [approve_step] and
    [reject_step] raise [ValueError] ("No pending approval ...") and leave
    the whole state, hence the status, the step index and the context of
    every execution, as it was. *)
Theorem C7_no_pending_approval (env : Env) (st : WorkflowEngine.state)
    (eid : string) (feedback : option string) (reason : string)
    (updates : option pydict) :
  WorkflowEngine._pending_approvals st.2 !! eid = None →
  WorkflowEngine.approve_step env eid feedback updates st
    = (st, Raise (Exn ValueError
                    ("No pending approval for execution: " +:+ eid))) ∧
  WorkflowEngine.reject_step env eid reason updates st
    = (st, Raise (Exn ValueError
                    ("No pending approval for execution: " +:+ eid))).
Proof.
  intros Hnone. unfold WorkflowEngine.approve_step, WorkflowEngine.reject_step.
  by rewrite Hnone.
Qed.

Lemma C7_no_pending_approval_witness :
  WorkflowEngine.approve_step Samples.env "uuid-9" None None
    Samples.paused_state
    = (Samples.paused_state,
       Raise (Exn ValueError "No pending approval for execution: uuid-9")) ∧
  WorkflowEngine.reject_step Samples.env "uuid-9" "redo" None
    Samples.paused_state
    = (Samples.paused_state,
       Raise (Exn ValueError "No pending approval for execution: uuid-9")).
Proof.
  apply (C7_no_pending_approval Samples.env Samples.paused_state "uuid-9"
           None "redo" None).
  vm_compute. reflexivity.
Defined.

(** The scenario of the three-step workflow: the execution pauses at the
    review step; approval drives it to completion with both agent results
    recorded; rejection rewinds to the first step, which runs again and
    pauses at the review once more, the feedback being in the context. *)
Example workflow_pauses_at_review :
  WorkflowExecution.status (WorkflowEngine.get_exec 0%nat Samples.paused_state)
    = WorkflowStatus.WAITING_APPROVAL ∧
  WorkflowExecution.current_step_index
    (WorkflowEngine.get_exec 0%nat Samples.paused_state) = 1 ∧
  WorkflowEngine._pending_approvals Samples.paused_state.2 !! "uuid-0"
    = Some 0%nat.
Proof. repeat split; vm_compute; reflexivity. Qed.

Example approve_completes_workflow :
  let x :=
    WorkflowEngine.get_exec 0%nat
      (WorkflowEngine.approve_step Samples.env "uuid-0" (Some "fine") None
         Samples.paused_state).1 in
  WorkflowExecution.status x = WorkflowStatus.COMPLETED ∧
  WorkflowExecution.current_step_index x = 3 ∧
  is_Some (WorkflowExecution.step_results x !! "step-1") ∧
  is_Some (WorkflowExecution.step_results x !! "step-3") ∧
  is_Some (WorkflowExecution.step_results x !! "approval_1").
Proof. vm_compute. repeat split; eexists; reflexivity. Qed.

Example reject_rewinds_workflow :
  let x :=
    WorkflowEngine.get_exec 0%nat
      (WorkflowEngine.reject_step Samples.env "uuid-0" "redo" None
         Samples.paused_state).1 in
  WorkflowExecution.status x = WorkflowStatus.WAITING_APPROVAL ∧
  WorkflowExecution.current_step_index x = 1 ∧
  WorkflowExecution.context x !! "review_user_stories_feedback"
    = Some (PStr "redo").
Proof. vm_compute. repeat split; reflexivity. Qed.

(** ** Workflow engine: the loop of [_run_workflow] runs to its end *)

(** Induction on steps through their sub-steps. *)
Lemma WorkflowStep_nested_ind (P : WorkflowStep.t → Prop) :
  (∀ step, Forall P (WorkflowStep.sub_steps step) → P step) →
  ∀ step, P step.
Proof.
  intros H. fix IH 1. intros step. apply H.
  destruct step as [? ? ? ? ? ? ? ? subs ? ? ? ?]. simpl.
  induction subs as [|s subs IHsubs]; constructor; [apply IH|apply IHsubs].
Qed.

Lemma keeps_position_refl st : keeps_position st st.
Proof. by intros r. Qed.

Lemma keeps_position_trans st1 st2 st3 :
  keeps_position st1 st2 → keeps_position st2 st3 → keeps_position st1 st3.
Proof.
  intros H12 H23 r. destruct (H12 r) as [H1 H2]. destruct (H23 r) as [H3 H4].
  split; congruence.
Qed.

Lemma keeps_position_emit ev st :
  keeps_position st (WorkflowEngine._emit_event ev st).
Proof. by destruct st as [w self]. Qed.

Lemma keeps_position_upd_exec e f st :
  (∀ x, WorkflowExecution.current_step_index (f x)
          = WorkflowExecution.current_step_index x ∧
        WorkflowExecution.execution_id (f x)
          = WorkflowExecution.execution_id x) →
  keeps_position st (WorkflowEngine.upd_exec e f st).
Proof.
  intros Hf r. destruct st as [w self]. unfold WorkflowEngine.get_exec.
  simpl. destruct (decide (r = e)) as [->|Hne].
  - rewrite fn_lookup_insert. apply Hf.
  - by rewrite fn_lookup_insert_ne.
Qed.

Lemma keeps_position_agent_step env e step st :
  keeps_position st (WorkflowEngine._execute_agent_step env e step st).1.
Proof.
  unfold WorkflowEngine._execute_agent_step. destruct st as [w self].
  destruct (match WorkflowStep.agent_type step with
            | Some ty => _
            | None => Ok None
            end) as [[agent|]|ex];
    [|apply keeps_position_refl|apply keeps_position_refl].
  cbn [read_uuid read_clock alloc_task].
  destruct (Agent.execute_task _ _ _ _) as [w' r]. by intros r'.
Qed.

Lemma keeps_position_review_step env e step st :
  keeps_position st (WorkflowEngine._execute_human_review_step env e step st).1.
Proof.
  unfold WorkflowEngine._execute_human_review_step.
  destruct (WorkflowEngine.upd_exec e _ st) as [w self] eqn:Hst.
  cbn [read_clock fst].
  apply (keeps_position_trans _ (w, self)).
  - rewrite <- Hst. by apply keeps_position_upd_exec.
  - apply (keeps_position_trans _ (tick w, self)); [by intros r|].
    by apply keeps_position_upd_exec.
Qed.

Lemma keeps_position_finish e step st r :
  keeps_position st
    (match r with
     | Ok result =>
         let st :=
           WorkflowEngine.upd_exec e
             (fun x =>
                WorkflowExecution.set_context
                  (WorkflowEngine.apply_output_mapping
                     (WorkflowStep.output_mapping step) result
                     (WorkflowExecution.context x))
                  x)
             st in
         let st := WorkflowEngine._emit_event "step_completed" st in
         (st, Ok result)
     | Raise ex =>
         let st := WorkflowEngine._emit_event "step_failed" st in
         if String.eqb (WorkflowStep.on_failure step) "skip" then
           (st,
            Ok (PDict (list_to_map [("skipped", PBool true);
                                    ("error", PStr (exn_msg ex))])))
         else if String.eqb (WorkflowStep.on_failure step) "retry" then
           (st, Ok PNone)
         else
           let st := WorkflowEngine.upd_exec e
                       (fun x =>
                          WorkflowExecution.set_error (Some (exn_msg ex))
                            (WorkflowExecution.set_status
                               WorkflowStatus.FAILED x))
                       st in
           (st, Raise ex)
     end : WorkflowEngine.state * res pyval).1.
Proof.
  destruct r as [result|ex]; cbv zeta.
  - cbn [fst].
    eapply keeps_position_trans; [|apply keeps_position_emit].
    by apply keeps_position_upd_exec.
  - destruct (String.eqb _ "skip"); [apply keeps_position_emit|].
    destruct (String.eqb _ "retry"); [apply keeps_position_emit|].
    cbn [fst].
    eapply keeps_position_trans; [apply keeps_position_emit|].
    by apply keeps_position_upd_exec.
Qed.

Lemma keeps_position_execute_step env e : ∀ step st,
  keeps_position st (WorkflowEngine._execute_step env e step st).1.
Proof.
  induction step as [step IH] using WorkflowStep_nested_ind. intros st.
  destruct step as [sid nm ty aty tty im om cond subs rc ts onf md].
  cbn [WorkflowStep.sub_steps] in IH.
  cbn [WorkflowEngine._execute_step].
  set (step := WorkflowStep.mk sid nm ty aty tty im om cond subs rc ts onf md).
  match goal with
  | |- keeps_position _ (let '(_, _) := ?mid in _).1 =>
      remember mid as m eqn:Hm
  end.
  assert (keeps_position st m.1) as Hmid; [subst m|clear Hm; destruct m as [st1 r]].
  - eapply keeps_position_trans; [apply (keeps_position_emit "step_started")|].
    generalize (WorkflowEngine._emit_event "step_started" st).
    intros st'. destruct ty.
    + apply keeps_position_agent_step.
    + (* parallel *)
      assert (∀ st0 res0,
                keeps_position st0
                  ((fix parallel (l : list WorkflowStep.t)
                        (st : WorkflowEngine.state) (results : pydict)
                      : WorkflowEngine.state * pydict :=
                      match l with
                      | [] => (st, results)
                      | sub_step :: l' =>
                          let '(st, r) :=
                            WorkflowEngine._execute_step env e sub_step st in
                          parallel l' st
                            (<[WorkflowStep.step_id sub_step :=
                                 match r with
                                 | Ok result => result
                                 | Raise e =>
                                     PDict {["error" := PStr (exn_msg e)]}
                                 end]> results)
                      end) subs st0 res0).1) as Hpar.
      { clear step. induction subs as [|s subs IHsubs]; intros st0 res0.
        - apply keeps_position_refl.
        - apply Forall_cons in IH as [Hs Hsubs].
          specialize (Hs st0).
          destruct (WorkflowEngine._execute_step env e s st0) as [st1 r1].
          eapply keeps_position_trans; [exact Hs|]. by apply IHsubs. }
      specialize (Hpar st' ∅).
      match goal with
      | H : keeps_position st' (?t).1 |- _ => destruct t as [st1 results]
      end.
      exact Hpar.
    + (* conditional *)
      destruct (match cond with
                | Some c => _
                | None => false
                end); [|apply keeps_position_refl].
      generalize (∅ : pydict). revert st'. clear step.
      induction subs as [|s subs IHsubs]; intros st0 res0.
      * apply keeps_position_refl.
      * apply Forall_cons in IH as [Hs Hsubs].
        specialize (Hs st0).
        destruct (WorkflowEngine._execute_step env e s st0) as [st1 r1].
        destruct r1 as [result|ex]; [|exact Hs].
        eapply keeps_position_trans; [exact Hs|]. by apply IHsubs.
    + apply keeps_position_review_step.
    + apply keeps_position_refl.
    + apply keeps_position_refl.
  - cbn [fst] in Hmid.
    eapply keeps_position_trans; [exact Hmid|].
    apply (keeps_position_finish e step st1 r).
Qed.

(** The rounds allotted to the loop are never used up: with any larger
    allotment the loop does the same. *)
Lemma run_loop_fuel env e wf : ∀ (n : nat) st,
  Z.of_nat (length (Workflow.steps wf))
    - WorkflowExecution.current_step_index (WorkflowEngine.get_exec e st)
    < Z.of_nat n →
  ∀ m : nat, (n ≤ m)%nat →
    WorkflowEngine.run_loop env e wf n st = WorkflowEngine.run_loop env e wf m st.
Proof.
  induction n as [|n IH]; intros st Hn m Hm.
  - destruct m as [|m]; [done|]. cbn [WorkflowEngine.run_loop].
    destruct (_ <? _) eqn:E; [lia|done].
  - destruct m as [|m]; [lia|]. cbn [WorkflowEngine.run_loop].
    destruct (_ <? _) eqn:E; [|done].
    destruct (py_index _ _) as [step|ex]; [|done].
    pose proof (keeps_position_execute_step env e step st e) as [Hidx _].
    destruct (WorkflowEngine._execute_step env e step st) as [st1 r].
    cbn [fst] in Hidx.
    destruct r as [result|ex]; [|done].
    destruct (decide _); [done|]. destruct (decide _); [done|].
    apply IH; [|lia].
    rewrite !get_exec_upd_exec.
    cbn [WorkflowExecution.set_current_step_index
         WorkflowExecution.set_step_results
         WorkflowExecution.current_step_index].
    rewrite Hidx. lia.
Qed.

Lemma run_workflow_fuel_enough env e wf st (m : nat) :
  let fuel :=
    S (Z.to_nat (Z.of_nat (length (Workflow.steps wf))
                 - WorkflowExecution.current_step_index
                     (WorkflowEngine.get_exec e st))) in
  (fuel ≤ m)%nat →
  WorkflowEngine.run_loop env e wf fuel st
  = WorkflowEngine.run_loop env e wf m st.
Proof. intros fuel Hm. apply run_loop_fuel; lia. Qed.

(** ** Task queue: the state a [dequeue] leaves, in every reachable state *)

(** A store that agrees with [σ] on priorities and creation times gives the
    same heaps of items. *)
Lemma queue_heaps_ok_store σ σ' q :
  (∀ r, AgentTask.priority (σ' r) = AgentTask.priority (σ r) ∧
        AgentTask.created_at (σ' r) = AgentTask.created_at (σ r)) →
  queue_heaps_ok σ q → queue_heaps_ok σ' q.
Proof.
  intros Hσ [[Hq Hqi] Hty].
  assert (∀ h, Forall (item_of_task σ) h → Forall (item_of_task σ') h) as Hit.
  { intros h Hh. eapply Forall_impl; [exact Hh|].
    intros it [Hp Ht]. destruct (Hσ (PriorityQueueItem.task it)) as [Hp' Ht'].
    split; [by rewrite Hp'|by rewrite Ht']. }
  split; [split; [done|by apply Hit]|].
  intros ty h Hh. destruct (Hty ty h Hh) as [Hok Hi]. split; [done|by apply Hit].
Qed.

Lemma cancel_task_keeps_keys now σ q tid r :
  AgentTask.priority ((InMemoryTaskQueue.cancel_task now σ q tid).1.1 r)
    = AgentTask.priority (σ r) ∧
  AgentTask.created_at ((InMemoryTaskQueue.cancel_task now σ q tid).1.1 r)
    = AgentTask.created_at (σ r).
Proof.
  unfold InMemoryTaskQueue.cancel_task.
  destruct (_ !! tid) as [task|]; [|done]. cbn [fst].
  destruct (decide (r = task)) as [->|Hne].
  - by rewrite fn_lookup_insert.
  - by rewrite fn_lookup_insert_ne.
Qed.

Lemma cancel_task_heaps now σ q tid :
  InMemoryTaskQueue._queue (InMemoryTaskQueue.cancel_task now σ q tid).1.2
    = InMemoryTaskQueue._queue q ∧
  InMemoryTaskQueue._type_queues (InMemoryTaskQueue.cancel_task now σ q tid).1.2
    = InMemoryTaskQueue._type_queues q.
Proof.
  unfold InMemoryTaskQueue.cancel_task. by destruct (_ !! tid) as [task|].
Qed.

Lemma cancel_task_heaps_ok now σ q tid :
  queue_heaps_ok σ q →
  queue_heaps_ok (InMemoryTaskQueue.cancel_task now σ q tid).1.1
    (InMemoryTaskQueue.cancel_task now σ q tid).1.2.
Proof.
  intros Hq.
  apply (queue_heaps_ok_store σ); [apply cancel_task_keeps_keys|].
  destruct (cancel_task_heaps now σ q tid) as [H1 H2].
  destruct Hq as [Hm Hty]. split.
  - by rewrite H1.
  - intros ty h. rewrite H2. apply Hty.
Qed.

Lemma retry_task_heaps_ok σ q tid :
  queue_heaps_ok σ q →
  queue_heaps_ok (InMemoryTaskQueue.retry_task σ q tid).1.1
    (InMemoryTaskQueue.retry_task σ q tid).1.2.
Proof.
  intros Hq. unfold InMemoryTaskQueue.retry_task.
  destruct (_ !! tid) as [task|]; [|done]. cbn [fst snd].
  apply enqueue_heaps_ok.
  eapply (queue_heaps_ok_store σ).
  - intros r. destruct (decide (r = task)) as [->|Hne].
    + by rewrite fn_lookup_insert.
    + by rewrite fn_lookup_insert_ne.
  - exact Hq.
Qed.

Lemma update_task_heaps σ q task :
  InMemoryTaskQueue._queue (InMemoryTaskQueue.update_task σ q task)
    = InMemoryTaskQueue._queue q ∧
  InMemoryTaskQueue._type_queues (InMemoryTaskQueue.update_task σ q task)
    = InMemoryTaskQueue._type_queues q.
Proof.
  unfold InMemoryTaskQueue.update_task.
  destruct (InMemoryTaskQueue.remove_first_bucket _ _ _ _ _) as [[[p r] c] f].
  by repeat (destruct (String.eqb _ _)).
Qed.

Lemma update_task_heaps_ok σ q task :
  queue_heaps_ok σ q → queue_heaps_ok σ (InMemoryTaskQueue.update_task σ q task).
Proof.
  intros [Hm Hty]. destruct (update_task_heaps σ q task) as [H1 H2]. split.
  - by rewrite H1.
  - intros ty h. rewrite H2. apply Hty.
Qed.

Lemma step_heaps_ok σ q o :
  queue_heaps_ok σ q →
  queue_heaps_ok (InMemoryTaskQueue.step (σ, q) o).1.1
    (InMemoryTaskQueue.step (σ, q) o).1.2.
Proof.
  intros Hq. destruct o as [task|ty|task|tid|now tid];
    cbn [InMemoryTaskQueue.step].
  - by apply enqueue_heaps_ok.
  - destruct (InMemoryTaskQueue.dequeue σ q ty) as [q' res] eqn:Hdq.
    by destruct (dequeue_spec σ q ty q' res Hq Hdq) as [Hq' _].
  - by apply update_task_heaps_ok.
  - pose proof (retry_task_heaps_ok σ q tid Hq) as H.
    by destruct (InMemoryTaskQueue.retry_task σ q tid) as [[σ' q'] b].
  - pose proof (cancel_task_heaps_ok now σ q tid Hq) as H.
    by destruct (InMemoryTaskQueue.cancel_task now σ q tid) as [[σ' q'] b].
Qed.

(** Every sequence of calls keeps the heaps of the queue heaps of items
    that carry the priority and creation time of their tasks. *)
Lemma run_heaps_ok ops : ∀ σ q,
  queue_heaps_ok σ q →
  queue_heaps_ok (InMemoryTaskQueue.run (σ, q) ops).1.1
    (InMemoryTaskQueue.run (σ, q) ops).1.2.
Proof.
  induction ops as [|o ops IH]; intros σ q Hq; cbn [InMemoryTaskQueue.run].
  - done.
  - pose proof (step_heaps_ok σ q o Hq) as Hstep.
    destruct (InMemoryTaskQueue.step (σ, q) o) as [[σ1 q1] r].
    specialize (IH σ1 q1 Hstep).
    by destruct (InMemoryTaskQueue.run (σ1, q1) ops) as [[σ2 q2] rs].
Qed.

(** What the loop of [dequeue] does to the dictionaries. *)
Lemma dequeue_loop_moves σ fuel : ∀ queue pending running queue' p' r' res,
  InMemoryTaskQueue.dequeue_loop σ fuel queue pending running
    = (queue', p', r', res) →
  match res with
  | Some t =>
      is_Some (pending !! AgentTask.task_id (σ t)) ∧
      p' = delete (AgentTask.task_id (σ t)) pending ∧
      r' = <[AgentTask.task_id (σ t) := t]> running
  | None => p' = pending ∧ r' = running
  end.
Proof.
  induction fuel as [|fuel IH]; intros queue pending running queue' p' r' res;
    cbn [InMemoryTaskQueue.dequeue_loop].
  - by intros [= <- <- <- <-].
  - destruct (heapq.heappop _ queue) as [[item q1]|].
    + destruct (decide _) as [Hp|Hp].
      * by intros [= <- <- <- <-].
      * apply IH.
    + by intros [= <- <- <- <-].
Qed.

(** X1. In every state that calls of [enqueue], [dequeue], [update_task],
    [retry_task] and [cancel_task] can reach from the empty queue, a
    [dequeue] that returns a task [t] found its id pending, has moved it
    from the pending to the running dictionary, and no item left in the heap
    it worked on is more urgent than [t] (by priority number, then creation
    time); a [dequeue] that returns [None] has emptied the heap it worked on
    and left both dictionaries alone. *)
Theorem dequeue_in_reachable_state (σ0 : store AgentTask.t)
    (ops : list InMemoryTaskQueue.op) (ty : option string) :
  let σ := (InMemoryTaskQueue.run (σ0, InMemoryTaskQueue.init) ops).1.1 in
  let q := (InMemoryTaskQueue.run (σ0, InMemoryTaskQueue.init) ops).1.2 in
  let q' := (InMemoryTaskQueue.dequeue σ q ty).1 in
  let heap' :=
    InMemoryTaskQueue.chosen_queue q' (InMemoryTaskQueue.dequeue_key q ty) in
  match (InMemoryTaskQueue.dequeue σ q ty).2 with
  | Some t =>
      is_Some (InMemoryTaskQueue._pending_tasks q !! AgentTask.task_id (σ t)) ∧
      InMemoryTaskQueue._pending_tasks q'
        = delete (AgentTask.task_id (σ t)) (InMemoryTaskQueue._pending_tasks q) ∧
      InMemoryTaskQueue._running_tasks q'
        = <[AgentTask.task_id (σ t) := t]> (InMemoryTaskQueue._running_tasks q) ∧
      Forall (fun y => task_le σ t (PriorityQueueItem.task y)) heap'
  | None =>
      heap' = [] ∧
      InMemoryTaskQueue._pending_tasks q' = InMemoryTaskQueue._pending_tasks q ∧
      InMemoryTaskQueue._running_tasks q' = InMemoryTaskQueue._running_tasks q
  end.
Proof.
  intros σ q q' heap'.
  assert (queue_heaps_ok σ q) as Hq.
  { apply run_heaps_ok, queue_heaps_ok_init. }
  destruct (InMemoryTaskQueue.dequeue σ q ty) as [q1 res] eqn:Hdq.
  destruct (dequeue_spec σ q ty q1 res Hq Hdq) as (Hq1 & Hkey & Hsub & Hres).
  subst q' heap'. cbn [fst snd].
  destruct (chosen_queue_ok σ q (InMemoryTaskQueue.dequeue_key q ty) Hq)
    as [Hok Hitems].
  revert Hdq. unfold InMemoryTaskQueue.dequeue.
  destruct (InMemoryTaskQueue.dequeue_loop _ _ _ _ _) as [[[queue p] r] res0]
    eqn:Hloop.
  intros [= <- <-].
  pose proof (dequeue_loop_moves _ _ _ _ _ _ _ _ _ Hloop) as Hmoves.
  destruct res0 as [t|].
  - destruct Hmoves as (Hp & -> & ->). split; [done|]. split; [done|].
    split; [done|].
    destruct (Hres t eq_refl) as (item & Htask & Hin & Hmin).
    apply Forall_forall. intros y Hy. rewrite <- Htask.
    apply item_le_task_le.
    + by apply (proj1 (Forall_forall _ _) Hitems).
    + apply (proj1 (Forall_forall _ _) Hitems). by apply Hsub.
    + by apply Hmin.
  - destruct Hmoves as [-> ->]. split; [|done].
    apply (dequeue_loop_exhausts σ) in Hloop; [|done|done].
    subst queue. destruct (InMemoryTaskQueue.dequeue_key q ty) as [k|]; simpl.
    + by rewrite lookup_insert_eq.
    + done.
Qed.

(** ** Task queue: a task is handed out once *)

(** X2. Once [dequeue] has returned a task, no later call returns a task
    with that id, whatever calls follow and whichever heaps (main or per
    type) they work on, unless one of them puts the id back among the
    pending tasks: [enqueue] of a task with that id, [update_task] of one
    with status ["pending"], or [retry_task] of a failed one. *)
Theorem dequeued_task_not_returned_again (σ : store AgentTask.t)
    (q : InMemoryTaskQueue.t) (ty : option string) (t : ref)
    (ops : list InMemoryTaskQueue.op) :
  (InMemoryTaskQueue.dequeue σ q ty).2 = Some t →
  keeps_out (AgentTask.task_id (σ t))
    (σ, (InMemoryTaskQueue.dequeue σ q ty).1) ops = true →
  Forall (fun r => AgentTask.task_id (σ r) ≠ AgentTask.task_id (σ t))
    (returned
       (InMemoryTaskQueue.run (σ, (InMemoryTaskQueue.dequeue σ q ty).1) ops).2).
Proof.
  intros Hres Hops. apply Forall_forall. intros r Hr.
  refine (never_returned σ (AgentTask.task_id (σ t)) ops σ _ _ _ Hops r Hr).
  - done.
  - revert Hres. unfold InMemoryTaskQueue.dequeue.
    destruct (InMemoryTaskQueue.dequeue_loop _ _ _ _ _)
      as [[[queue p] r'] res0] eqn:Hloop.
    cbn [fst snd]. intros ->.
    destruct (dequeue_loop_moves _ _ _ _ _ _ _ _ _ Hloop) as (_ & -> & _).
    simpl. apply lookup_delete_eq.
Qed.

Lemma dequeued_task_not_returned_again_witness :
  Forall (fun r => AgentTask.task_id (Samples.tasks r)
                   ≠ AgentTask.task_id (Samples.tasks 4%nat))
    (returned
       (InMemoryTaskQueue.run
          (Samples.tasks,
           (InMemoryTaskQueue.dequeue Samples.tasks
              (InMemoryTaskQueue.run (Samples.tasks, InMemoryTaskQueue.init)
                 [InMemoryTaskQueue.Enqueue 0%nat;
                  InMemoryTaskQueue.Enqueue 4%nat]).1.2 None).1)
          [InMemoryTaskQueue.Dequeue None; InMemoryTaskQueue.RetryTask "t0";
           InMemoryTaskQueue.UpdateTask 0%nat; InMemoryTaskQueue.Dequeue None;
           InMemoryTaskQueue.Enqueue 1%nat;
           InMemoryTaskQueue.Dequeue (Some "ba")]).2).
Proof.
  apply (dequeued_task_not_returned_again Samples.tasks
           (InMemoryTaskQueue.run (Samples.tasks, InMemoryTaskQueue.init)
              [InMemoryTaskQueue.Enqueue 0%nat;
               InMemoryTaskQueue.Enqueue 4%nat]).1.2 None 4%nat).
  - vm_compute. reflexivity.
  - vm_compute. reflexivity.
Defined.

(** ** Task queue: work that was put in comes out *)

(** The loop of [dequeue] finds a task as soon as the heap holds an item
    whose task is pending, and a task no less urgent than that one. *)
Lemma dequeue_loop_finds σ fuel : ∀ queue pending running item,
  (length queue ≤ fuel)%nat →
  heap_ok PriorityQueueItem.lt queue →
  Forall (item_of_task σ) queue →
  item ∈ queue →
  is_Some (pending !! AgentTask.task_id (σ (PriorityQueueItem.task item))) →
  ∃ t, (InMemoryTaskQueue.dequeue_loop σ fuel queue pending running).2 = Some t ∧
       task_le σ t (PriorityQueueItem.task item).
Proof.
  induction fuel as [|fuel IH];
    intros queue pending running item Hlen Hok Hitems Hin Hp.
  - destruct queue; [by apply elem_of_nil in Hin|simpl in Hlen; lia].
  - cbn [InMemoryTaskQueue.dequeue_loop].
    destruct (heapq.heappop _ queue) as [[it q1]|] eqn:Hpop.
    + destruct (heappop_ok _ item_lt_asym item_lt_negtrans _ _ _ Hok Hpop)
        as (Hok1 & Hin1 & Hmin1 & Hsub1 & Hl).
      pose proof (heappop_Permutation PriorityQueueItem.lt _ _ _ Hpop) as Hperm.
      destruct (decide _) as [Hit|Hit].
      * exists (PriorityQueueItem.task it). split; [done|].
        apply item_le_task_le.
        -- by apply (proj1 (Forall_forall _ _) Hitems).
        -- by apply (proj1 (Forall_forall _ _) Hitems).
        -- by apply Hmin1.
      * apply (IH q1 pending running item).
        -- lia.
        -- done.
        -- apply Forall_forall. intros y Hy.
           apply (proj1 (Forall_forall _ _) Hitems). by apply Hsub1.
        -- rewrite <- Hperm in Hin.
           apply elem_of_cons in Hin as [->|Hin]; [|done]. by destruct Hit.
        -- done.
    + apply (heappop_None PriorityQueueItem.lt) in Hpop. subst queue.
      by apply elem_of_nil in Hin.
Qed.

(** After [enqueue], an untyped [dequeue] returns a task, and one that is
    no less urgent than the task enqueued. *)
Lemma enqueue_then_dequeue σ q task :
  queue_heaps_ok σ q →
  ∃ t, (InMemoryTaskQueue.dequeue σ (InMemoryTaskQueue.enqueue σ q task).1
          None).2 = Some t ∧
       task_le σ t task.
Proof.
  intros Hq.
  pose proof (enqueue_heaps_ok σ q task Hq) as Hq1.
  set (item := PriorityQueueItem.mk
                 (MessagePriority.value (AgentTask.priority (σ task)))
                 (AgentTask.created_at (σ task)) task).
  assert (item ∈ InMemoryTaskQueue._queue (InMemoryTaskQueue.enqueue σ q task).1)
    as Hin.
  { unfold InMemoryTaskQueue.enqueue. cbn [fst].
    cbn [InMemoryTaskQueue._trigger_callbacks InMemoryTaskQueue._queue].
    rewrite heappush_Permutation. left. }
  assert (InMemoryTaskQueue._pending_tasks
            (InMemoryTaskQueue.enqueue σ q task).1 !! AgentTask.task_id (σ task)
          = Some task) as Hpend.
  { unfold InMemoryTaskQueue.enqueue. cbn [fst].
    cbn [InMemoryTaskQueue._trigger_callbacks InMemoryTaskQueue._pending_tasks].
    apply lookup_insert_eq. }
  destruct (chosen_queue_ok σ _ None Hq1) as [Hok Hitems].
  cbn [InMemoryTaskQueue.chosen_queue] in Hok, Hitems.
  destruct (dequeue_loop_finds σ _ _
              (InMemoryTaskQueue._pending_tasks
                 (InMemoryTaskQueue.enqueue σ q task).1)
              (InMemoryTaskQueue._running_tasks
                 (InMemoryTaskQueue.enqueue σ q task).1)
              item (le_n _) Hok Hitems Hin (ex_intro _ task Hpend))
    as (t & Ht & Hle).
  exists t. split; [|exact Hle].
  unfold InMemoryTaskQueue.dequeue.
  cbn [InMemoryTaskQueue.dequeue_key InMemoryTaskQueue.chosen_queue].
  destruct (InMemoryTaskQueue.dequeue_loop _ _ _ _ _) as [[[queue p] r] res0].
  exact Ht.
Qed.

(** X3. In every reachable state, [retry_task] on an id that is not in the
    failed dictionary returns [False] and changes nothing; on a failed task
    it returns [True], resets the task object (status ["pending"], no
    result, no start or completion time), moves it from the failed to the
    pending dictionary, counts one more enqueued task, and the next untyped
    [dequeue] returns a task that is no less urgent than the retried one. *)
Theorem retry_task_requeues (σ0 : store AgentTask.t)
    (ops : list InMemoryTaskQueue.op) (tid : string) :
  let σ := (InMemoryTaskQueue.run (σ0, InMemoryTaskQueue.init) ops).1.1 in
  let q := (InMemoryTaskQueue.run (σ0, InMemoryTaskQueue.init) ops).1.2 in
  let σ' := (InMemoryTaskQueue.retry_task σ q tid).1.1 in
  let q' := (InMemoryTaskQueue.retry_task σ q tid).1.2 in
  match InMemoryTaskQueue._failed_tasks q !! tid with
  | None => InMemoryTaskQueue.retry_task σ q tid = (σ, q, false)
  | Some task =>
      (InMemoryTaskQueue.retry_task σ q tid).2 = true ∧
      σ' task
        = AgentTask.set_completed_at None
            (AgentTask.set_started_at None
               (AgentTask.set_result None
                  (AgentTask.set_status "pending" (σ task)))) ∧
      (∀ r, r ≠ task → σ' r = σ r) ∧
      InMemoryTaskQueue._failed_tasks q' !! tid = None ∧
      InMemoryTaskQueue._pending_tasks q' !! AgentTask.task_id (σ task)
        = Some task ∧
      InMemoryTaskQueue.total_enqueued (InMemoryTaskQueue._metrics q')
        = InMemoryTaskQueue.total_enqueued (InMemoryTaskQueue._metrics q) + 1 ∧
      ∃ t, (InMemoryTaskQueue.dequeue σ' q' None).2 = Some t ∧
           task_le σ' t task
  end.
Proof.
  intros σ q σ' q'.
  assert (queue_heaps_ok σ q) as Hq.
  { apply run_heaps_ok, queue_heaps_ok_init. }
  subst σ' q'. unfold InMemoryTaskQueue.retry_task.
  destruct (InMemoryTaskQueue._failed_tasks q !! tid) as [task|] eqn:Hf;
    [|done].
  cbn [fst snd].
  set (tk := AgentTask.set_completed_at None _).
  set (σ1 := <[task := tk]> σ).
  set (q1 := InMemoryTaskQueue.mk _ _ _ _ _ _ _ _ _).
  assert (queue_heaps_ok σ1 q1) as Hq1.
  { apply (queue_heaps_ok_store σ).
    - intros r. subst σ1. destruct (decide (r = task)) as [->|Hne].
      + by rewrite fn_lookup_insert.
      + by rewrite fn_lookup_insert_ne.
    - destruct Hq as [Hm Hty]. by split. }
  split; [done|]. split; [by subst σ1; rewrite fn_lookup_insert|].
  split; [by intros r Hr; subst σ1; rewrite fn_lookup_insert_ne|].
  assert (AgentTask.task_id (σ1 task) = AgentTask.task_id (σ task)) as Hid.
  { subst σ1. by rewrite fn_lookup_insert. }
  split; [|split; [|split]].
  - unfold InMemoryTaskQueue.enqueue. simpl. apply lookup_delete_eq.
  - unfold InMemoryTaskQueue.enqueue. simpl. rewrite Hid.
    apply lookup_insert_eq.
  - unfold InMemoryTaskQueue.enqueue. simpl. done.
  - apply enqueue_then_dequeue. exact Hq1.
Qed.

(** ** The builtin [sorted]: a stable sort *)

Section Sorted.
Context {A : Type} (le : A → A → bool).

Lemma sort_insert_Permutation x (l : list A) : sort_insert le x l ≡ₚ x :: l.
Proof.
  induction l as [|y l IH]; cbn [sort_insert]; [done|].
  destruct (le x y); [done|]. rewrite IH. apply perm_swap.
Qed.

Lemma py_sorted_Permutation (l : list A) : py_sorted le l ≡ₚ l.
Proof.
  induction l as [|x l IH]; [done|].
  unfold py_sorted in *. cbn [foldr]. rewrite sort_insert_Permutation.
  by rewrite IH.
Qed.

Hypothesis le_total : ∀ a b, le a b = false → le b a = true.
Hypothesis le_trans : ∀ a b c, le a b = true → le b c = true → le a c = true.

Lemma sort_insert_sorted x (l : list A) :
  StronglySorted (fun a b => le a b = true) l →
  StronglySorted (fun a b => le a b = true) (sort_insert le x l).
Proof.
  induction l as [|y l IH]; cbn [sort_insert]; intros Hs.
  - repeat constructor.
  - apply StronglySorted_inv in Hs as [Hs Hy].
    destruct (le x y) eqn:E.
    + constructor; [by constructor|]. constructor; [done|].
      eapply Forall_impl; [exact Hy|]. intros z Hz. by eapply le_trans.
    + constructor; [by apply IH|].
      apply Forall_forall. intros z Hz.
      rewrite sort_insert_Permutation in Hz.
      apply elem_of_cons in Hz as [->|Hz]; [by apply le_total|].
      by apply (proj1 (Forall_forall _ _) Hy).
Qed.

Lemma py_sorted_sorted (l : list A) :
  StronglySorted (fun a b => le a b = true) (py_sorted le l).
Proof.
  induction l as [|x l IH]; [constructor|].
  unfold py_sorted in *. cbn [foldr]. by apply sort_insert_sorted.
Qed.

(** Stability: elements that are pairwise not above each other keep their
    order. *)
Lemma sort_insert_filter (P : A → bool) x (l : list A) :
  (∀ a b, P a = true → P b = true → le a b = true) →
  List.filter P (sort_insert le x l) = List.filter P (x :: l).
Proof.
  intros HP. induction l as [|y l IH]; cbn [sort_insert]; [done|].
  destruct (le x y) eqn:E; [done|].
  cbn [List.filter] in *. rewrite IH.
  destruct (P x) eqn:Ex; [|done]. destruct (P y) eqn:Ey; [|done].
  by rewrite (HP x y Ex Ey) in E.
Qed.

Lemma py_sorted_stable (P : A → bool) (l : list A) :
  (∀ a b, P a = true → P b = true → le a b = true) →
  List.filter P (py_sorted le l) = List.filter P l.
Proof.
  intros HP. induction l as [|x l IH]; [done|].
  unfold py_sorted in *. cbn [foldr]. rewrite sort_insert_filter by done.
  cbn [List.filter]. by rewrite IH.
Qed.
End Sorted.

Lemma StronglySorted_weaken {A} (R1 R2 : A → A → Prop) (l : list A) :
  (∀ a b, R1 a b → R2 a b) → StronglySorted R1 l → StronglySorted R2 l.
Proof.
  intros HR. induction 1 as [|a l Hs IH Ha]; constructor; [done|].
  eapply Forall_impl; [exact Ha|]. intros b. apply HR.
Qed.

(** ** Task queue: [get_pending_tasks] *)

Lemma key_le_total σ a b :
  InMemoryTaskQueue.key_le σ a b = false → InMemoryTaskQueue.key_le σ b a = true.
Proof. unfold InMemoryTaskQueue.key_le. lia. Qed.

Lemma key_le_trans σ a b c :
  InMemoryTaskQueue.key_le σ a b = true →
  InMemoryTaskQueue.key_le σ b c = true →
  InMemoryTaskQueue.key_le σ a c = true.
Proof. unfold InMemoryTaskQueue.key_le. lia. Qed.

Lemma key_le_task_le σ a b :
  InMemoryTaskQueue.key_le σ a b = true ↔ task_le σ a b.
Proof. unfold InMemoryTaskQueue.key_le, task_le. lia. Qed.

Lemma same_key_le σ t a b :
  same_key σ t a = true → same_key σ t b = true →
  InMemoryTaskQueue.key_le σ a b = true.
Proof. unfold same_key, InMemoryTaskQueue.key_le. lia. Qed.

(** X4. [get_pending_tasks] returns the pending tasks (those assigned to an
    agent whose id starts with [agent_type], when a non-empty [agent_type] is
    given), each as often as it is pending, sorted by priority number and
    then creation time; tasks with the same priority and creation time come
    in the order of the pending dictionary. *)
Theorem get_pending_tasks_sorted (σ : store AgentTask.t)
    (q : InMemoryTaskQueue.t) (values : list ref) (ty : option string) :
  values ≡ₚ (map_to_list (InMemoryTaskQueue._pending_tasks q)).*2 →
  let selected :=
    if truthy_ostr ty
    then List.filter (InMemoryTaskQueue.assigned_to σ (default "" ty)) values
    else values in
  let out := InMemoryTaskQueue.get_pending_tasks σ values ty in
  StronglySorted (task_le σ) out ∧
  out ≡ₚ selected ∧
  (∀ t, t ∈ out ↔
        (∃ tid, InMemoryTaskQueue._pending_tasks q !! tid = Some t) ∧
        (truthy_ostr ty = true →
         InMemoryTaskQueue.assigned_to σ (default "" ty) t = true)) ∧
  (∀ t, List.filter (same_key σ t) out = List.filter (same_key σ t) selected).
Proof.
  intros Hvalues selected out.
  assert (out = py_sorted (InMemoryTaskQueue.key_le σ) selected) as ->.
  { done. }
  assert (∀ t, t ∈ values ↔
               ∃ tid, InMemoryTaskQueue._pending_tasks q !! tid = Some t)
    as Hmem.
  { intros t. rewrite Hvalues, list_elem_of_fmap. split.
    - intros ([tid t'] & -> & Hin). exists tid.
      by apply elem_of_map_to_list in Hin.
    - intros [tid Hl]. exists (tid, t). split; [done|].
      by apply elem_of_map_to_list. }
  split; [|split; [|split]].
  - eapply StronglySorted_weaken; [|apply py_sorted_sorted].
    + intros a b Hab. by apply key_le_task_le.
    + apply key_le_total.
    + apply key_le_trans.
  - apply py_sorted_Permutation.
  - intros t. rewrite py_sorted_Permutation. subst selected.
    destruct (truthy_ostr ty).
    + rewrite list_elem_of_In, filter_In, <- list_elem_of_In, Hmem.
      split; intros [Hp Ha]; (split; [exact Hp|]); [by intros _|by apply Ha].
    + rewrite Hmem. split; [intros Hp; by split|by intros [Hp _]].
  - intros t. apply py_sorted_stable. intros a b. apply same_key_le.
Qed.

Lemma get_pending_tasks_sorted_witness :
  StronglySorted (task_le Samples.tasks)
    (InMemoryTaskQueue.get_pending_tasks Samples.tasks
       (map_to_list
          (InMemoryTaskQueue._pending_tasks
             (InMemoryTaskQueue.run (Samples.tasks, InMemoryTaskQueue.init)
                (InMemoryTaskQueue.Enqueue <$> [0; 1; 2; 3; 4]%nat)).1.2)).*2
       (Some "ba")).
Proof.
  apply (get_pending_tasks_sorted Samples.tasks
           (InMemoryTaskQueue.run (Samples.tasks, InMemoryTaskQueue.init)
              (InMemoryTaskQueue.Enqueue <$> [0; 1; 2; 3; 4]%nat)).1.2
           _ (Some "ba")).
  reflexivity.
Defined.

Example get_pending_tasks_example :
  InMemoryTaskQueue.get_pending_tasks Samples.tasks [0; 1; 2; 3; 4]%nat None
    = [3; 2; 1; 4; 0]%nat ∧
  InMemoryTaskQueue.get_pending_tasks Samples.tasks [0; 1; 2; 3; 4]%nat
    (Some "ba") = [1]%nat ∧
  InMemoryTaskQueue.get_pending_tasks Samples.tasks [0; 1; 2; 3; 4]%nat
    (Some "") = [3; 2; 1; 4; 0]%nat.
Proof. vm_compute. done. Qed.

(** ** Dependency tracker: the two indexes, and readiness *)

Lemma tracker_step_mirror tr o t d :
  (d ∈ default [] (DependencyTracker._dependencies tr !! t) ↔
   t ∈ DependencyTracker.get_dependents tr d) →
  (d ∈ default [] (DependencyTracker._dependencies
                     (DependencyTracker.step tr o) !! t) ↔
   t ∈ DependencyTracker.get_dependents (DependencyTracker.step tr o) d).
Proof.
  unfold DependencyTracker.get_dependents. intros H.
  destruct o as [t0 d0|x|]; cbn [DependencyTracker.step]; [|done|].
  - unfold DependencyTracker.add_dependency.
    cbn [DependencyTracker._dependencies DependencyTracker._dependents].
    destruct (decide (t0 = t)) as [->|Ht]; destruct (decide (d0 = d)) as [->|Hd];
      rewrite ?lookup_insert_eq, ?lookup_insert_ne by done;
      cbn [default from_option id]; rewrite ?elem_of_app, ?list_elem_of_singleton.
    + split; intros _; by right.
    + rewrite H. split; [|by left]. intros [Hin|Heq]; [done|congruence].
    + rewrite <- H. split; [by left|]. intros [Hin|Heq]; [done|congruence].
    + done.
  - unfold DependencyTracker.clear.
    cbn [DependencyTracker._dependencies DependencyTracker._dependents].
    rewrite !lookup_empty. cbn [default from_option id].
    split; intros Hx; by apply elem_of_nil in Hx.
Qed.

(** X5. However dependencies were added and tasks marked completed (or the
    tracker cleared), the two indexes of the tracker mirror each other:
    [get_dependents(d)] lists exactly the tasks in whose dependency list [d]
    was recorded. *)
Theorem tracker_dependents_mirror_dependencies
    (ops : list DependencyTracker.op) (t d : string) :
  let tr := DependencyTracker.run DependencyTracker.init ops in
  t ∈ DependencyTracker.get_dependents tr d ↔
  d ∈ default [] (DependencyTracker._dependencies tr !! t).
Proof.
  cbv zeta. symmetry. unfold DependencyTracker.run.
  assert (d ∈ default [] (DependencyTracker._dependencies
                            DependencyTracker.init !! t) ↔
          t ∈ DependencyTracker.get_dependents DependencyTracker.init d)
    as Hinit.
  { unfold DependencyTracker.get_dependents, DependencyTracker.init.
    cbn [DependencyTracker._dependencies DependencyTracker._dependents].
    rewrite !lookup_empty. cbn [default from_option id].
    split; intros Hx; by apply elem_of_nil in Hx. }
  revert Hinit. generalize DependencyTracker.init.
  induction ops as [|o ops IH]; intros tr Htr; cbn [foldl]; [done|].
  by apply IH, tracker_step_mirror.
Qed.

Lemma tracker_completed_grows ops : ∀ tr x,
  DependencyTracker.Clear ∉ ops →
  x ∈ DependencyTracker._completed tr ∨ DependencyTracker.MarkCompleted x ∈ ops →
  x ∈ DependencyTracker._completed (DependencyTracker.run tr ops).
Proof.
  unfold DependencyTracker.run.
  induction ops as [|o ops IH]; intros tr x Hclear Hx; cbn [foldl].
  - destruct Hx as [Hx|Hx]; [done|by apply elem_of_nil in Hx].
  - apply not_elem_of_cons in Hclear as [Ho Hclear].
    apply IH; [done|]. destruct Hx as [Hx|Hx].
    + left. destruct o as [t0 d0|y|]; cbn [DependencyTracker.step];
        [done| |done].
      unfold DependencyTracker.mark_completed. simpl. set_solver.
    + apply elem_of_cons in Hx as [<-|Hx]; [|by right].
      left. unfold DependencyTracker.step, DependencyTracker.mark_completed.
      simpl. set_solver.
Qed.

(** X6. Without a [clear] in between, the completed set only grows: once
    every dependency recorded for [t] has been marked completed (before or
    during a sequence of calls), [can_execute(t)] holds at the end and
    [get_ready_tasks] keeps [t]; the ready tasks always come in the order of
    the list given. *)
Theorem tracker_ready_once_dependencies_completed
    (tr : DependencyTracker.t) (ops : list DependencyTracker.op)
    (t : string) (pending : list string) :
  DependencyTracker.Clear ∉ ops →
  (∀ d, d ∈ default [] (DependencyTracker._dependencies
                          (DependencyTracker.run tr ops) !! t) →
        d ∈ DependencyTracker._completed tr ∨
        DependencyTracker.MarkCompleted d ∈ ops) →
  DependencyTracker.can_execute (DependencyTracker.run tr ops) t = true ∧
  (t ∈ pending →
   t ∈ DependencyTracker.get_ready_tasks (DependencyTracker.run tr ops) pending) ∧
  sublist (DependencyTracker.get_ready_tasks (DependencyTracker.run tr ops)
             pending) pending.
Proof.
  intros Hclear Hdeps.
  assert (DependencyTracker.can_execute (DependencyTracker.run tr ops) t = true)
    as Hcan.
  { apply can_execute_iff. intros d Hd.
    apply tracker_completed_grows; [done|]. by apply Hdeps. }
  split; [done|]. split.
  - intros Ht. unfold DependencyTracker.get_ready_tasks.
    apply list_elem_of_In, filter_In. split; [by apply list_elem_of_In|done].
  - unfold DependencyTracker.get_ready_tasks.
    generalize (DependencyTracker.can_execute (DependencyTracker.run tr ops)).
    intros f. induction pending as [|x l IH]; cbn [List.filter]; [done|].
    destruct (f x); [by apply sublist_skip|by apply sublist_cons].
Qed.

Lemma tracker_ready_once_dependencies_completed_witness :
  DependencyTracker.can_execute
    (DependencyTracker.run DependencyTracker.init
       [DependencyTracker.AddDependency "t4" "t0";
        DependencyTracker.AddDependency "t4" "t2";
        DependencyTracker.MarkCompleted "t2";
        DependencyTracker.AddDependency "t1" "t4";
        DependencyTracker.MarkCompleted "t0"]) "t4" = true.
Proof.
  apply (tracker_ready_once_dependencies_completed DependencyTracker.init
           [DependencyTracker.AddDependency "t4" "t0";
            DependencyTracker.AddDependency "t4" "t2";
            DependencyTracker.MarkCompleted "t2";
            DependencyTracker.AddDependency "t1" "t4";
            DependencyTracker.MarkCompleted "t0"] "t4" []).
  - intros H. repeat (apply elem_of_cons in H as [H|H]; [discriminate|]).
    by apply elem_of_nil in H.
  - intros d Hd. vm_compute in Hd. right.
    repeat (apply elem_of_cons in Hd as [->|Hd];
            [apply list_elem_of_In; vm_compute; tauto|]).
    by apply elem_of_nil in Hd.
Defined.

Example tracker_blocked_until_all_completed :
  DependencyTracker.get_ready_tasks
    (DependencyTracker.run DependencyTracker.init
       [DependencyTracker.AddDependency "t4" "t0";
        DependencyTracker.AddDependency "t4" "t2";
        DependencyTracker.MarkCompleted "t2"])
    ["t0"; "t2"; "t4"]
  = ["t0"; "t2"] ∧
  DependencyTracker.get_dependents
    (DependencyTracker.run DependencyTracker.init
       [DependencyTracker.AddDependency "t4" "t0";
        DependencyTracker.AddDependency "t1" "t0"]) "t0"
  = ["t4"; "t1"].
Proof. vm_compute. done. Qed.

(** ** Registry: [get_available_agent] *)

Lemma find_first {A} (f : A → bool) (l : list A) :
  match List.find f l with
  | Some a =>
      ∃ i : nat, l !! i = Some a ∧ f a = true ∧
        ∀ (j : nat) b, (j < i)%nat → l !! j = Some b → f b = false
  | None => ∀ b, b ∈ l → f b = false
  end.
Proof.
  induction l as [|x l IH]; cbn [List.find].
  - intros b Hb. by apply elem_of_nil in Hb.
  - destruct (f x) eqn:E.
    + exists 0%nat. split; [done|]. split; [done|]. intros j b Hj. lia.
    + destruct (List.find f l) as [a|].
      * destruct IH as (i & Hi & Ha & Hlt). exists (S i).
        split; [done|]. split; [done|]. intros [|j] b Hj; simpl.
        -- by intros [= <-].
        -- apply Hlt. lia.
      * intros b Hb. apply elem_of_cons in Hb as [->|Hb]; [done|by apply IH].
Qed.

Lemma filter_nil_iff {A} (f : A → bool) (l : list A) :
  List.filter f l = [] ↔ ∀ b, b ∈ l → f b = false.
Proof.
  induction l as [|x l IH]; cbn [List.filter].
  - split; [|done]. intros _ b Hb. by apply elem_of_nil in Hb.
  - destruct (f x) eqn:E.
    + split; [done|]. intros H. specialize (H x (list_elem_of_here _ _)).
      congruence.
    + rewrite IH. split.
      * intros H b Hb. apply elem_of_cons in Hb as [->|Hb]; [done|by apply H].
      * intros H b Hb. apply H. by right.
Qed.

(** X7. [get_available_agent] returns the first available agent in the
    order in which [get_agents_by_type] lists them (the order of
    registration), and [None] exactly when none of them is available, which
    is also exactly when [get_best_agent] returns [None]. *)
Theorem get_available_agent_first (σ : store BaseAgent.t)
    (reg : AgentRegistry.t) (ty : string) :
  match AgentRegistry.get_available_agent σ reg ty with
  | Some a =>
      ∃ i : nat,
        AgentRegistry.get_agents_by_type reg ty !! i = Some a ∧
        BaseAgent.is_available (σ a) = true ∧
        ∀ (j : nat) b, (j < i)%nat →
          AgentRegistry.get_agents_by_type reg ty !! j = Some b →
          BaseAgent.is_available (σ b) = false
  | None =>
      ∀ b, b ∈ AgentRegistry.get_agents_by_type reg ty →
           BaseAgent.is_available (σ b) = false
  end ∧
  (AgentRegistry.get_available_agent σ reg ty = None ↔
   AgentRegistry.get_best_agent σ reg ty = Ok None).
Proof.
  unfold AgentRegistry.get_available_agent. split.
  - apply (find_first (fun a => BaseAgent.is_available (σ a))).
  - rewrite get_best_agent_None. unfold candidates. rewrite filter_nil_iff.
    pose proof (find_first (fun a => BaseAgent.is_available (σ a))
                  (AgentRegistry.get_agents_by_type reg ty)) as H.
    destruct (List.find _ _) as [a|].
    + destruct H as (i & Hi & Ha & _). split; [done|]. intros Hall.
      apply list_elem_of_lookup_2 in Hi. specialize (Hall a Hi). congruence.
    + done.
Qed.

(** ** Registry: what is registered is listed *)

(** X8. After any sequence of [register_agent] and [unregister_agent] calls
    on an empty registry, none of the calls has raised (the [ValueError] of
    [list.remove] cannot occur), and every agent that [get_agent] finds is
    listed by [get_agents_by_type] under its own type and is stored under
    its own id. *)
Theorem registered_agents_are_listed (σ0 : store BaseAgent.t)
    (ops : list AgentRegistry.op) :
  let σ := (AgentRegistry.run (σ0, AgentRegistry.init) ops).1.1 in
  let reg := (AgentRegistry.run (σ0, AgentRegistry.init) ops).1.2 in
  Forall (fun r => r = Ok ())
    (AgentRegistry.run (σ0, AgentRegistry.init) ops).2 ∧
  ∀ aid a, AgentRegistry.get_agent reg aid = Some a →
    BaseAgent.agent_id (σ a) = aid ∧
    a ∈ AgentRegistry.get_agents_by_type reg (BaseAgent.agent_type (σ a)).
Proof.
  intros σ reg.
  destruct (registry_init_ok σ0) as [Hi1 Hi2].
  destruct (registry_run_ok ops σ0 AgentRegistry.init Hi1 Hi2)
    as (Hids & Hidx & Hres).
  split; [exact Hres|]. intros aid a Ha. split; [by apply Hids|].
  destruct (Hidx aid a Ha) as (ids & Hty & Hin).
  unfold AgentRegistry.get_agents_by_type. fold σ reg in Hty. rewrite Hty.
  cbn [default from_option id]. apply list_elem_of_omap. by exists aid.
Qed.

(** ** Registry: the type of the agents listed under a type *)

Lemma list_remove_subset x l l' y :
  list_remove x l = Some l' → y ∈ l' → y ∈ l.
Proof.
  revert l'. induction l as [|z l IH]; intros l'; [done|].
  cbn [list_remove]. destruct (decide (z = x)) as [->|Hne].
  - intros [= <-] Hy. by right.
  - destruct (list_remove x l) as [r|]; [|done]. intros [= <-] Hy.
    apply elem_of_cons in Hy as [->|Hy]; [by left|]. right. by apply (IH r).
Qed.

Lemma register_agent_types_ok σ S reg agent :
  agent ∈ S → registry_types_ok σ S reg →
  registry_types_ok (AgentRegistry.register_agent σ reg agent).1.1 S
    (AgentRegistry.register_agent σ reg agent).1.2.
Proof.
  intros HS [HJ HK].
  assert (∀ r, BaseAgent.agent_id
                 ((AgentRegistry.register_agent σ reg agent).1.1 r)
               = BaseAgent.agent_id (σ r) ∧
               BaseAgent.agent_type
                 ((AgentRegistry.register_agent σ reg agent).1.1 r)
               = BaseAgent.agent_type (σ r)) as Hst
    by (intros r; apply register_agent_store).
  split.
  - intros ty ids id Hty Hin.
    unfold AgentRegistry.register_agent in Hty. cbn [fst snd] in Hty.
    cbn [AgentRegistry._agent_types] in Hty.
    apply lookup_insert_Some in Hty as [[<- <-]|[Hne Hty]].
    + apply elem_of_app in Hin as [Hin|Hin].
      * destruct (AgentRegistry._agent_types reg
                    !! BaseAgent.agent_type (σ agent)) as [ids0|] eqn:E;
          [|by apply elem_of_nil in Hin].
        destruct (HJ _ _ _ E Hin) as (r0 & Hr0 & Hid & Hty0).
        exists r0. destruct (Hst r0) as [-> ->]. done.
      * apply list_elem_of_singleton in Hin as ->.
        exists agent. destruct (Hst agent) as [-> ->]. done.
    + destruct (HJ _ _ _ Hty Hin) as (r0 & Hr0 & Hid & Hty0).
      exists r0. destruct (Hst r0) as [-> ->]. done.
  - intros id r Hl.
    unfold AgentRegistry.register_agent in Hl. cbn [fst snd] in Hl.
    cbn [AgentRegistry._agents] in Hl. destruct (Hst r) as [-> _].
    apply lookup_insert_Some in Hl as [[<- <-]|[Hne Hl]]; [done|].
    by apply HK.
Qed.

Lemma unregister_agent_types_ok σ S reg id :
  registry_types_ok σ S reg →
  registry_types_ok σ S (AgentRegistry.unregister_agent σ reg id).1.
Proof.
  intros [HJ HK]. unfold AgentRegistry.unregister_agent.
  destruct (AgentRegistry._agents reg !! id) as [agent|] eqn:Ha; [|done].
  assert (∀ id' r, delete id (AgentRegistry._agents reg) !! id' = Some r →
                   r ∈ S ∧ BaseAgent.agent_id (σ r) = id') as HK'.
  { intros id' r Hl. apply lookup_delete_Some in Hl as [_ Hl]. by apply HK. }
  destruct (AgentRegistry._agent_types reg !! BaseAgent.agent_type (σ agent))
    as [ids|] eqn:Hty; [|done].
  destruct (list_remove id ids) as [ids'|] eqn:Hrm; [|done].
  split; [|exact HK']. cbn [fst AgentRegistry._agent_types].
  intros ty l id' Hl Hin. destruct ids' as [|z ids'].
  - apply lookup_delete_Some in Hl as [_ Hl]. by apply (HJ ty l).
  - apply lookup_insert_Some in Hl as [[<- <-]|[_ Hl]].
    + apply (HJ _ ids); [done|]. by apply (list_remove_subset id ids (z :: ids')).
    + by apply (HJ ty l).
Qed.

Lemma registry_run_types_ok S ops : ∀ σ reg,
  (∀ r, r ∈ registered ops → r ∈ S) →
  registry_types_ok σ S reg →
  registry_types_ok (AgentRegistry.run (σ, reg) ops).1.1 S
    (AgentRegistry.run (σ, reg) ops).1.2.
Proof.
  induction ops as [|o ops IH]; intros σ reg HS Hok;
    cbn [AgentRegistry.run]; [done|].
  assert (∃ σ1 reg1 r,
            AgentRegistry.step (σ, reg) o = (σ1, reg1, r) ∧
            registry_types_ok σ1 S reg1) as (σ1 & reg1 & r & Hstep & Hok1).
  { destruct o as [agent|id]; cbn [AgentRegistry.step].
    - assert (agent ∈ S) as Hin by (apply HS; left).
      pose proof (register_agent_types_ok σ S reg agent Hin Hok).
      destruct (AgentRegistry.register_agent σ reg agent) as [[σ1 reg1] s].
      eauto.
    - pose proof (unregister_agent_types_ok σ S reg id Hok).
      destruct (AgentRegistry.unregister_agent σ reg id) as [reg1 r]. eauto. }
  rewrite Hstep.
  assert (∀ r, r ∈ registered ops → r ∈ S) as HS'.
  { intros r' Hr'. apply HS. destruct o; [by right|done]. }
  specialize (IH σ1 reg1 HS' Hok1).
  by destruct (AgentRegistry.run (σ1, reg1) ops) as [[σ2 reg2] rs].
Qed.

Lemma registry_run_store ops : ∀ σ reg r,
  BaseAgent.agent_id ((AgentRegistry.run (σ, reg) ops).1.1 r)
    = BaseAgent.agent_id (σ r) ∧
  BaseAgent.agent_type ((AgentRegistry.run (σ, reg) ops).1.1 r)
    = BaseAgent.agent_type (σ r).
Proof.
  induction ops as [|o ops IH]; intros σ reg r; cbn [AgentRegistry.run];
    [done|].
  assert (∃ σ1 reg1 res,
            AgentRegistry.step (σ, reg) o = (σ1, reg1, res) ∧
            BaseAgent.agent_id (σ1 r) = BaseAgent.agent_id (σ r) ∧
            BaseAgent.agent_type (σ1 r) = BaseAgent.agent_type (σ r))
    as (σ1 & reg1 & res & Hstep & Hid & Hty).
  { destruct o as [agent|id]; cbn [AgentRegistry.step].
    - pose proof (register_agent_store σ reg agent r) as [H1 H2].
      destruct (AgentRegistry.register_agent σ reg agent) as [[σ1 reg1] s].
      eauto 10.
    - destruct (AgentRegistry.unregister_agent σ reg id) as [reg1 res].
      eauto 10. }
  rewrite Hstep. specialize (IH σ1 reg1 r).
  destruct (AgentRegistry.run (σ1, reg1) ops) as [[σ2 reg2] rs].
  cbn [fst snd] in *. by rewrite <- Hid, <- Hty.
Qed.

(** X9. If no two of the agent objects registered share an id while
    differing in type, then every agent that [get_agents_by_type(T)] returns
    has type [T], after any sequence of [register_agent] and
    [unregister_agent] calls on an empty registry. *)
Theorem get_agents_by_type_has_type (σ0 : store BaseAgent.t)
    (ops : list AgentRegistry.op) (ty : string) (a : ref) :
  ids_determine_types σ0 (registered ops) →
  a ∈ AgentRegistry.get_agents_by_type
        (AgentRegistry.run (σ0, AgentRegistry.init) ops).1.2 ty →
  BaseAgent.agent_type
    ((AgentRegistry.run (σ0, AgentRegistry.init) ops).1.1 a) = ty.
Proof.
  intros Hdet Ha.
  assert (registry_types_ok σ0 (registered ops) AgentRegistry.init) as Hinit.
  { split.
    - intros ty' ids id Hl. simpl in Hl. by rewrite lookup_empty in Hl.
    - intros id r Hl. simpl in Hl. by rewrite lookup_empty in Hl. }
  destruct (registry_run_types_ok (registered ops) ops σ0 AgentRegistry.init
              (fun r H => H) Hinit) as [HJ HK].
  unfold AgentRegistry.get_agents_by_type in Ha.
  destruct (AgentRegistry._agent_types _ !! ty) as [ids|] eqn:Hty;
    [|by apply elem_of_nil in Ha].
  cbn [default from_option id] in Ha.
  apply list_elem_of_omap in Ha as (id & Hin & Hl).
  destruct (HJ ty ids id Hty Hin) as (r0 & Hr0 & Hid0 & Hty0).
  destruct (HK id a Hl) as [Hr Hid].
  rewrite <- Hty0.
  rewrite (proj2 (registry_run_store ops σ0 AgentRegistry.init a)).
  rewrite (proj2 (registry_run_store ops σ0 AgentRegistry.init r0)).
  apply Hdet; [done|done|].
  rewrite <- (proj1 (registry_run_store ops σ0 AgentRegistry.init a)).
  rewrite <- (proj1 (registry_run_store ops σ0 AgentRegistry.init r0)).
  congruence.
Qed.

Lemma get_agents_by_type_has_type_witness :
  BaseAgent.agent_type
    ((AgentRegistry.run (Samples.agents, AgentRegistry.init)
        [AgentRegistry.Register 0%nat; AgentRegistry.Register 3%nat;
         AgentRegistry.Register 1%nat; AgentRegistry.Unregister "ba-A"]).1.1
       1%nat) = "ba".
Proof.
  apply (get_agents_by_type_has_type Samples.agents
           [AgentRegistry.Register 0%nat; AgentRegistry.Register 3%nat;
            AgentRegistry.Register 1%nat; AgentRegistry.Unregister "ba-A"]
           "ba" 1%nat).
  - intros r1 r2 H1 H2.
    vm_compute in H1, H2.
    repeat (apply elem_of_cons in H1 as [->|H1]);
      try (by apply elem_of_nil in H1);
      repeat (apply elem_of_cons in H2 as [->|H2]);
      try (by apply elem_of_nil in H2);
      vm_compute; first [reflexivity|discriminate].
  - vm_compute. apply list_elem_of_In. left. reflexivity.
Defined.

(** Without the condition, an agent can be listed under a type that is not
    its own: an architect registered under the id of a business analyst. *)
Example listed_under_another_type :
  let σ0 : store BaseAgent.t := fun r =>
    match r with
    | 0%nat => Samples.agent "x" "ba" AgentState.IDLE 0 0 0
    | _ => Samples.agent "x" "architect" AgentState.IDLE 0 0 0
    end in
  AgentRegistry.get_agents_by_type
    (AgentRegistry.run (σ0, AgentRegistry.init)
       [AgentRegistry.Register 0%nat; AgentRegistry.Register 1%nat]).1.2 "ba"
  = [1%nat] ∧
  BaseAgent.agent_type
    ((AgentRegistry.run (σ0, AgentRegistry.init)
        [AgentRegistry.Register 0%nat; AgentRegistry.Register 1%nat]).1.1
       1%nat) = "architect".
Proof. vm_compute. done. Qed.

(** ** Registry: registering and unregistering *)

Lemma register_agent_no_empty_list σ reg agent :
  registry_no_empty_list reg →
  registry_no_empty_list (AgentRegistry.register_agent σ reg agent).1.2.
Proof.
  intros Hok ty. unfold AgentRegistry.register_agent.
  cbn [fst snd AgentRegistry._agent_types]. intros Hl.
  apply lookup_insert_Some in Hl as [[_ Hl]|[_ Hl]].
  - by destruct (default [] _).
  - by apply (Hok ty).
Qed.

Lemma unregister_agent_no_empty_list σ reg id :
  registry_no_empty_list reg →
  registry_no_empty_list (AgentRegistry.unregister_agent σ reg id).1.
Proof.
  intros Hok. unfold AgentRegistry.unregister_agent.
  destruct (AgentRegistry._agents reg !! id) as [agent|]; [|done].
  destruct (AgentRegistry._agent_types reg !! _) as [ids|]; [|done].
  destruct (list_remove id ids) as [[|z ids']|]; [| |done];
    intros ty; cbn [fst AgentRegistry._agent_types]; intros Hl.
  - apply lookup_delete_Some in Hl as [_ Hl]. by apply (Hok ty).
  - apply lookup_insert_Some in Hl as [[_ Hl]|[_ Hl]]; [done|].
    by apply (Hok ty).
Qed.

Lemma registry_run_no_empty_list ops : ∀ σ reg,
  registry_no_empty_list reg →
  registry_no_empty_list (AgentRegistry.run (σ, reg) ops).1.2.
Proof.
  induction ops as [|o ops IH]; intros σ reg Hok; cbn [AgentRegistry.run];
    [done|].
  assert (∃ σ1 reg1 r,
            AgentRegistry.step (σ, reg) o = (σ1, reg1, r) ∧
            registry_no_empty_list reg1) as (σ1 & reg1 & r & Hstep & Hok1).
  { destruct o as [agent|id]; cbn [AgentRegistry.step].
    - pose proof (register_agent_no_empty_list σ reg agent Hok).
      destruct (AgentRegistry.register_agent σ reg agent) as [[σ1 reg1] s].
      eauto.
    - pose proof (unregister_agent_no_empty_list σ reg id Hok).
      destruct (AgentRegistry.unregister_agent σ reg id) as [reg1 r]. eauto. }
  rewrite Hstep. specialize (IH σ1 reg1 Hok1).
  by destruct (AgentRegistry.run (σ1, reg1) ops) as [[σ2 reg2] rs].
Qed.

Lemma list_remove_app_fresh x l :
  x ∉ l → list_remove x (l ++ [x]) = Some l.
Proof.
  induction l as [|y l IH]; intros Hx; cbn [list_remove app].
  - by rewrite decide_True.
  - apply not_elem_of_cons in Hx as [Hne Hx].
    rewrite decide_False by congruence. by rewrite IH.
Qed.

(** X10. In a registry reached from the empty one, registering an agent
    whose id is neither in the id map nor in the list of its type, and then
    unregistering that id, gives back the registry as it was (the id map and
    the type index, with no empty list left behind), without raising. *)
Theorem register_then_unregister (σ0 : store BaseAgent.t)
    (ops : list AgentRegistry.op) (agent : ref) :
  let σ := (AgentRegistry.run (σ0, AgentRegistry.init) ops).1.1 in
  let reg := (AgentRegistry.run (σ0, AgentRegistry.init) ops).1.2 in
  let aid := BaseAgent.agent_id (σ agent) in
  AgentRegistry._agents reg !! aid = None →
  aid ∉ default [] (AgentRegistry._agent_types reg
                     !! BaseAgent.agent_type (σ agent)) →
  (AgentRegistry.register_agent σ reg agent).2 = aid ∧
  AgentRegistry.get_agent (AgentRegistry.register_agent σ reg agent).1.2 aid
    = Some agent ∧
  AgentRegistry.unregister_agent (AgentRegistry.register_agent σ reg agent).1.1
    (AgentRegistry.register_agent σ reg agent).1.2 aid
  = (reg, Ok ()).
Proof.
  intros σ reg aid Hnone Hfresh.
  assert (registry_no_empty_list reg) as Hne.
  { apply registry_run_no_empty_list. intros ty Hl. simpl in Hl.
    by rewrite lookup_empty in Hl. }
  pose proof (register_agent_store σ reg agent agent) as [_ Hty].
  revert Hty. unfold AgentRegistry.register_agent.
  cbn [fst snd]. intros Hty. split; [done|].
  split; [apply lookup_insert_eq|].
  unfold AgentRegistry.unregister_agent.
  cbn [AgentRegistry._agents AgentRegistry._agent_types].
  fold aid. rewrite lookup_insert_eq, Hty, lookup_insert_eq.
  rewrite (list_remove_app_fresh aid _ Hfresh).
  rewrite delete_insert_eq, (delete_id _ _ Hnone).
  destruct reg as [agents types]. cbn [AgentRegistry._agents
    AgentRegistry._agent_types] in *.
  destruct (types !! BaseAgent.agent_type (σ agent)) as [l|] eqn:E;
    cbn [default from_option id].
  - destruct l as [|z l]; [by destruct (Hne _ E)|].
    by rewrite insert_insert_eq, insert_id.
  - by rewrite delete_insert_eq, delete_id.
Qed.

Lemma register_then_unregister_witness :
  AgentRegistry.unregister_agent
    (AgentRegistry.register_agent
       (AgentRegistry.run (Samples.agents, AgentRegistry.init)
          [AgentRegistry.Register 0%nat; AgentRegistry.Register 3%nat]).1.1
       (AgentRegistry.run (Samples.agents, AgentRegistry.init)
          [AgentRegistry.Register 0%nat; AgentRegistry.Register 3%nat]).1.2
       1%nat).1.1
    (AgentRegistry.register_agent
       (AgentRegistry.run (Samples.agents, AgentRegistry.init)
          [AgentRegistry.Register 0%nat; AgentRegistry.Register 3%nat]).1.1
       (AgentRegistry.run (Samples.agents, AgentRegistry.init)
          [AgentRegistry.Register 0%nat; AgentRegistry.Register 3%nat]).1.2
       1%nat).1.2
    (BaseAgent.agent_id
       ((AgentRegistry.run (Samples.agents, AgentRegistry.init)
           [AgentRegistry.Register 0%nat; AgentRegistry.Register 3%nat]).1.1
          1%nat))
  = ((AgentRegistry.run (Samples.agents, AgentRegistry.init)
        [AgentRegistry.Register 0%nat; AgentRegistry.Register 3%nat]).1.2,
     Ok ()).
Proof.
  apply (register_then_unregister Samples.agents
           [AgentRegistry.Register 0%nat; AgentRegistry.Register 3%nat]
           1%nat).
  - vm_compute. reflexivity.
  - vm_compute. intros H. apply list_elem_of_In in H. vm_compute in H.
    destruct H as [H|H]; [discriminate|done].
Defined.

(** ** Message bus: the history *)

Lemma publish_spec σ bus m :
  (length (InMemoryMessageBus._message_history bus)
     ≤ InMemoryMessageBus._max_history bus)%nat →
  let bus' := (InMemoryMessageBus.publish σ bus m).2 in
  (InMemoryMessageBus.publish σ bus m).1 = σ ∧
  InMemoryMessageBus._message_history bus'
    = drop (length (InMemoryMessageBus._message_history bus ++ [m])
            - InMemoryMessageBus._max_history bus)
        (InMemoryMessageBus._message_history bus ++ [m]) ∧
  (length (InMemoryMessageBus._message_history bus')
     ≤ InMemoryMessageBus._max_history bus')%nat ∧
  InMemoryMessageBus._max_history bus' = InMemoryMessageBus._max_history bus ∧
  InMemoryMessageBus._message_queue bus'
    = InMemoryMessageBus._message_queue bus ++ [m] ∧
  InMemoryMessageBus.messages_published (InMemoryMessageBus._metrics bus')
    = InMemoryMessageBus.messages_published (InMemoryMessageBus._metrics bus)
      + 1.
Proof.
  intros Hlen. unfold InMemoryMessageBus.publish. cbn [fst snd].
  cbn [InMemoryMessageBus._message_history InMemoryMessageBus._max_history
       InMemoryMessageBus._message_queue InMemoryMessageBus._metrics
       InMemoryMessageBus.messages_published].
  split; [done|].
  assert (length (InMemoryMessageBus._message_history bus ++ [m])
          = S (length (InMemoryMessageBus._message_history bus))) as Hl.
  { rewrite length_app. simpl. lia. }
  destruct (decide _) as [Hgt|Hle].
  - split; [|split; [|done]].
    + f_equal. lia.
    + rewrite length_drop. lia.
  - split; [|split; [|done]].
    + replace (_ - _)%nat with 0%nat by lia. done.
    + lia.
Qed.

(** X11. Publishing a list of messages on a bus whose history is within its
    bound leaves the message objects alone, queues the messages in order,
    counts them, and keeps as history the most recent [_max_history]
    (1000 on a new bus) of the messages recorded so far, oldest first. *)
Theorem publish_keeps_recent_history (σ : store AgentMessage.t)
    (bus : InMemoryMessageBus.t) (messages : list ref) :
  (length (InMemoryMessageBus._message_history bus)
     ≤ InMemoryMessageBus._max_history bus)%nat →
  let bus' := (InMemoryMessageBus.publish_all σ bus messages).2 in
  let recorded := InMemoryMessageBus._message_history bus ++ messages in
  (InMemoryMessageBus.publish_all σ bus messages).1 = σ ∧
  InMemoryMessageBus._message_history bus'
    = drop (length recorded - InMemoryMessageBus._max_history bus) recorded ∧
  (length (InMemoryMessageBus._message_history bus')
     ≤ InMemoryMessageBus._max_history bus)%nat ∧
  InMemoryMessageBus._message_queue bus'
    = InMemoryMessageBus._message_queue bus ++ messages ∧
  InMemoryMessageBus.messages_published (InMemoryMessageBus._metrics bus')
    = InMemoryMessageBus.messages_published (InMemoryMessageBus._metrics bus)
      + Z.of_nat (length messages).
Proof.
  unfold InMemoryMessageBus.publish_all. cbv zeta.
  revert bus. induction messages as [|m l IH]; intros bus Hlen; cbn [foldl].
  - rewrite !app_nil_r. cbn [fst snd length].
    split; [done|]. split; [|split; [done|split; [done|lia]]].
    replace (_ - _)%nat with 0%nat by lia. done.
  - destruct (publish_spec σ bus m Hlen) as (Hσ & Hh & Hlen' & Hmax & Hq & Hp).
    destruct (InMemoryMessageBus.publish σ bus m) as [σ1 bus1].
    cbn [fst snd] in *. subst σ1. rewrite Hmax in Hlen'.
    assert (length (InMemoryMessageBus._message_history bus1)
              ≤ InMemoryMessageBus._max_history bus1)%nat as Hlen1
      by (rewrite Hmax; exact Hlen').
    destruct (IH bus1 Hlen1) as (H1 & H2 & H3 & H4 & H5).
    split; [exact H1|]. rewrite H2, H4, H5, Hq, Hp, Hmax, Hh.
    split; [|split; [|split]].
    + set (h := InMemoryMessageBus._message_history bus) in *.
      set (mx := InMemoryMessageBus._max_history bus) in *.
      replace (h ++ m :: l) with ((h ++ [m]) ++ l)
        by (by rewrite <- app_assoc).
      set (k := (length (h ++ [m]) - mx)%nat).
      assert (k ≤ length (h ++ [m]))%nat as Hk by (subst k; lia).
      rewrite <- (drop_app_le (h ++ [m]) l k Hk), drop_drop.
      f_equal. rewrite length_drop, !length_app. subst k.
      rewrite length_app. simpl. lia.
    + rewrite H2 in H3. rewrite Hmax, Hh in H3. exact H3.
    + by rewrite <- app_assoc.
    + cbn [length]. lia.
Qed.

Lemma publish_keeps_recent_history_witness :
  InMemoryMessageBus._message_history
    (InMemoryMessageBus.publish_all (fun _ => Samples.message)
       InMemoryMessageBus.init [0; 1; 2]%nat).2
  = drop (length ([] ++ [0; 1; 2]%nat) - 1000) ([] ++ [0; 1; 2]%nat).
Proof.
  apply (publish_keeps_recent_history (fun _ => Samples.message)
           InMemoryMessageBus.init [0; 1; 2]%nat).
  vm_compute. lia.
Defined.

Example history_drops_oldest :
  let bus :=
    InMemoryMessageBus.mk ∅ ∅ [] false [] 2
      (InMemoryMessageBus.mk_metrics 0 0 0) in
  InMemoryMessageBus._message_history
    (InMemoryMessageBus.publish_all (fun _ => Samples.message) bus
       [5; 6; 7; 8]%nat).2
  = [7; 8]%nat.
Proof. vm_compute. reflexivity. Qed.

(** ** Message bus: [get_message_history] *)

Lemma filter_true {A} (l : list A) : List.filter (fun _ => true) l = l.
Proof. induction l as [|x l IH]; cbn [List.filter]; [done|]. by rewrite IH. Qed.

Lemma filter_ext_bool {A} (f g : A → bool) (l : list A) :
  (∀ x, f x = g x) → List.filter f l = List.filter g l.
Proof.
  intros H. induction l as [|x l IH]; cbn [List.filter]; [done|].
  by rewrite H, IH.
Qed.

Lemma filter_sublist {A} (f : A → bool) (l : list A) :
  sublist (List.filter f l) l.
Proof.
  induction l as [|x l IH]; cbn [List.filter]; [done|].
  destruct (f x); [by apply sublist_skip|by apply sublist_cons].
Qed.

Lemma filter_length_le {A} (f : A → bool) (l : list A) :
  (length (List.filter f l) ≤ length l)%nat.
Proof. apply sublist_length, filter_sublist. Qed.

Lemma py_slice_from_window {A} (h : list A) (limit : Z) :
  py_slice_from h (- limit) = history_window h limit.
Proof.
  unfold py_slice_from, history_window.
  destruct (0 <? limit) eqn:E1.
  - assert (((- limit) <? 0) = true) as -> by lia. f_equal. lia.
  - assert (((- limit) <? 0) = false) as -> by lia.
    destruct (limit =? 0) eqn:E2.
    + replace (Z.to_nat _) with 0%nat by lia. done.
    + destruct (decide (Z.to_nat (- limit) ≤ length h)%nat) as [Hle|Hgt].
      * f_equal. lia.
      * rewrite !drop_ge by lia. done.
Qed.

(** X12. [get_message_history] first cuts the history to a window and then
    applies the filters that were given: the window is the last [limit]
    entries for a positive [limit], the whole history for [limit = 0], and
    the history without its first [-limit] entries for a negative [limit];
    so the result is a sub-list of the history, in order, of at most [limit]
    messages when [limit] is positive. *)
Theorem get_message_history_window (σ : store AgentMessage.t)
    (bus : InMemoryMessageBus.t) (limit : Z) (sender recipient : option string)
    (ty : option MessageType.t) :
  let h := InMemoryMessageBus._message_history bus in
  let out :=
    InMemoryMessageBus.get_message_history σ bus limit sender recipient ty in
  out = List.filter (fun m => history_filter sender recipient ty (σ m))
          (history_window h limit) ∧
  sublist out h ∧
  (0 < limit → (length out ≤ Z.to_nat limit)%nat) ∧
  (limit = 0 → sender = None → recipient = None → ty = None → out = h).
Proof.
  intros h out.
  assert (out = List.filter (fun m => history_filter sender recipient ty (σ m))
                  (history_window h limit)) as Hout.
  { subst out. unfold InMemoryMessageBus.get_message_history.
    fold h. rewrite py_slice_from_window.
    generalize (history_window h limit). intros w.
    unfold history_filter.
    destruct (truthy_ostr sender), (truthy_ostr recipient), ty as [t|];
      rewrite ?filter_andb; try (apply filter_ext_bool; intros m);
      rewrite ?andb_true_r, ?andb_assoc; try done.
    symmetry. apply filter_true. }
  split; [exact Hout|]. rewrite Hout. split; [|split].
  - etransitivity; [apply filter_sublist|].
    unfold history_window.
    destruct (0 <? limit); [apply sublist_drop|].
    destruct (limit =? 0); [done|apply sublist_drop].
  - intros Hpos. etransitivity; [apply filter_length_le|].
    unfold history_window. assert ((0 <? limit) = true) as -> by lia.
    rewrite length_drop. lia.
  - intros -> -> -> ->. unfold history_window, history_filter. simpl.
    apply filter_true.
Qed.

Lemma get_message_history_window_witness :
  (length
     (InMemoryMessageBus.get_message_history (fun _ => Samples.message)
        (InMemoryMessageBus.publish_all (fun _ => Samples.message)
           InMemoryMessageBus.init [0; 1; 2]%nat).2
        2 (Some "ba-1") None None)
   ≤ Z.to_nat 2)%nat.
Proof.
  apply (get_message_history_window (fun _ => Samples.message)
           (InMemoryMessageBus.publish_all (fun _ => Samples.message)
              InMemoryMessageBus.init [0; 1; 2]%nat).2
           2 (Some "ba-1") None None).
  lia.
Defined.

(** The limit is applied before the filters: of three messages, the last
    two are looked at, and only one of them is from ["qa-1"]. With
    [limit = 0] the whole history is looked at. *)
Example get_message_history_example :
  let σ : store AgentMessage.t := fun r =>
    AgentMessage.mk (if decide (r = 2%nat) then "ba-1" else "qa-1") "x"
      MessageType.NOTIFY ∅ MessagePriority.NORMAL ∅ "" None 0 ∅ in
  let bus :=
    (InMemoryMessageBus.publish_all σ InMemoryMessageBus.init
       [0; 1; 2]%nat).2 in
  InMemoryMessageBus.get_message_history σ bus 2 (Some "qa-1") None None
    = [1%nat] ∧
  InMemoryMessageBus.get_message_history σ bus 0 (Some "qa-1") None None
    = [0; 1]%nat ∧
  InMemoryMessageBus.get_message_history σ bus (-1) None None None
    = [1; 2]%nat.
Proof. vm_compute. done. Qed.

(** ** Message bus: subscriptions *)

(** X13. After [subscribe], the bus holds exactly one subscription under
    the subscriber's id (an earlier one under that id is replaced, the
    others stay), and it matches a message exactly when the message type is
    among the subscribed types (no list, or an empty list, stands for all
    types) and the sender is the sender asked for (none, or an empty string,
    stands for any sender). [unsubscribe] then removes it, together with the
    direct handler registered under the same id. *)
Theorem subscribe_then_matches (σ : store AgentMessage.t)
    (bus : InMemoryMessageBus.t) (sid : string) (h : nat)
    (tys : option (list MessageType.t)) (sf : option string) (now : Z)
    (m : AgentMessage.t) :
  let bus' := (InMemoryMessageBus.subscribe σ bus sid h tys sf now).2 in
  (∃ sub,
     InMemoryMessageBus._subscriptions bus' !! sid = Some sub ∧
     Subscription.handler_of sub = h ∧
     (Subscription.matches sub m = true ↔
      (tys = None ∨ tys = Some [] ∨
       ∃ l, tys = Some l ∧ AgentMessage.message_type m ∈ l) ∧
      (sf = None ∨ sf = Some "" ∨ sf = Some (AgentMessage.sender m)))) ∧
  (∀ sid', sid' ≠ sid →
     InMemoryMessageBus._subscriptions bus' !! sid'
     = InMemoryMessageBus._subscriptions bus !! sid') ∧
  (let bus'' := (InMemoryMessageBus.unsubscribe σ bus' sid).2 in
   InMemoryMessageBus._subscriptions bus'' !! sid = None ∧
   InMemoryMessageBus._direct_handlers bus'' !! sid = None).
Proof.
  cbv zeta. unfold InMemoryMessageBus.subscribe, InMemoryMessageBus.unsubscribe.
  cbn [fst snd InMemoryMessageBus._subscriptions
       InMemoryMessageBus._direct_handlers].
  split; [|split; [|split]].
  - eexists. split; [apply lookup_insert_eq|]. split; [done|].
    unfold Subscription.matches, Subscription.init.
    cbn [Subscription.message_types Subscription.sender_filter].
    assert ((if truthy_ostr sf
                && negb (bool_decide (Some (AgentMessage.sender m) = sf))
             then false else true) = true ↔
            sf = None ∨ sf = Some "" ∨ sf = Some (AgentMessage.sender m))
      as Hsf.
    { destruct sf as [s|]; cbn [truthy_ostr]; [|by split; [left|]].
      destruct (String.eqb s "") eqn:Es; cbn [negb andb].
      - apply String.eqb_eq in Es as ->. split; [by right; left|done].
      - apply String.eqb_neq in Es.
        destruct (bool_decide _) eqn:Ed; cbn [negb].
        + apply bool_decide_eq_true in Ed. split; [by right; right|done].
        + apply bool_decide_eq_false in Ed. split; [done|].
          intros [H|[H|H]]; congruence. }
    destruct tys as [[|t l]|].
    + rewrite Hsf. split; [intros H; split; [by right; left|done]|by intros [_ H]].
    + destruct (bool_decide (AgentMessage.message_type m ∈ t :: l)) eqn:Ed;
        cbn [negb].
      * apply bool_decide_eq_true in Ed. rewrite Hsf. split.
        -- intros H. split; [|done]. right; right. by exists (t :: l).
        -- by intros [_ H].
      * apply bool_decide_eq_false in Ed. split; [done|].
        intros [[H|[H|(l' & [= <-] & H)]] _]; done.
    + rewrite Hsf. split; [intros H; split; [by left|done]|by intros [_ H]].
  - intros sid' Hne. by rewrite lookup_insert_ne.
  - apply lookup_delete_eq.
  - apply lookup_delete_eq.
Qed.

Example empty_type_list_matches_everything :
  Subscription.matches
    (Subscription.init "qa-1" 0%nat (Some []) (Some "") 0) Samples.message
  = true ∧
  Subscription.matches
    (Subscription.init "qa-1" 0%nat (Some [MessageType.ERROR]) None 0)
    Samples.message
  = false ∧
  Subscription.matches
    (Subscription.init "qa-1" 0%nat
       (Some [MessageType.REQUEST; MessageType.ERROR]) (Some "ba-1") 0)
    Samples.message
  = true.
Proof. vm_compute. done. Qed.

(** ** Agent: what sending and notifying leave alone *)

Lemma same_but_sent_refl a : same_but_sent a a.
Proof.
  exists (BaseAgent.messages_sent (BaseAgent._metrics a)).
  destruct a as [? ? ? ? ? ? ? ? []]. done.
Qed.

Lemma same_but_sent_trans a b c :
  same_but_sent a b → same_but_sent b c → same_but_sent a c.
Proof. intros [n ->] [k ->]. exists k. done. Qed.

Lemma send_message_spec self message w :
  let w' := Agent.send_message self message w in
  w_tasks w' = w_tasks w ∧ w_next_task w' = w_next_task w ∧
  w_msgs w' = w_msgs w ∧ w_next_msg w' = w_next_msg w ∧
  w_registry w' = w_registry w ∧ w_ticks w' = w_ticks w ∧
  (∀ r, same_but_sent (w_agents w r) (w_agents w' r)) ∧
  (if BaseAgent.message_bus (w_agents w self)
   then InMemoryMessageBus._message_queue (w_bus w')
        = InMemoryMessageBus._message_queue (w_bus w) ++ [message]
   else w' = w).
Proof.
  unfold Agent.send_message.
  destruct (BaseAgent.message_bus (w_agents w self)); cbv zeta.
  - unfold InMemoryMessageBus.publish. cbn [fst snd].
    do 6 (split; [done|]). split; [|done].
    intros r. cbn [upd_agent set_agents w_agents].
    destruct (decide (r = self)) as [->|Hne].
    + rewrite fn_lookup_insert. by eexists.
    + rewrite fn_lookup_insert_ne by done. apply same_but_sent_refl.
  - do 6 (split; [done|]). split; [|done]. intros r. apply same_but_sent_refl.
Qed.

Lemma notify_spec env self event data w :
  let w' := Agent.notify env self event data w in
  w_tasks w' = w_tasks w ∧ w_next_task w' = w_next_task w ∧
  w_registry w' = w_registry w ∧
  (∀ r, same_but_sent (w_agents w r) (w_agents w' r)) ∧
  (∀ m, (m < w_next_msg w)%nat → w_msgs w' m = w_msgs w m) ∧
  (w_next_msg w ≤ w_next_msg w')%nat ∧
  (w_ticks w ≤ w_ticks w')%nat ∧
  (if BaseAgent.message_bus (w_agents w self)
   then InMemoryMessageBus._message_queue (w_bus w')
          = InMemoryMessageBus._message_queue (w_bus w) ++ [w_next_msg w] ∧
        w_next_msg w' = S (w_next_msg w) ∧
        w_msgs w' (w_next_msg w)
          = AgentMessage.create_broadcast
              (BaseAgent.agent_id (w_agents w self)) event data None
              (uuid4 env (w_ticks w)) (utcnow env (S (w_ticks w)))
   else w' = w).
Proof.
  unfold Agent.notify.
  destruct (BaseAgent.message_bus (w_agents w self)) eqn:Hbus; cbv zeta.
  - cbn [read_uuid read_clock alloc_msg].
    match goal with
    | |- context [Agent.send_message ?s ?m ?w0] =>
        pose proof (send_message_spec s m w0) as Hs; cbv zeta in Hs;
        destruct Hs as (H1 & H2 & H3 & H4 & H5 & H6 & H7 & H8);
        generalize dependent (Agent.send_message s m w0)
    end.
    cbn [w_tasks w_next_task w_msgs w_next_msg w_registry w_ticks w_agents
         w_bus tick].
    rewrite Hbus. intros wn -> -> -> -> -> -> Hag Hq.
    split; [done|]. split; [done|]. split; [done|]. split; [exact Hag|].
    split.
    { intros m Hm. rewrite fn_lookup_insert_ne by lia. done. }
    split; [lia|]. split; [lia|]. split; [exact Hq|]. split; [done|].
    by rewrite fn_lookup_insert.
  - split; [done|]. split; [done|]. split; [done|].
    split; [intros r; apply same_but_sent_refl|]. done.
Qed.

Lemma no_dependency_blocks (t : AgentTask.t) :
  match AgentTask.dependencies t with
  | [] => false
  | _ :: _ => negb (Agent._check_dependencies (AgentTask.dependencies t))
  end = false.
Proof. by destruct (AgentTask.dependencies t). Qed.

(** ** Agent: a task that succeeds *)



(** ** Agent: after a failure *)

Lemma execute_task_failure (env : Env) (self task : ref) (w : World) e :
  BaseAgent.is_available (w_agents w self) = true →
  delegated_outcome env self task w = Raise e →
  let w' := (Agent.execute_task env self task w).1 in
  (Agent.execute_task env self task w).2 = Raise e ∧
  BaseAgent.state (w_agents w' self) = AgentState.ERROR ∧
  BaseAgent._current_task (w_agents w' self) = None ∧
  BaseAgent._task_history (w_agents w' self)
    = BaseAgent._task_history (w_agents w self) ∧
  BaseAgent.tasks_completed (BaseAgent.get_metrics (w_agents w' self))
    = BaseAgent.tasks_completed (BaseAgent.get_metrics (w_agents w self)).
Proof.
  intros Hav Hout. cbv zeta. unfold Agent.execute_task. rewrite Hav.
  cbn [negb read_clock]. autorewrite with world.
  rewrite no_dependency_blocks.
  unfold delegated_outcome in Hout. rewrite Hout.
  cbn [read_clock]. autorewrite with world.
  unfold Agent._notify_task_failure.
  match goal with
  | |- context [Agent.notify ?en ?s ?ev ?d ?w0] =>
      pose proof (notify_spec en s ev d w0) as Hn; cbv zeta in Hn;
      destruct Hn as (_ & _ & _ & Ha & _);
      specialize (Ha self); destruct Ha as [n Ha];
      generalize dependent (Agent.notify en s ev d w0)
  end.
  intros wn Ha. cbn [fst snd].
  autorewrite with world in *. rewrite Ha.
  unfold BaseAgent.state, BaseAgent.get_metrics.
  cbn [BaseAgent._state BaseAgent._metrics BaseAgent.set_current_task
       BaseAgent.set_metrics BaseAgent.set_state BaseAgent._current_task
       BaseAgent._task_history BaseAgent.tasks_completed].
  done.
Qed.

(** X15. An agent whose task failed is left in state [error]: it is not
    available, a further [execute_task] raises [RuntimeError] and touches
    nothing, and neither [get_available_agent] nor [get_best_agent] returns
    it, for any registry and type. [reset] makes it available again and
    keeps its metrics and its history. *)
Theorem failed_agent_refuses_until_reset (env : Env) (self task task' : ref)
    (w : World) (e : exn) (reg : AgentRegistry.t) (ty : string) :
  BaseAgent.is_available (w_agents w self) = true →
  delegated_outcome env self task w = Raise e →
  let w1 := (Agent.execute_task env self task w).1 in
  BaseAgent.is_available (w_agents w1 self) = false ∧
  Agent.execute_task env self task' w1
    = (w1, Raise (Exn RuntimeError
                    ("Agent " +:+ BaseAgent.name (w_agents w1 self)
                     +:+ " is not available (state: error)"))) ∧
  AgentRegistry.get_available_agent (w_agents w1) reg ty ≠ Some self ∧
  AgentRegistry.get_best_agent (w_agents w1) reg ty ≠ Ok (Some self) ∧
  BaseAgent.is_available (BaseAgent.reset (w_agents w1 self)) = true ∧
  BaseAgent.get_metrics (BaseAgent.reset (w_agents w1 self))
    = BaseAgent.get_metrics (w_agents w1 self) ∧
  BaseAgent._task_history (BaseAgent.reset (w_agents w1 self))
    = BaseAgent._task_history (w_agents w self).
Proof.
  intros Hav Hout w1.
  destruct (execute_task_failure env self task w e Hav Hout)
    as (_ & Hst & _ & Hh & _).
  fold w1 in Hst, Hh.
  assert (BaseAgent.is_available (w_agents w1 self) = false) as Hna.
  { unfold BaseAgent.is_available. unfold BaseAgent.state in Hst.
    rewrite Hst. done. }
  split; [exact Hna|]. split.
  { unfold Agent.execute_task. rewrite Hna. cbn [negb].
    unfold Agent.not_available_message. rewrite Hst. done. }
  split.
  { intros Hg. unfold AgentRegistry.get_available_agent in Hg.
    apply find_some in Hg as [_ Hg]. congruence. }
  split.
  { intros Hg. apply get_best_agent_in, candidates_available in Hg as [_ Hg].
    congruence. }
  split; [done|]. split; [done|]. exact Hh.
Qed.

Lemma failed_agent_refuses_until_reset_witness :
  BaseAgent.is_available
    (w_agents (Agent.execute_task Samples.env 0%nat 5%nat Samples.world).1
       0%nat) = false.
Proof.
  refine (proj1 (failed_agent_refuses_until_reset Samples.env 0%nat 5%nat
                   0%nat Samples.world
                   (Exn ExternalError "model call failed")
                   AgentRegistry.init "ba" _ _)).
  - vm_compute. reflexivity.
  - vm_compute. reflexivity.
Defined.

(** ** Agent: answering a request *)

(** [execute_task] leaves the message objects that exist alone, and the
    identity of the agents. *)
Lemma execute_task_frame (env : Env) (self task : ref) (w : World) :
  let w' := (Agent.execute_task env self task w).1 in
  (∀ m, (m < w_next_msg w)%nat → w_msgs w' m = w_msgs w m) ∧
  (w_next_msg w ≤ w_next_msg w')%nat ∧
  BaseAgent.agent_id (w_agents w' self) = BaseAgent.agent_id (w_agents w self) ∧
  BaseAgent.message_bus (w_agents w' self)
    = BaseAgent.message_bus (w_agents w self) ∧
  BaseAgent.messages_received (BaseAgent._metrics (w_agents w' self))
    = BaseAgent.messages_received (BaseAgent._metrics (w_agents w self)).
Proof.
  cbv zeta. unfold Agent.execute_task.
  destruct (BaseAgent.is_available (w_agents w self)); [|done].
  cbn [negb read_clock]. autorewrite with world.
  rewrite no_dependency_blocks.
  destruct (process_task env _ _ _) as [result|e];
    cbn [read_clock]; autorewrite with world;
    unfold Agent._notify_task_completion, Agent._notify_task_failure;
    match goal with
    | |- context [Agent.notify ?en ?s ?ev ?d ?w0] =>
        pose proof (notify_spec en s ev d w0) as Hn; cbv zeta in Hn;
        destruct Hn as (_ & _ & _ & Ha & Hm & Hnext & _);
        specialize (Ha self); destruct Ha as [n Ha];
        generalize dependent (Agent.notify en s ev d w0)
    end;
    intros wn Ha Hm Hnext; cbn [fst snd];
    cbn [w_msgs w_next_msg upd_agent set_agents upd_task set_tasks tick]
      in *;
    autorewrite with world in *; rewrite Ha;
    cbn [BaseAgent._state BaseAgent._metrics BaseAgent.set_current_task
         BaseAgent.set_metrics BaseAgent.set_state BaseAgent.set_task_history
         BaseAgent.agent_id BaseAgent.message_bus
         BaseAgent.messages_received];
    (split; [exact Hm|]); (split; [exact Hnext|]); done.
Qed.

Lemma request_execution_frame (env : Env) (self : ref) (action : pyval)
    (data : pyval) (w : World) :
  let w2 := (request_execution env self action data w).1 in
  (∀ m, (m < w_next_msg w)%nat → w_msgs w2 m = w_msgs w m) ∧
  (w_next_msg w ≤ w_next_msg w2)%nat ∧
  BaseAgent.agent_id (w_agents w2 self) = BaseAgent.agent_id (w_agents w self) ∧
  BaseAgent.message_bus (w_agents w2 self)
    = BaseAgent.message_bus (w_agents w self) ∧
  BaseAgent.messages_received (BaseAgent._metrics (w_agents w2 self))
    = BaseAgent.messages_received (BaseAgent._metrics (w_agents w self)) + 1.
Proof.
  cbv zeta. unfold request_execution.
  cbn [read_uuid read_clock alloc_task].
  match goal with
  | |- context [Agent.execute_task env self ?t ?w0] =>
      pose proof (execute_task_frame env self t w0) as Hf; cbv zeta in Hf;
      destruct Hf as (Hm2 & Hnext2 & Hid2 & Hbus2 & Hrecv2);
      generalize dependent (Agent.execute_task env self t w0)
  end.
  cbn [w_msgs w_next_msg w_agents tick upd_agent set_agents].
  rewrite !fn_lookup_insert.
  cbn [BaseAgent.agent_id BaseAgent.message_bus BaseAgent._metrics
       BaseAgent.set_metrics BaseAgent.messages_received].
  intros [w2 r] Hm2 Hnext2 Hid2 Hbus2 Hrecv2. done.
Qed.

(** What [receive_message] does with a request. *)
Lemma receive_request (env : Env) (self message : ref) (w : World) :
  AgentMessage.message_type (w_msgs w message) = MessageType.REQUEST →
  let action :=
    dict_get (AgentMessage.payload (w_msgs w message)) "action" PNone in
  let data :=
    dict_get (AgentMessage.payload (w_msgs w message)) "data" (PDict ∅) in
  Agent.receive_message env self message w
  = let w2 := (request_execution env self action data w).1 in
    Agent.send_message self (w_next_msg w2)
      (alloc_msg
         (match (request_execution env self action data w).2 with
          | Ok result =>
              AgentMessage.create_response (w_msgs w2 message)
                (BaseAgent.agent_id (w_agents w2 self))
                (list_to_map [("status", PStr "success");
                              ("result", PDict result)])
                MessageType.RESPONSE (utcnow env (w_ticks w2))
          | Raise e =>
              AgentMessage.create_error_response (w_msgs w2 message)
                (BaseAgent.agent_id (w_agents w2 self)) (exn_msg e) None
                (utcnow env (w_ticks w2))
          end)
         (tick w2)).2.
Proof.
  intros Hty. cbv zeta.
  unfold Agent.receive_message, request_execution.
  match goal with
  | |- context [upd_agent self ?f w] => set (w1 := upd_agent self f w)
  end.
  change (w_msgs w1) with (w_msgs w). rewrite Hty.
  unfold Agent._handle_request.
  change (w_msgs w1) with (w_msgs w).
  cbn [read_uuid read_clock alloc_task].
  destruct (Agent.execute_task _ _ _ _) as [w2 [result|e]]; done.
Qed.

(** X16. An agent with a bus that receives a request (a message of type
    [REQUEST], already allocated), whatever its payload, counts it as
    received and publishes a reply last: addressed to the sender of the
    request, sent in the agent's name, with the correlation id of the
    request, also as parent id. The task it runs has the payload's
    ["action"] as type ([None] without one) and its ["data"] as input (an
    empty dictionary without one). The reply is a [RESPONSE] with status
    ["success"] and the result when [execute_task] on that task returns,
    with the priority of the request; it is an [ERROR] of priority [HIGH]
    with the exception's text and the original payload when [execute_task]
    raises, which includes the case of an agent that is not available. *)
Theorem request_is_answered (env : Env) (self message : ref) (w : World) :
  (message < w_next_msg w)%nat →
  AgentMessage.message_type (w_msgs w message) = MessageType.REQUEST →
  BaseAgent.message_bus (w_agents w self) = true →
  let w' := Agent.receive_message env self message w in
  let request := w_msgs w message in
  let action := dict_get (AgentMessage.payload request) "action" PNone in
  let data := dict_get (AgentMessage.payload request) "data" (PDict ∅) in
  ∃ reply,
    last (InMemoryMessageBus._message_queue (w_bus w')) = Some reply ∧
    AgentMessage.sender (w_msgs w' reply)
      = BaseAgent.agent_id (w_agents w self) ∧
    AgentMessage.recipient (w_msgs w' reply) = AgentMessage.sender request ∧
    AgentMessage.correlation_id (w_msgs w' reply)
      = AgentMessage.correlation_id request ∧
    AgentMessage.parent_id (w_msgs w' reply)
      = Some (AgentMessage.correlation_id request) ∧
    match (request_execution env self action data w).2 with
    | Ok result =>
        AgentMessage.message_type (w_msgs w' reply) = MessageType.RESPONSE ∧
        AgentMessage.payload (w_msgs w' reply)
          = list_to_map [("status", PStr "success");
                         ("result", PDict result)] ∧
        AgentMessage.priority (w_msgs w' reply) = AgentMessage.priority request
    | Raise e =>
        AgentMessage.message_type (w_msgs w' reply) = MessageType.ERROR ∧
        AgentMessage.payload (w_msgs w' reply)
          = list_to_map [("error", PStr (exn_msg e));
                         ("error_code", PNone);
                         ("original_payload",
                          PDict (AgentMessage.payload request))] ∧
        AgentMessage.priority (w_msgs w' reply) = MessagePriority.HIGH
    end ∧
    BaseAgent.messages_received (BaseAgent.get_metrics (w_agents w' self))
      = BaseAgent.messages_received (BaseAgent.get_metrics (w_agents w self))
        + 1.
Proof.
  intros Hlt Hty Hbus. cbv zeta.
  rewrite (receive_request env self message w Hty).
  cbv zeta.
  set (action := dict_get (AgentMessage.payload (w_msgs w message))
                   "action" PNone).
  set (data := dict_get (AgentMessage.payload (w_msgs w message))
                 "data" (PDict ∅)).
  destruct (request_execution_frame env self action data w)
    as (Hm2 & Hnext2 & Hid2 & Hbus2 & Hrecv2).
  rewrite Hbus in Hbus2.
  destruct (request_execution env self action data w) as [w2 r].
  cbn [fst snd] in *. cbn [alloc_msg snd].
  match goal with
  | |- context [Agent.send_message self ?m ?w0] =>
      pose proof (send_message_spec self m w0) as Hs; cbv zeta in Hs;
      destruct Hs as (_ & _ & Hms & _ & _ & _ & Hag & Hq);
      specialize (Hag self); destruct Hag as [n Hag];
      generalize dependent (Agent.send_message self m w0)
  end.
  cbn [w_msgs w_next_msg w_agents w_bus tick].
  rewrite Hbus2. intros w3 Hms Hag Hq.
  exists (w_next_msg w2).
  split; [by rewrite Hq, last_snoc|].
  rewrite Hms, fn_lookup_insert, (Hm2 message Hlt), Hag, Hid2.
  unfold BaseAgent.get_metrics.
  cbn [BaseAgent._metrics BaseAgent.set_metrics BaseAgent.messages_received].
  rewrite Hrecv2.
  destruct r as [result|e];
    cbn [AgentMessage.create_response AgentMessage.create_error_response
         AgentMessage.sender AgentMessage.recipient
         AgentMessage.correlation_id AgentMessage.parent_id
         AgentMessage.message_type AgentMessage.payload AgentMessage.priority
         of_opt_str];
    done.
Qed.

Lemma request_is_answered_witness :
  ∃ reply,
    last (InMemoryMessageBus._message_queue
            (w_bus (Agent.receive_message Samples.env 0%nat 0%nat
                      (alloc_msg
                         (AgentMessage.mk "architect-1" "ba-A"
                            MessageType.REQUEST
                            {["action" := PStr "boom"]}
                            MessagePriority.LOW ∅ "corr-7" None 0 ∅)
                         Samples.world).2)))
      = Some reply.
Proof.
  destruct (request_is_answered Samples.env 0%nat 0%nat
              (alloc_msg
                 (AgentMessage.mk "architect-1" "ba-A" MessageType.REQUEST
                    {["action" := PStr "boom"]} MessagePriority.LOW ∅
                    "corr-7" None 0 ∅)
                 Samples.world).2)
    as (reply & Hlast & _).
  - vm_compute. lia.
  - vm_compute. reflexivity.
  - vm_compute. reflexivity.
  - exists reply. exact Hlast.
Defined.

(** A request for the failing task type is answered by an error that
    carries the exception's text; a request for another type by a response;
    both to the sender, under the request's correlation id. A request
    without action runs a task of type [None] and is answered by a response
    as well. *)
Example request_reply_example :
  let request_with payload :=
    AgentMessage.mk "architect-1" "ba-A" MessageType.REQUEST
      payload MessagePriority.LOW ∅ "corr-7" None 0 ∅ in
  let after_payload payload :=
    Agent.receive_message Samples.env 0%nat 0%nat
      (alloc_msg (request_with payload) Samples.world).2 in
  let request action := request_with {["action" := PStr action]} in
  let after action :=
    Agent.receive_message Samples.env 0%nat 0%nat
      (alloc_msg (request action) Samples.world).2 in
  let replies action :=
    (fun m => (AgentMessage.message_type (w_msgs (after action) m),
               AgentMessage.recipient (w_msgs (after action) m),
               AgentMessage.correlation_id (w_msgs (after action) m)))
      <$> InMemoryMessageBus._message_queue (w_bus (after action)) in
  replies "boom"
    = [(MessageType.BROADCAST, "BROADCAST", "uuid-6");
       (MessageType.ERROR, "architect-1", "corr-7")] ∧
  replies "plan"
    = [(MessageType.BROADCAST, "BROADCAST", "uuid-7");
       (MessageType.RESPONSE, "architect-1", "corr-7")] ∧
  AgentTask.task_type (w_tasks (after_payload ∅) 6%nat) = PNone ∧
  (fun m => (AgentMessage.message_type (w_msgs (after_payload ∅) m),
             AgentMessage.payload (w_msgs (after_payload ∅) m)))
    <$> last (InMemoryMessageBus._message_queue (w_bus (after_payload ∅)))
  = Some (MessageType.RESPONSE,
          list_to_map [("status", PStr "success"); ("result", PDict ∅)]).
Proof. vm_compute. done. Qed.

(** ** Workflow engine: what a step may do *)

(** A relation between engine states that the pieces of [_execute_step]
    respect is respected by [_execute_step], through all sub-steps. *)
Section StepInduction.
Variable R : WorkflowEngine.state → WorkflowEngine.state → Prop.
Variable env : Env.
Variable e : ref.
Hypothesis R_refl : ∀ st, R st st.
Hypothesis R_trans : ∀ st1 st2 st3, R st1 st2 → R st2 st3 → R st1 st3.
Hypothesis R_emit : ∀ ev st, R st (WorkflowEngine._emit_event ev st).
Hypothesis R_agent :
  ∀ step st, R st (WorkflowEngine._execute_agent_step env e step st).1.
Hypothesis R_review :
  ∀ step st, R st (WorkflowEngine._execute_human_review_step env e step st).1.
Hypothesis R_upd_context :
  ∀ f st,
    R st (WorkflowEngine.upd_exec e
            (fun x => WorkflowExecution.set_context (f x) x) st).
Hypothesis R_fail :
  ∀ msg st,
    R st (WorkflowEngine.upd_exec e
            (fun x => WorkflowExecution.set_error (Some msg)
                        (WorkflowExecution.set_status WorkflowStatus.FAILED x))
            st).

Lemma execute_step_respects : ∀ step st,
  R st (WorkflowEngine._execute_step env e step st).1.
Proof.
  induction step as [step IH] using WorkflowStep_nested_ind. intros st.
  destruct step as [sid nm ty aty tty im om cond subs rc ts onf md].
  cbn [WorkflowStep.sub_steps] in IH.
  cbn [WorkflowEngine._execute_step].
  set (step := WorkflowStep.mk sid nm ty aty tty im om cond subs rc ts onf md).
  match goal with
  | |- R _ (let '(_, _) := ?mid in _).1 => remember mid as m eqn:Hm
  end.
  assert (R st m.1) as Hmid; [subst m|clear Hm; destruct m as [st1 r]].
  - eapply R_trans; [apply (R_emit "step_started")|].
    generalize (WorkflowEngine._emit_event "step_started" st).
    intros st'. destruct ty.
    + apply R_agent.
    + assert (∀ st0 res0,
                R st0
                  ((fix parallel (l : list WorkflowStep.t)
                        (st : WorkflowEngine.state) (results : pydict)
                      : WorkflowEngine.state * pydict :=
                      match l with
                      | [] => (st, results)
                      | sub_step :: l' =>
                          let '(st, r) :=
                            WorkflowEngine._execute_step env e sub_step st in
                          parallel l' st
                            (<[WorkflowStep.step_id sub_step :=
                                 match r with
                                 | Ok result => result
                                 | Raise e =>
                                     PDict {["error" := PStr (exn_msg e)]}
                                 end]> results)
                      end) subs st0 res0).1) as Hpar.
      { clear step. induction subs as [|s subs IHsubs]; intros st0 res0.
        - apply R_refl.
        - apply Forall_cons in IH as [Hs Hsubs].
          specialize (Hs st0).
          destruct (WorkflowEngine._execute_step env e s st0) as [st1 r1].
          eapply R_trans; [exact Hs|]. by apply IHsubs. }
      specialize (Hpar st' ∅).
      match goal with
      | H : R st' (?t).1 |- _ => destruct t as [st1 results]
      end.
      exact Hpar.
    + destruct (match cond with
                | Some c => _
                | None => false
                end); [|apply R_refl].
      generalize (∅ : pydict). revert st'. clear step.
      induction subs as [|s subs IHsubs]; intros st0 res0.
      * apply R_refl.
      * apply Forall_cons in IH as [Hs Hsubs].
        specialize (Hs st0).
        destruct (WorkflowEngine._execute_step env e s st0) as [st1 r1].
        destruct r1 as [result|ex]; [|exact Hs].
        eapply R_trans; [exact Hs|]. by apply IHsubs.
    + apply R_review.
    + apply R_refl.
    + apply R_refl.
  - cbn [fst] in Hmid.
    eapply R_trans; [exact Hmid|].
    destruct r as [result|ex]; cbv zeta.
    + cbn [fst]. eapply R_trans; [|apply R_emit]. apply R_upd_context.
    + destruct (String.eqb _ "skip"); [apply R_emit|].
      destruct (String.eqb _ "retry"); [apply R_emit|].
      cbn [fst]. eapply R_trans; [apply R_emit|]. apply R_fail.
Qed.
End StepInduction.

Lemma step_rel_refl e st : step_rel e st st.
Proof. unfold step_rel. cbv zeta. repeat (split; [done|]). by left. Qed.

Lemma step_rel_trans e st1 st2 st3 :
  step_rel e st1 st2 → step_rel e st2 st3 → step_rel e st1 st3.
Proof.
  unfold step_rel. cbv zeta.
  intros (H1 & H2 & H3 & H4 & H6 & H5) (K1 & K2 & K3 & K4 & K6 & K5).
  split; [congruence|]. split; [congruence|]. split; [congruence|].
  split; [congruence|]. split; [congruence|].
  destruct K5 as [[Ks Ke]|[Kw|Kf]].
  - destruct H5 as [[Hs He]|[Hw|[Hf Her]]].
    + left. split; congruence.
    + right. left. congruence.
    + right. right. split; [congruence|]. by rewrite Ke.
  - by right; left.
  - by right; right.
Qed.

Lemma step_rel_emit e ev st : step_rel e st (WorkflowEngine._emit_event ev st).
Proof.
  destruct st as [w self]. unfold step_rel. cbv zeta.
  repeat (split; [done|]). by left.
Qed.

Lemma step_rel_upd_exec e f st :
  (∀ x, WorkflowExecution.execution_id (f x) = WorkflowExecution.execution_id x ∧
        WorkflowExecution.current_step_index (f x)
          = WorkflowExecution.current_step_index x ∧
        ((WorkflowExecution.status (f x) = WorkflowExecution.status x ∧
          WorkflowExecution.error (f x) = WorkflowExecution.error x) ∨
         WorkflowExecution.status (f x) = WorkflowStatus.WAITING_APPROVAL ∨
         (WorkflowExecution.status (f x) = WorkflowStatus.FAILED ∧
          is_Some (WorkflowExecution.error (f x))))) →
  step_rel e st (WorkflowEngine.upd_exec e f st).
Proof.
  intros Hf. unfold step_rel. cbv zeta. rewrite get_exec_upd_exec.
  destruct (Hf (WorkflowEngine.get_exec e st)) as (H1 & H2 & H3).
  destruct st as [w self]. done.
Qed.

Lemma step_rel_world e w w' self : step_rel e (w, self) (w', self).
Proof. unfold step_rel. cbv zeta. repeat (split; [done|]). by left. Qed.

Lemma step_rel_agent_step env e step st :
  step_rel e st (WorkflowEngine._execute_agent_step env e step st).1.
Proof.
  unfold WorkflowEngine._execute_agent_step. destruct st as [w self].
  destruct (match WorkflowStep.agent_type step with
            | Some ty => _
            | None => Ok None
            end) as [[agent|]|ex]; [|apply step_rel_refl|apply step_rel_refl].
  cbn [read_uuid read_clock alloc_task].
  destruct (Agent.execute_task _ _ _ _) as [w' r]. apply step_rel_world.
Qed.

Lemma step_rel_review_step env e step st :
  step_rel e st (WorkflowEngine._execute_human_review_step env e step st).1.
Proof.
  unfold WorkflowEngine._execute_human_review_step.
  destruct (WorkflowEngine.upd_exec e _ st) as [w self] eqn:Hst.
  cbn [read_clock fst].
  apply (step_rel_trans _ _ (w, self)).
  - rewrite <- Hst. apply step_rel_upd_exec. intros x.
    split; [done|]. split; [done|]. by right; left.
  - apply (step_rel_trans _ _ (tick w, self)); [apply step_rel_world|].
    apply step_rel_upd_exec. intros x. split; [done|]. split; [done|].
    by left.
Qed.

Lemma step_rel_execute_step env e step st :
  step_rel e st (WorkflowEngine._execute_step env e step st).1.
Proof.
  apply execute_step_respects.
  - apply step_rel_refl.
  - apply step_rel_trans.
  - apply step_rel_emit.
  - apply step_rel_agent_step.
  - apply step_rel_review_step.
  - intros f st0. apply step_rel_upd_exec. intros x.
    split; [done|]. split; [done|]. by left.
  - intros msg st0. apply step_rel_upd_exec. intros x.
    split; [done|]. split; [done|]. right; right. split; [done|by eexists].
Qed.

(** ** Workflow engine: how a call leaves an execution *)

Lemma run_loop_settles env e wf : ∀ (n : nat) st,
  Z.of_nat (length (Workflow.steps wf))
    - WorkflowExecution.current_step_index (WorkflowEngine.get_exec e st)
    < Z.of_nat n →
  WorkflowExecution.status (WorkflowEngine.get_exec e st)
    = WorkflowStatus.RUNNING →
  let st' := (WorkflowEngine.run_loop env e wf n st).1 in
  let x' := WorkflowEngine.get_exec e st' in
  WorkflowExecution.execution_id x'
    = WorkflowExecution.execution_id (WorkflowEngine.get_exec e st) ∧
  WorkflowEngine._executions st'.2 = WorkflowEngine._executions st.2 ∧
  match (WorkflowEngine.run_loop env e wf n st).2 with
  | WorkflowEngine.Returned =>
      WorkflowExecution.status x' = WorkflowStatus.WAITING_APPROVAL ∧
      WorkflowEngine._pending_approvals st'.2
        !! WorkflowExecution.execution_id x' = Some e
  | WorkflowEngine.Left =>
      (WorkflowExecution.status x' = WorkflowStatus.RUNNING ∧
       Z.of_nat (length (Workflow.steps wf))
         ≤ WorkflowExecution.current_step_index x') ∨
      (WorkflowExecution.status x' = WorkflowStatus.FAILED ∧
       is_Some (WorkflowExecution.error x'))
  | WorkflowEngine.Raised _ => True
  end.
Proof.
  induction n as [|n IH]; intros st Hn Hrun.
  { cbn [WorkflowEngine.run_loop fst snd]. split; [done|]. split; [done|].
    left. split; [done|lia]. }
  cbn [WorkflowEngine.run_loop].
  destruct (_ <? _) eqn:E.
  2:{ cbn [fst snd]. split; [done|]. split; [done|]. left. split; [done|lia]. }
  destruct (py_index _ _) as [step|ex]; [|by cbn [fst snd]].
  pose proof (step_rel_execute_step env e step st) as Hrel.
  destruct (WorkflowEngine._execute_step env e step st) as [st1 r].
  cbn [fst] in Hrel. destruct Hrel as (Hid & Hidx & _ & _ & Hex & Hst).
  destruct r as [result|ex]; [|by cbn [fst snd]].
  set (st2 := WorkflowEngine.upd_exec e _ st1).
  assert (WorkflowEngine.get_exec e st2
          = WorkflowExecution.set_step_results
              (<[WorkflowStep.step_id step := result]>
                 (WorkflowExecution.step_results
                    (WorkflowEngine.get_exec e st1)))
              (WorkflowEngine.get_exec e st1)) as Hx2.
  { subst st2. by rewrite get_exec_upd_exec. }
  assert (WorkflowEngine._executions st2.2 = WorkflowEngine._executions st1.2)
    as Hex2.
  { subst st2. by destruct st1. }
  rewrite Hx2.
  cbn [WorkflowExecution.status WorkflowExecution.set_step_results
       WorkflowExecution.execution_id].
  destruct (decide (WorkflowExecution.status (WorkflowEngine.get_exec e st1)
                    = WorkflowStatus.WAITING_APPROVAL)) as [Hw|Hnw].
  { cbn [fst snd].
    assert (∀ p ev,
              WorkflowEngine.get_exec e
                (WorkflowEngine._emit_event ev
                   (WorkflowEngine.set_pending p st2))
              = WorkflowEngine.get_exec e st2) as Hg.
    { intros p ev. by destruct st2. }
    rewrite Hg, Hx2.
    cbn [WorkflowExecution.status WorkflowExecution.set_step_results
         WorkflowExecution.execution_id].
    split; [done|]. split; [destruct st2; simpl in *; congruence|].
    split; [done|]. destruct st2 as [w2 self2]. simpl.
    apply lookup_insert_eq. }
  destruct (decide (WorkflowExecution.status (WorkflowEngine.get_exec e st1)
                    = WorkflowStatus.FAILED)) as [Hf|Hnf].
  { cbn [fst snd]. rewrite Hx2.
    cbn [WorkflowExecution.status WorkflowExecution.set_step_results
         WorkflowExecution.execution_id WorkflowExecution.error].
    split; [done|]. split; [congruence|]. right. split; [done|].
    destruct Hst as [[Hs He]|[Hw|[_ He]]]; [congruence|done|done]. }
  assert (WorkflowExecution.status (WorkflowEngine.get_exec e st1)
          = WorkflowStatus.RUNNING) as Hrun1.
  { destruct Hst as [[Hs He]|[Hw|[Hf _]]]; [congruence|done|done]. }
  set (st3 := WorkflowEngine.upd_exec e _ st2).
  assert (WorkflowEngine.get_exec e st3
          = WorkflowExecution.set_current_step_index
              (WorkflowExecution.current_step_index
                 (WorkflowEngine.get_exec e st2) + 1)
              (WorkflowEngine.get_exec e st2)) as Hx3.
  { subst st3. by rewrite get_exec_upd_exec. }
  assert (WorkflowEngine._executions st3.2 = WorkflowEngine._executions st2.2)
    as Hex3.
  { subst st3. by destruct st2. }
  specialize (IH st3).
  rewrite Hx3, Hx2 in IH.
  cbn [WorkflowExecution.status WorkflowExecution.set_step_results
       WorkflowExecution.set_current_step_index
       WorkflowExecution.current_step_index WorkflowExecution.execution_id]
    in IH.
  rewrite Hex3, Hex2, Hex, Hid in IH. apply IH; [lia|done].
Qed.

Lemma run_workflow_settles env e wf st :
  settled wf (WorkflowEngine._run_workflow env e wf st) e ∧
  WorkflowExecution.execution_id
    (WorkflowEngine.get_exec e (WorkflowEngine._run_workflow env e wf st))
    = WorkflowExecution.execution_id (WorkflowEngine.get_exec e st) ∧
  WorkflowEngine._executions (WorkflowEngine._run_workflow env e wf st).2
    = WorkflowEngine._executions st.2.
Proof.
  unfold WorkflowEngine._run_workflow. cbv zeta.
  set (st0 := WorkflowEngine._emit_event "workflow_started" _).
  assert (WorkflowEngine.get_exec e st0
          = WorkflowExecution.set_status WorkflowStatus.RUNNING
              (WorkflowEngine.get_exec e st)) as Hx0.
  { subst st0. destruct st as [w self]. unfold WorkflowEngine.get_exec. simpl.
    by rewrite fn_lookup_insert. }
  assert (WorkflowEngine._executions st0.2 = WorkflowEngine._executions st.2)
    as Hex0.
  { subst st0. by destruct st. }
  set (fuel := S _).
  pose proof (run_loop_settles env e wf fuel st0) as Hloop.
  cbv zeta in Hloop. rewrite Hx0 in Hloop.
  cbn [WorkflowExecution.status WorkflowExecution.set_status
       WorkflowExecution.current_step_index WorkflowExecution.execution_id]
    in Hloop.
  assert (Z.of_nat (length (Workflow.steps wf))
            - WorkflowExecution.current_step_index (WorkflowEngine.get_exec e st)
          < Z.of_nat fuel) as Hfuel.
  { subst fuel. rewrite Hx0. cbn [WorkflowExecution.current_step_index
      WorkflowExecution.set_status]. lia. }
  destruct (Hloop Hfuel eq_refl) as (Hid & Hex & Hexit). clear Hloop.
  rewrite Hex0 in Hex.
  destruct (WorkflowEngine.run_loop env e wf fuel st0) as [st1 exit].
  cbn [fst snd] in *. unfold settled. cbv zeta.
  destruct exit as [| |ex].
  - destruct Hexit as [Hw Hp]. split; [by left|]. done.
  - destruct Hexit as [[Hr Hlen]|[Hf He]].
    + rewrite decide_True by done.
      destruct st1 as [w1 self1]. cbn [read_clock].
      unfold WorkflowEngine.get_exec in *. simpl in *.
      rewrite !fn_lookup_insert. simpl.
      split; [|done]. right; left. split; [done|]. split; [by eexists|done].
    + rewrite decide_False by congruence.
      split; [|done]. right; right. done.
  - destruct st1 as [w1 self1]. cbn [read_clock].
    unfold WorkflowEngine.get_exec in *. simpl in *.
    rewrite !fn_lookup_insert. simpl.
    split; [|done]. right; right. split; [done|by eexists].
Qed.

(** X17. Every call of the engine that runs a workflow leaves the
    execution settled: waiting for approval and filed under its id among
    the pending approvals, or completed (completion time set, no step left),
    or failed with its error set; never pending or running.
    [execute_workflow] on an unknown workflow id raises [ValueError] and
    changes nothing; otherwise the execution it returns is the one
    [get_execution] finds under the execution's id. [approve_step] that
    raises has changed nothing. *)
Theorem engine_calls_settle (env : Env) (st : WorkflowEngine.state) :
  (∀ wid ctx,
     match WorkflowEngine.execute_workflow env wid ctx st with
     | (st', Ok r) =>
         ∃ wf,
           WorkflowEngine._workflows st.2 !! wid = Some wf ∧
           settled wf st' r ∧
           WorkflowEngine.get_execution st'.2
             (WorkflowExecution.execution_id (WorkflowEngine.get_exec r st'))
           = Some r
     | (st', Raise ex) =>
         st' = st ∧ WorkflowEngine._workflows st.2 !! wid = None ∧
         ex = Exn ValueError ("Workflow not found: " +:+ wid)
     end) ∧
  (∀ eid feedback updates,
     match WorkflowEngine.approve_step env eid feedback updates st with
     | (st', Ok _) =>
         ∃ r wf,
           WorkflowEngine._pending_approvals st.2 !! eid = Some r ∧
           WorkflowEngine._workflows st.2
             !! WorkflowExecution.workflow_id (WorkflowEngine.get_exec r st)
             = Some wf ∧
           settled wf st' r
     | (st', Raise _) => st' = st
     end) ∧
  (∀ eid feedback updates st',
     WorkflowEngine.reject_step env eid feedback updates st = (st', Ok ()) →
     ∃ r wf,
       WorkflowEngine._pending_approvals st.2 !! eid = Some r ∧
       WorkflowEngine._workflows st.2
         !! WorkflowExecution.workflow_id (WorkflowEngine.get_exec r st)
         = Some wf ∧
       settled wf st' r).
Proof.
  split; [|split].
  - intros wid ctx. unfold WorkflowEngine.execute_workflow.
    destruct st as [w self]. cbn [snd].
    destruct (WorkflowEngine._workflows self !! wid) as [wf|] eqn:Hwf; [|done].
    cbn [read_uuid read_clock].
    match goal with
    | |- context [WorkflowEngine._run_workflow env ?e wf ?s] =>
        destruct (run_workflow_settles env e wf s) as (Hs & Hid & Hex);
        generalize dependent (WorkflowEngine._run_workflow env e wf s)
    end.
    intros st' Hs Hid Hex. exists wf. split; [done|]. split; [exact Hs|].
    unfold WorkflowEngine.get_execution. rewrite Hex, Hid.
    unfold WorkflowEngine.get_exec. simpl. rewrite fn_lookup_insert. simpl.
    apply lookup_insert_eq.
  - intros eid feedback updates. unfold WorkflowEngine.approve_step.
    destruct (WorkflowEngine._pending_approvals st.2 !! eid) as [r|]; [|done].
    destruct (WorkflowEngine._workflows st.2 !! _) as [wf|] eqn:Hwf; [|done].
    exists r, wf. split; [done|]. split; [done|].
    apply run_workflow_settles.
  - intros eid feedback updates st'. unfold WorkflowEngine.reject_step.
    destruct (WorkflowEngine._pending_approvals st.2 !! eid) as [r|]; [|done].
    destruct (WorkflowEngine._workflows st.2 !! _) as [wf|] eqn:Hwf; [|done].
    destruct (WorkflowEngine.reject_step_update _ _ _ _ _ _ _) as [st2 res].
    destruct res as [[]|ex]; [|done]. intros [= <-].
    exists r, wf. split; [done|]. split; [done|].
    apply run_workflow_settles.
Qed.

(** ** Workflow engine: a step that cannot run *)

(** X18. A step that cannot run (an agent step for whose type
    [get_best_agent] finds no agent, or a step of type [LOOP] or [WAIT],
    which the engine does not know) creates no task and reads no clock: the
    world is untouched and the events ["step_started"] and ["step_failed"]
    are emitted. With [on_failure = "skip"] the step returns
    [{"skipped": True, "error": ...}], with ["retry"] it returns [None]
    without trying again, and the execution is as before; with any other
    value the execution is marked failed with the error and the exception is
    raised. *)
Theorem step_that_cannot_run (env : Env) (e : ref) (step : WorkflowStep.t)
    (st : WorkflowEngine.state) :
  (WorkflowStep.step_type step = StepType.AGENT_TASK ∧
   match WorkflowStep.agent_type step with
   | Some ty => AgentRegistry.get_best_agent (w_agents st.1) (w_registry st.1) ty
   | None => Ok None
   end = Ok None) ∨
  WorkflowStep.step_type step = StepType.LOOP ∨
  WorkflowStep.step_type step = StepType.WAIT →
  let ex :=
    match WorkflowStep.step_type step with
    | StepType.LOOP => Exn ValueError "Unknown step type: StepType.LOOP"
    | StepType.WAIT => Exn ValueError "Unknown step type: StepType.WAIT"
    | _ =>
        Exn RuntimeError
          ("No available agent of type: "
           +:+ default "None" (WorkflowStep.agent_type step))
    end in
  let st' := (WorkflowEngine._execute_step env e step st).1 in
  let x := WorkflowEngine.get_exec e st in
  st'.1 = st.1 ∧
  WorkflowEngine._emitted st'.2
    = "step_failed" :: "step_started" :: WorkflowEngine._emitted st.2 ∧
  if String.eqb (WorkflowStep.on_failure step) "skip" then
    (WorkflowEngine._execute_step env e step st).2
      = Ok (PDict (list_to_map [("skipped", PBool true);
                                ("error", PStr (exn_msg ex))])) ∧
    WorkflowEngine.get_exec e st' = x
  else if String.eqb (WorkflowStep.on_failure step) "retry" then
    (WorkflowEngine._execute_step env e step st).2 = Ok PNone ∧
    WorkflowEngine.get_exec e st' = x
  else
    (WorkflowEngine._execute_step env e step st).2 = Raise ex ∧
    WorkflowEngine.get_exec e st'
      = WorkflowExecution.set_error (Some (exn_msg ex))
          (WorkflowExecution.set_status WorkflowStatus.FAILED x).
Proof.
  intros Hcannot. cbv zeta.
  destruct step as [sid nm ty aty tty im om cond subs rc ts onf md].
  destruct st as [w self].
  cbn [WorkflowStep.step_type WorkflowStep.agent_type WorkflowStep.on_failure
       fst snd] in *.
  cbn [WorkflowEngine._execute_step WorkflowEngine._emit_event].
  destruct Hcannot as [[-> Hnone]|[->| ->]].
  - unfold WorkflowEngine._execute_agent_step.
    cbn [WorkflowStep.agent_type WorkflowStep.on_failure].
    rewrite Hnone.
    destruct (String.eqb onf "skip"); [|destruct (String.eqb onf "retry")];
      cbn [fst snd WorkflowEngine._emit_event WorkflowEngine._emitted
           WorkflowEngine.upd_exec exn_msg];
      unfold WorkflowEngine.get_exec; cbn [snd WorkflowEngine.execs];
      rewrite ?fn_lookup_insert; done.
  - cbn [WorkflowStep.on_failure].
    destruct (String.eqb onf "skip"); [|destruct (String.eqb onf "retry")];
      cbn [fst snd WorkflowEngine._emit_event WorkflowEngine._emitted
           WorkflowEngine.upd_exec exn_msg];
      unfold WorkflowEngine.get_exec; cbn [snd WorkflowEngine.execs];
      rewrite ?fn_lookup_insert; done.
  - cbn [WorkflowStep.on_failure].
    destruct (String.eqb onf "skip"); [|destruct (String.eqb onf "retry")];
      cbn [fst snd WorkflowEngine._emit_event WorkflowEngine._emitted
           WorkflowEngine.upd_exec exn_msg];
      unfold WorkflowEngine.get_exec; cbn [snd WorkflowEngine.execs];
      rewrite ?fn_lookup_insert; done.
Qed.

Lemma step_that_cannot_run_witness :
  (WorkflowEngine._execute_step Samples.env 0%nat
     (WorkflowStep.mk "step-9" "test" StepType.AGENT_TASK (Some "qa")
        (Some "qa_testing") [] [] None [] 3 300 "retry" ∅)
     Samples.paused_state).1.1
  = Samples.paused_state.1.
Proof.
  refine (proj1 (step_that_cannot_run Samples.env 0%nat
                   (WorkflowStep.mk "step-9" "test" StepType.AGENT_TASK
                      (Some "qa") (Some "qa_testing") [] [] None [] 3 300
                      "retry" ∅)
                   Samples.paused_state _)).
  left. split; [reflexivity|]. vm_compute. reflexivity.
Defined.

(** With ["retry"] a workflow goes on past the step that could not run,
    recording [None] as its result; with ["fail"] it ends failed. *)
Example retry_is_not_retried :
  let wf onf :=
    Workflow.mk "wf-2" "tests" ""
      [WorkflowStep.mk "step-9" "test" StepType.AGENT_TASK (Some "qa")
         (Some "qa_testing") [] [] None [] 3 300 onf ∅]
      ∅ ∅ "1.0" in
  let run onf :=
    WorkflowEngine.execute_workflow Samples.env "wf-2" None
      (Samples.registered_world,
       WorkflowEngine.register_workflow WorkflowEngine.init (wf onf)) in
  let x onf := WorkflowEngine.get_exec 0%nat (run onf).1 in
  (WorkflowExecution.status (x "retry"),
   WorkflowExecution.step_results (x "retry") !! "step-9",
   WorkflowExecution.current_step_index (x "retry"))
  = (WorkflowStatus.COMPLETED, Some PNone, 1) ∧
  (WorkflowExecution.status (x "fail"), WorkflowExecution.error (x "fail"))
  = (WorkflowStatus.FAILED, Some "No available agent of type: qa").
Proof. vm_compute. done. Qed.

(** ** Message and task model: from a dictionary and back *)

Lemma dict_item_Ok repr (data : pydict) k v :
  dict_item repr data k = Ok v → data !! k = Some v.
Proof. unfold dict_item. destruct (data !! k); by intros [= <-]. Qed.

Lemma as_str_Ok v s : as_str v = Ok s → v = PStr s.
Proof. destruct v; try done. by intros [= <-]. Qed.

Lemma as_dict_Ok v d : as_dict v = Ok d → v = PDict d.
Proof. destruct v; try done. by intros [= <-]. Qed.

Lemma as_opt_str_Ok v o : as_opt_str v = Ok o → v = of_opt_str o.
Proof. destruct v; try done; by intros [= <-]. Qed.

Lemma as_opt_dict_Ok v o : as_opt_dict v = Ok o → v = of_opt_dict o.
Proof. destruct v; try done; by intros [= <-]. Qed.

Lemma as_str_list_Ok v l : as_str_list v = Ok l → v = PList (PStr <$> l).
Proof.
  destruct v as [| | | | |vs|]; try done. cbn [as_str_list].
  revert l. induction vs as [|v vs IH]; intros l.
  - by intros [= <-].
  - cbn [as_str_list_aux].
    destruct (as_str v) as [s|] eqn:Hs; [|done].
    destruct (as_str_list_aux vs) as [r|] eqn:Hr; [|done].
    intros [= <-]. apply as_str_Ok in Hs as ->.
    specialize (IH r eq_refl). injection IH as ->. done.
Qed.

Lemma MessageType_of_value_Ok repr v m :
  MessageType.of_value repr v = Ok m → v = PStr (MessageType.value m).
Proof.
  unfold MessageType.of_value.
  destruct v as [| | | |s| |]; try done.
  destruct (List.find _ _) as [m'|] eqn:Hf; [|done]. intros [= <-].
  apply List.find_some in Hf as [_ Hf]. apply String.eqb_eq in Hf.
  by rewrite Hf.
Qed.

Lemma MessagePriority_of_value_Ok repr v p :
  MessagePriority.of_value repr v = Ok p →
  py_eq_int v (MessagePriority.value p) = true.
Proof.
  unfold MessagePriority.of_value.
  destruct (List.find _ _) as [p'|] eqn:Hf; [|done]. intros [= <-].
  by apply List.find_some in Hf as [_ Hf].
Qed.

Lemma lookup_union_required (data dflt : pydict) k v :
  data !! k = Some v → (data ∪ dflt) !! k = Some v.
Proof. intros H. by apply lookup_union_Some_l. Qed.

Lemma lookup_union_dict_get (data dflt : pydict) k d :
  dflt !! k = Some d → (data ∪ dflt) !! k = Some (dict_get data k d).
Proof.
  intros H. unfold dict_get. rewrite lookup_union.
  rewrite H. by destruct (data !! k).
Qed.

Ltac bind_cases :=
  repeat
    (match goal with
     | |- context [mbind _ ?r] =>
         let E := fresh "E" in destruct r eqn:E; cbn [mbind res_bind]
     end; try discriminate).

Ltac read_back :=
  repeat match goal with
         | H : dict_item _ _ _ = Ok _ |- _ => apply dict_item_Ok in H
         | H : as_str _ = Ok _ |- _ => apply as_str_Ok in H
         | H : as_dict _ = Ok _ |- _ => apply as_dict_Ok in H
         | H : as_opt_str _ = Ok _ |- _ => apply as_opt_str_Ok in H
         | H : as_opt_dict _ = Ok _ |- _ => apply as_opt_dict_Ok in H
         | H : as_str_list _ = Ok _ |- _ => apply as_str_list_Ok in H
         | H : MessageType.of_value _ _ = Ok _ |- _ =>
             apply MessageType_of_value_Ok in H
         | H : MessagePriority.of_value _ _ = Ok _ |- _ =>
             apply MessagePriority_of_value_Ok in H
         end.

Ltac same_entry :=
  repeat (first [rewrite lookup_insert_eq
                | rewrite lookup_insert_ne by done]);
  symmetry;
  first [ by apply lookup_union_required
        | match goal with
          | H : dict_get _ ?k ?d = _ |- (_ ∪ _) !! ?k = _ =>
              rewrite <- H; by apply lookup_union_dict_get
          end ].

(** X19. Whatever [from_dict] accepts, [to_dict] gives back: for a message
    built by [AgentMessage.from_dict], [to_dict] has, under every key but
    ["timestamp"] and ["priority"], the value of the dictionary, or for a
    key the dictionary leaves out the default (empty context and metadata,
    the generated correlation id, no parent id); under ["priority"] it has
    the integer that equals the dictionary's value (3 by default), which
    may itself be [True] or a float; the timestamp of a dictionary without
    one is the time of the call. Likewise for a task built by
    [AgentTask.from_dict], for every key but the three times. This holds
    whatever [repr] and the two functions of [datetime] do. *)
Theorem from_dict_then_to_dict
    (isoformat : datetime → string) (fromisoformat : string → res datetime)
    (repr : pyval → string)
    (uuid4 : string) (now : datetime) (data data' : pydict)
    (m : AgentMessage.t) (tk : AgentTask.t) :
  AgentMessage.from_dict fromisoformat repr uuid4 now data = Ok m →
  AgentTask.from_dict fromisoformat repr now data' = Ok tk →
  Forall (fun k => AgentMessage.to_dict isoformat m !! k
                   = (data ∪ message_defaults uuid4) !! k)
    ["sender"; "recipient"; "message_type"; "payload"; "context";
     "correlation_id"; "parent_id"; "metadata"] ∧
  (∃ v p, (data ∪ message_defaults uuid4) !! "priority" = Some v ∧
          AgentMessage.to_dict isoformat m !! "priority" = Some (PInt p) ∧
          py_eq_int v p = true) ∧
  (data !! "timestamp" = None → AgentMessage.timestamp m = now) ∧
  Forall (fun k => AgentTask.to_dict isoformat tk !! k
                   = (data' ∪ task_defaults) !! k)
    ["task_id"; "task_type"; "input_data"; "assigned_agent"; "status";
     "result"; "parent_task_id"; "dependencies"; "metadata"] ∧
  (∃ v p, (data' ∪ task_defaults) !! "priority" = Some v ∧
          AgentTask.to_dict isoformat tk !! "priority" = Some (PInt p) ∧
          py_eq_int v p = true) ∧
  (data' !! "created_at" = None → AgentTask.created_at tk = now).
Proof.
  intros Hm Htk. split; [|split; [|split; [|split; [|split]]]].
  - revert Hm. unfold AgentMessage.from_dict. bind_cases. intros [= <-].
    read_back. subst.
    repeat apply Forall_cons_2; try apply Forall_nil_2;
      unfold AgentMessage.to_dict;
      cbn [AgentMessage.sender AgentMessage.recipient
           AgentMessage.message_type AgentMessage.payload
           AgentMessage.priority AgentMessage.context
           AgentMessage.correlation_id AgentMessage.parent_id
           AgentMessage.timestamp AgentMessage.metadata list_to_map foldr
           curry fst snd uncurry];
      same_entry.
  - revert Hm. unfold AgentMessage.from_dict. bind_cases. intros [= <-].
    read_back.
    eexists _, _. split; [by apply lookup_union_dict_get|]. split; [|done].
    unfold AgentMessage.to_dict.
    cbn [AgentMessage.priority list_to_map foldr curry fst snd uncurry].
    by repeat (first [rewrite lookup_insert_eq
                     | rewrite lookup_insert_ne by done]).
  - intros Hts. revert Hm. unfold AgentMessage.from_dict. rewrite Hts.
    bind_cases. by intros [= <-].
  - revert Htk. unfold AgentTask.from_dict. bind_cases. intros [= <-].
    read_back. subst.
    repeat apply Forall_cons_2; try apply Forall_nil_2;
      unfold AgentTask.to_dict;
      cbn [AgentTask.task_id AgentTask.task_type AgentTask.input_data
           AgentTask.assigned_agent AgentTask.status AgentTask.result
           AgentTask.created_at AgentTask.started_at AgentTask.completed_at
           AgentTask.parent_task_id AgentTask.dependencies AgentTask.priority
           AgentTask.metadata list_to_map foldr curry fst snd uncurry];
      same_entry.
  - revert Htk. unfold AgentTask.from_dict. bind_cases. intros [= <-].
    read_back.
    eexists _, _. split; [by apply lookup_union_dict_get|]. split; [|done].
    unfold AgentTask.to_dict.
    cbn [AgentTask.priority list_to_map foldr curry fst snd uncurry].
    by repeat (first [rewrite lookup_insert_eq
                     | rewrite lookup_insert_ne by done]).
  - intros Hts. revert Htk. unfold AgentTask.from_dict. rewrite Hts.
    bind_cases. by intros [= <-].
Qed.

Lemma from_dict_then_to_dict_witness :
  Forall (fun k =>
            AgentMessage.to_dict Samples.isoformat
              (AgentMessage.mk "ba-A" "architect-1" MessageType.REQUEST ∅
                 MessagePriority.CRITICAL ∅ "fresh-uuid" None 7 ∅) !! k
            = (list_to_map [("sender", PStr "ba-A");
                            ("recipient", PStr "architect-1");
                            ("message_type", PStr "request");
                            ("payload", PDict ∅);
                            ("priority", PBool true)]
                 ∪ message_defaults "fresh-uuid") !! k)
    ["sender"; "recipient"; "message_type"; "payload"; "context";
     "correlation_id"; "parent_id"; "metadata"].
Proof.
  refine (proj1 (from_dict_then_to_dict Samples.isoformat
                   Samples.fromisoformat Samples.repr "fresh-uuid" 7
                   (list_to_map [("sender", PStr "ba-A");
                                 ("recipient", PStr "architect-1");
                                 ("message_type", PStr "request");
                                 ("payload", PDict ∅);
                                 ("priority", PBool true)])
                   (list_to_map [("task_id", PStr "t-1");
                                 ("task_type", PNone);
                                 ("input_data", PList []);
                                 ("priority", PFloat 2)])
                   (AgentMessage.mk "ba-A" "architect-1" MessageType.REQUEST ∅
                      MessagePriority.CRITICAL ∅ "fresh-uuid" None 7 ∅)
                   (AgentTask.mk "t-1" PNone (PList []) None "pending" None 7
                      None None None [] MessagePriority.HIGH ∅)
                   _ _)); vm_compute; reflexivity.
Defined.

(** What [from_dict] refuses and what it accepts. A dictionary without one
    of the required keys gives the [KeyError] of the first of them, also
    when an earlier value has another type than declared; a priority that
    equals the value of no member gives a [ValueError]. The priorities
    [True] and [2.0] are those of [CRITICAL] and [HIGH], which [to_dict]
    shows as 1 and 2. *)
Example from_dict_refuses :
  AgentMessage.from_dict Samples.fromisoformat Samples.repr "fresh-uuid" 7
    (list_to_map [("sender", PInt 5); ("payload", PDict ∅)])
  = Raise (Exn KeyError "'recipient'") ∧
  AgentMessage.from_dict Samples.fromisoformat Samples.repr "fresh-uuid" 7
    (list_to_map [("sender", PStr "ba-A"); ("recipient", PStr "qa-1");
                  ("message_type", PStr "bogus"); ("payload", PDict ∅)])
  = Raise (Exn ValueError "'bogus' is not a valid MessageType") ∧
  AgentTask.from_dict Samples.fromisoformat Samples.repr 7
    (list_to_map [("task_id", PStr "t-1"); ("task_type", PStr "design");
                  ("input_data", PDict ∅); ("priority", PInt 7)])
  = Raise (Exn ValueError "7 is not a valid MessagePriority") ∧
  MessagePriority.of_value Samples.repr (PBool true)
  = Ok MessagePriority.CRITICAL ∧
  MessagePriority.of_value Samples.repr (PFloat 2) = Ok MessagePriority.HIGH.
Proof. repeat split; vm_compute; reflexivity. Qed.
